(** * SAPI5 synthesizer driver (synthDrivers/sapi5.py)

    A shallow embedding of the two parts of the driver that carry logic:
    the wave-out hooks that pair audio ducking with device handles, and
    [SynthDriver.speak], which compiles a speech sequence into SAPI XML.

    Conventions of the embedding.
    - Python [int] is [Z]; [//] is [Z.div] (both floor).
    - A multiplier of a prosody command is a Python number, an [int] or a
      [float]; a float is a finite binary64, and its product with an [int]
      is rounded as Python rounds it (see [number]).
    - A Python [dict] whose iteration order reaches the output ([tags] and
      the attribute dicts) is an association list kept in insertion order;
      [_duckersByHandle], whose order is never observed, is a [gmap].
    - An exception is a value of [exn]; code that can raise returns
      [result]. *)

From Stdlib Require Import QArith Qabs.
From stdpp Require Import gmap strings list fin_maps pretty.

Local Open Scope Z_scope.
Local Open Scope string_scope.
Local Open Scope list_scope.

(** ** Exceptions *)

Inductive exn :=
| LookupError (msg : string)
| KeyError
| RuntimeError (msg : string)
| UnicodeEncodeError
| WindowsError (winerror : Z)
| OtherError (name : string).

(** [except LookupError] also catches [KeyError], its subclass. *)
Definition isLookupError (e : exn) : bool :=
  match e with
  | LookupError _ | KeyError => true
  | _ => false
  end.

Definition isKeyError (e : exn) : bool :=
  match e with
  | KeyError => true
  | _ => false
  end.

Definition isWindowsError (e : exn) : bool :=
  match e with
  | WindowsError _ => true
  | _ => false
  end.

Definition isUnicodeEncodeError (e : exn) : bool :=
  match e with
  | UnicodeEncodeError => true
  | _ => false
  end.

Inductive result (A : Type) :=
| Ok (a : A)
| Raise (e : exn).
Arguments Ok {A} a.
Arguments Raise {A} e.

#[global] Instance result_ret : MRet result := fun _ a => Ok a.
#[global] Instance result_bind : MBind result := fun _ _ f r =>
  match r with
  | Ok a => f a
  | Raise e => Raise e
  end.

(** [try: body  except E: handler], [catches] telling the instances of [E]. *)
Definition try_except {A} (body : result A) (catches : exn -> bool)
    (handler : exn -> result A) : result A :=
  match body with
  | Ok a => Ok a
  | Raise e => if catches e then handler e else Raise e
  end.

(** ** Insertion-ordered dictionaries *)

Module PyDict.
Section Dict.
Context {V : Type}.

Definition t := list (string * V).

Fixpoint get (k : string) (d : t) : option V :=
  match d with
  | [] => None
  | (k', v) :: d' => if String.eqb k k' then Some v else get k d'
  end.

(** [d[k] = v]: an existing key keeps its place, a new key goes last. *)
Fixpoint set (k : string) (v : V) (d : t) : t :=
  match d with
  | [] => [(k, v)]
  | (k', v') :: d' =>
      if String.eqb k k' then (k, v) :: d' else (k', v') :: set k v d'
  end.

Fixpoint remove (k : string) (d : t) : t :=
  match d with
  | [] => []
  | (k', v') :: d' =>
      if String.eqb k k' then d' else (k', v') :: remove k d'
  end.

(** [del d[k]] raises [KeyError] when the key is absent. *)
Definition del (k : string) (d : t) : result t :=
  match get k d with
  | Some _ => Ok (remove k d)
  | None => Raise KeyError
  end.

Definition keys (d : t) : list string := d.*1.

Definition wf (d : t) : Prop := NoDup (keys d).
End Dict.
Arguments t : clear implicits.
Arguments keys : simpl never.
End PyDict.

(** ** Numbers

    A multiplier is an [int] or a [float].  A float is a finite binary64,
    written as the dyadic fraction [num / 2^scale] it is equal to: [1.5]
    is [PyFloat 3 1], and [0.3], the double nearest to three tenths, is
    [PyFloat 5404319552844595 54].  The exponent of a float is not bounded
    here: an [int] or a product beyond the range of a double is outside
    the model, as are [inf] and [nan], which [int()] refuses. *)

Inductive number :=
| PyInt (z : Z)
| PyFloat (num : Z) (scale : N).

Coercion PyInt : Z >-> number.

(** Rounding to the 53 significant bits of a double, to nearest, ties to
    even: the rounding of every float operation and of [float(n)]. *)
Definition round53 (n : Z) : Z :=
  let shift := Z.log2 (Z.abs n) - 52 in
  if Z.leb shift 0 then n
  else
    let q := Z.abs n `div` 2 ^ shift in
    let r := Z.abs n `mod` 2 ^ shift in
    let half := 2 ^ (shift - 1) in
    let q' := if Z.ltb half r || (Z.eqb r half && Z.odd q) then q + 1 else q in
    Z.sgn n * (q' * 2 ^ shift).

(** [int(x)] on a number: truncation toward zero. *)
Definition py_int (x : number) : Z :=
  match x with
  | PyInt z => z
  | PyFloat num scale => Z.quot num (2 ^ Z.of_N scale)
  end.

(** [base * multiplier] with [base] an [int]: exact with an [int], and
    with a [float] the float product of [float(base)] and the multiplier. *)
Definition py_mul (base : Z) (multiplier : number) : number :=
  match multiplier with
  | PyInt z => PyInt (base * z)
  | PyFloat num scale => PyFloat (round53 (round53 base * num)) scale
  end.

(** [multiplier == 1] *)
Definition is_one (multiplier : number) : bool :=
  match multiplier with
  | PyInt z => Z.eqb z 1
  | PyFloat num scale => Z.eqb num (2 ^ Z.of_N scale)
  end.

(** [str(n)], also what [%d] and [%s] print for an [int]. *)
Definition str_of_int (n : Z) : string := pretty n.

(** ** Logging

    Only the level and the fixed part of each message are kept. *)

Inductive LogLevel := DEBUG | DEBUGWARNING | WARNING | ERROR.

Definition LogRecord : Type := LogLevel * string.

(** ** The driver object

    [tts_rate], [tts_volume] and [voice_language] stand for the COM
    properties [tts.rate], [tts.volume] and
    [tts.voice.GetAttribute("language")]. *)

Record SynthDriver := {
  _pitch : Z;
  tts_rate : Z;
  tts_volume : Z;
  voice_language : string
}.

Definition _get_rate (self : SynthDriver) : Z := tts_rate self * 5 + 50.
Definition _get_pitch (self : SynthDriver) : Z := _pitch self.
Definition _get_volume (self : SynthDriver) : Z := tts_volume self.

Definition _percentToRate (percent : Z) : Z := (percent - 50) `div` 5.

Definition _percentToPitch (percent : Z) : Z := percent `div` 2 - 25.

(** ** Phoneme conversion

    The IPA string is iterated character by character, so it is a list of
    Unicode code points. *)

Definition codepoint := N.

Definition THETA : codepoint := 0x3B8%N.
Definition LATIN_S : codepoint := 0x73%N.
(** U+02C8, MODIFIER LETTER VERTICAL LINE, the primary stress mark. *)
Definition STRESS : codepoint := 0x2C8%N.

Definition IPA_TO_SAPI (ipaChar : codepoint) : option string :=
  if N.eqb ipaChar THETA then Some "th"
  else if N.eqb ipaChar LATIN_S then Some "s"
  else None.

(** The body of [for ipaChar in ipa], on the locals [out] and [outAfter]. *)
Fixpoint _convertPhoneme_loop (ipa : list codepoint) (out : list string)
    (outAfter : option string) : result (list string * option string) :=
  match ipa with
  | [] => Ok (out, outAfter)
  | ipaChar :: ipa' =>
      if N.eqb ipaChar STRESS then _convertPhoneme_loop ipa' out (Some "1")
      else
        match IPA_TO_SAPI ipaChar with
        | None => Raise KeyError
        | Some sapi =>
            match outAfter with
            | Some a => _convertPhoneme_loop ipa' (out ++ [sapi; a]) None
            | None => _convertPhoneme_loop ipa' (out ++ [sapi]) None
            end
        end
  end.

(** [sep.join(l)] *)
Fixpoint join (sep : string) (l : list string) : string :=
  match l with
  | [] => ""
  | [x] => x
  | x :: l' => x +:+ sep +:+ join sep l'
  end.

(** The list joined by the last line of [_convertPhoneme]. *)
Definition _convertPhoneme_tokens (self : SynthDriver) (ipa : list codepoint)
    : result (list string) :=
  if negb (String.eqb (voice_language self) "409") then
    Raise (LookupError "No data for this language")
  else
    r ← _convertPhoneme_loop ipa [] None;
    match r.2 with
    | Some a => Ok (r.1 ++ [a])
    | None => Ok r.1
    end.

Definition _convertPhoneme (self : SynthDriver) (ipa : list codepoint)
    : result string :=
  out ← _convertPhoneme_tokens self ipa;
  Ok (join " " out).

(** ** Speech sequences *)

Inductive SpeechItem :=
| Str (s : string)
| IndexCommand (index : Z)
| CharacterModeCommand (state : bool)
| BreakCommand (time : Z)
| PitchCommand (multiplier : number)
| VolumeCommand (multiplier : number)
| RateCommand (multiplier : number)
| PhonemeCommand (ipa : list codepoint) (text : option string)
| OtherSpeechCommand
    (* any other instance of SpeechCommand, LangChangeCommand among them *)
| OtherObject.
    (* anything that is neither a str nor a SpeechCommand *)

(** ** The markup under construction

    [textList] holds the strings the code appends; each is kept with the
    format it was made from, and [render] gives the string itself. *)

Inductive Piece :=
| CloseTag (tag : string)            (* "</%s>" % tag *)
| OpenTag (tag : string)             (* "<%s" % tag *)
| Attr (attr : string) (val : Z)     (* ' %s="%s"' % (attr, val) *)
| OpenEnd                            (* ">" *)
| Lit (s : string)                   (* escaped text, or phoneme fallback text *)
| Bookmark (index : Z)               (* '<Bookmark Mark="%d" />' % index *)
| Silence (time : Z)                 (* '<silence msec="%d" />' % time *)
| Pron (sym : string) (text : string). (* '<pron sym="%s">%s</pron>' *)

Definition DQ : string := String (Ascii.ascii_of_nat 34) EmptyString.

Definition render (p : Piece) : string :=
  match p with
  | CloseTag tag => "</" +:+ tag +:+ ">"
  | OpenTag tag => "<" +:+ tag
  | Attr attr val => " " +:+ attr +:+ "=" +:+ DQ +:+ str_of_int val +:+ DQ
  | OpenEnd => ">"
  | Lit s => s
  | Bookmark index => "<Bookmark Mark=" +:+ DQ +:+ str_of_int index +:+ DQ +:+ " />"
  | Silence time => "<silence msec=" +:+ DQ +:+ str_of_int time +:+ DQ +:+ " />"
  | Pron sym text => "<pron sym=" +:+ DQ +:+ sym +:+ DQ +:+ ">" +:+ text +:+ "</pron>"
  end.

(** ["".join(textList)] *)
Definition markup (textList : list Piece) : string :=
  String.concat "" (render <$> textList).

Definition LT_CHAR : Ascii.ascii := Ascii.ascii_of_nat 60.

(** [item.replace("<", "&lt;")] *)
Fixpoint replace_lt (s : string) : string :=
  match s with
  | EmptyString => EmptyString
  | String c s' =>
      if Ascii.eqb c LT_CHAR then "&lt;" +:+ replace_lt s'
      else String c (replace_lt s')
  end.

(** The locals of [speak] that its loop and [outputTags] share. *)
Record SpeakState := {
  textList : list Piece;
  tags : PyDict.t (PyDict.t Z);
  tagsChanged : bool;
  openedTags : list string;
  logged : list LogRecord
}.

Definition append (ps : list Piece) (st : SpeakState) : SpeakState :=
  {| textList := textList st ++ ps; tags := tags st;
     tagsChanged := tagsChanged st; openedTags := openedTags st;
     logged := logged st |}.

Definition set_tags (tg : PyDict.t (PyDict.t Z)) (st : SpeakState) : SpeakState :=
  {| textList := textList st; tags := tg; tagsChanged := true;
     openedTags := openedTags st; logged := logged st |}.

Definition add_log (r : LogRecord) (st : SpeakState) : SpeakState :=
  {| textList := textList st; tags := tags st;
     tagsChanged := tagsChanged st; openedTags := openedTags st;
     logged := logged st ++ [r] |}.

(** What the second loop of [outputTags] appends for one entry of [tags]. *)
Definition open_pieces (entry : string * PyDict.t Z) : list Piece :=
  OpenTag entry.1 :: ((fun av => Attr av.1 av.2) <$> entry.2) ++ [OpenEnd].

Definition outputTags (st : SpeakState) : SpeakState :=
  if negb (tagsChanged st) then st
  else
    {| textList := textList st
                   ++ (CloseTag <$> reverse (openedTags st))
                   ++ (tags st ≫= open_pieces);
       tags := tags st;
       tagsChanged := false;
       openedTags := PyDict.keys (tags st);
       logged := logged st |}.

(** [try: del tags[k]  except KeyError: pass] *)
Definition try_del (k : string) (tg : PyDict.t (PyDict.t Z))
    : result (PyDict.t (PyDict.t Z)) :=
  try_except (PyDict.del k tg) isKeyError (fun _ => Ok tg).

(** The truth value of [item.text]. *)
Definition text_truthy (text : option string) : bool :=
  match text with
  | Some s => negb (String.eqb s "")
  | None => false
  end.

(** One iteration of [for item in speechSequence]; [pitch], [rate] and
    [volume] are the locals read before the loop. *)
Definition speak_item (self : SynthDriver) (pitch rate volume : Z)
    (st : SpeakState) (item : SpeechItem) : result SpeakState :=
  match item with
  | Str s => Ok (append [Lit (replace_lt s)] (outputTags st))
  | IndexCommand index => Ok (append [Bookmark index] st)
  | CharacterModeCommand state =>
      if state then Ok (set_tags (PyDict.set "spell" [] (tags st)) st)
      else
        tg ← try_del "spell" (tags st);
        Ok (set_tags tg st)
  | BreakCommand time => Ok (append [Silence time] st)
  | PitchCommand multiplier =>
      Ok (set_tags
            (PyDict.set "pitch"
               [("absmiddle", _percentToPitch (py_int (py_mul pitch multiplier)))]
               (tags st)) st)
  | VolumeCommand multiplier =>
      if is_one multiplier then
        tg ← try_del "volume" (tags st);
        Ok (set_tags tg st)
      else
        Ok (set_tags
              (PyDict.set "volume"
                 [("level", py_int (py_mul volume multiplier))] (tags st)) st)
  | RateCommand multiplier =>
      if is_one multiplier then
        tg ← try_del "rate" (tags st);
        Ok (set_tags tg st)
      else
        Ok (set_tags
              (PyDict.set "rate"
                 [("absspeed", _percentToRate (py_int (py_mul rate multiplier)))]
                 (tags st)) st)
  | PhonemeCommand ipa text =>
      try_except
        (sym ← _convertPhoneme self ipa;
         Ok (append [Pron sym (default "" text)] st))
        isLookupError
        (fun _ =>
           let st' := add_log (DEBUGWARNING,
                               "Couldn't convert character in IPA string") st in
           Ok (if text_truthy text then append [Lit (default "" text)] st'
               else st'))
  | OtherSpeechCommand =>
      Ok (add_log (DEBUGWARNING, "Unsupported speech command") st)
  | OtherObject => Ok (add_log (ERROR, "Unknown speech") st)
  end.

Definition speak_init (self : SynthDriver) : SpeakState :=
  {| textList := [];
     tags := PyDict.set "pitch"
               [("absmiddle", _percentToPitch (_pitch self))] [];
     tagsChanged := true;
     openedTags := [];
     logged := [] |}.

Fixpoint speak_loop (self : SynthDriver) (speechSequence : list SpeechItem)
    (st : SpeakState) : result SpeakState :=
  match speechSequence with
  | [] => Ok st
  | item :: rest =>
      st' ← speak_item self (_pitch self) (_get_rate self) (_get_volume self)
              st item;
      speak_loop self rest st'
  end.

(** [tags.clear(); tagsChanged[0] = True; outputTags()] *)
Definition speak_close (st : SpeakState) : SpeakState :=
  outputTags (set_tags [] st).

(** The locals when the loop and the closing flush are done. *)
Definition speak_final (self : SynthDriver) (speechSequence : list SpeechItem)
    : result SpeakState :=
  st ← speak_loop self speechSequence (speak_init self);
  Ok (speak_close st).

Module SpeechVoiceSpeakFlags.
Definition Async : Z := 1.
Definition PurgeBeforeSpeak : Z := 2.
Definition IsXML : Z := 8.
End SpeechVoiceSpeakFlags.

(** The arguments [speak] passes to [tts.Speak]. *)
Definition speak (self : SynthDriver) (speechSequence : list SpeechItem)
    : result (string * Z) :=
  st ← speak_final self speechSequence;
  Ok (markup (textList st),
      Z.lor SpeechVoiceSpeakFlags.IsXML SpeechVoiceSpeakFlags.Async).

(** ** Audio ducking hooks

    The module-level state of the driver, with a trace of the calls it
    makes into the operating system, NVDAHelper and audioDucking. *)

(** One call of [dllImportTableHooks_hookSingle]. *)
Inductive Replacement := hook_waveOutOpen | hook_waveOutClose.

Record HookCall := {
  targetDll : string;
  importDll : string;
  funcName : string;
  newFunction : Replacement
}.

(** A [FunctionHooker] instance: the call it was made with and its [_hook]. *)
Record FunctionHooker := {
  hooked : HookCall;
  _hook : Z
}.

(** An [audioDucking.AudioDucker]: which one, and what [enable()] answered. *)
Record AudioDucker := {
  serial : nat;
  enabled : bool
}.

Inductive Event :=
| EvLog (r : LogRecord)
| EvHookSingle (c : HookCall) (hook : Z)
| EvRealOpen
| EvRealClose (waveOutHandle : Z)
| EvNewDucker (serial : nat)
| EvEnable (serial : nat) (ok : bool).

Record Process := {
  _duckersByHandle : gmap Z AudioDucker;
  _waveOutHooks : list FunctionHooker;
  trace : list Event
}.

Definition is_EvNewDucker (e : Event) : bool :=
  match e with
  | EvNewDucker _ => true
  | _ => false
  end.

Definition is_EvHookSingle (e : Event) : bool :=
  match e with
  | EvHookSingle _ _ => true
  | _ => false
  end.

(** Code that reads and writes [Process] and can raise. The state a raise
    leaves behind is kept. *)
Definition M (A : Type) : Type := Process -> result A * Process.

Definition ret {A} (a : A) : M A := fun p => (Ok a, p).

Definition raise {A} (e : exn) : M A := fun p => (Raise e, p).

Definition bind {A B} (m : M A) (f : A -> M B) : M B := fun p =>
  match m p with
  | (Ok a, p') => f a p'
  | (Raise e, p') => (Raise e, p')
  end.

#[global] Instance M_ret : MRet M := @ret.
#[global] Instance M_bind : MBind M := fun _ _ f m => bind m f.

Definition try_exceptM {A} (body : M A) (catches : exn -> bool)
    (handler : exn -> M A) : M A := fun p =>
  match body p with
  | (Ok a, p') => (Ok a, p')
  | (Raise e, p') => if catches e then handler e p' else (Raise e, p')
  end.

Definition emit (e : Event) : M unit := fun p =>
  (Ok (),
   {| _duckersByHandle := _duckersByHandle p;
      _waveOutHooks := _waveOutHooks p;
      trace := trace p ++ [e] |}).

Definition log (level : LogLevel) (msg : string) : M unit :=
  emit (EvLog (level, msg)).

Definition when (b : bool) (m : M unit) : M unit := if b then m else ret ().

(** What the platform answers to the driver. [hookSingle] sees the trace
    so far, so that its answer may change from call to call. *)
Record Platform := {
  isAudioDuckingSupported : bool;
  sapiPath : string;
    (* os.path.join(os.path.expandvars("$SYSTEMROOT"), "system32", "speech",
       "common", "sapi.dll") *)
  mbcs_encodable : string -> bool;
  dllImportTableHooks_hookSingle : list Event -> HookCall -> Z
}.

(** [s.encode("mbcs")]; the bytes themselves are not used. *)
Definition encode_mbcs (P : Platform) (s : string) : M unit :=
  if mbcs_encodable P s then ret () else raise UnicodeEncodeError.

(** [NVDAHelper.localLib.dllImportTableHooks_hookSingle(...)] *)
Definition call_hookSingle (P : Platform) (c : HookCall) : M Z := fun p =>
  let h := dllImportTableHooks_hookSingle P (trace p) c in
  (Ok h, (emit (EvHookSingle c h) p).2).

(** [FunctionHooker.__init__] *)
Definition FunctionHooker_init (P : Platform) (c : HookCall) : M FunctionHooker :=
  hook ← try_exceptM
            (encode_mbcs P (targetDll c);;
             encode_mbcs P (importDll c);;
             encode_mbcs P (funcName c);;
             call_hookSingle P c)
            isUnicodeEncodeError
            (fun _ =>
               log ERROR "Error encoding FunctionHooker input parameters";;
               ret 0);
  if negb (Z.eqb hook 0) then
    log DEBUG ("Hooked " +:+ funcName c);;
    ret {| hooked := c; _hook := hook |}
  else
    log ERROR ("Could not hook " +:+ funcName c);;
    raise (RuntimeError ("Could not hook " +:+ funcName c)).

(** [_waveOutHooks.append(h)] *)
Definition append_hook (h : FunctionHooker) : M unit := fun p =>
  (Ok (),
   {| _duckersByHandle := _duckersByHandle p;
      _waveOutHooks := _waveOutHooks p ++ [h];
      trace := trace p |}).

Definition open_call (P : Platform) : HookCall :=
  {| targetDll := sapiPath P; importDll := "WINMM.dll";
     funcName := "waveOutOpen"; newFunction := hook_waveOutOpen |}.

Definition close_call (P : Platform) : HookCall :=
  {| targetDll := sapiPath P; importDll := "WINMM.dll";
     funcName := "waveOutClose"; newFunction := hook_waveOutClose |}.

Definition ensureWaveOutHooks (P : Platform) : M unit := fun p =>
  (if bool_decide (_waveOutHooks p = []) && isAudioDuckingSupported P then
     h ← FunctionHooker_init P (open_call P);
     append_hook h;;
     h ← FunctionHooker_init P (close_call P);
     append_hook h
   else ret ()) p.

(** What one call of the real [winmm.waveOutOpen] does: the value it
    returns ([None] when it returns nothing), or the exception it raises. *)
Record OpenEnv := {
  open_isDebug : bool;
  real_waveOutOpen : result (option Z);
  enable_result : bool
}.

(** [x or 0] *)
Definition or_0 (x : option Z) : Z := default 0 x.

(** [_duckersByHandle[h] = d] *)
Definition register (h : Z) (d : AudioDucker) : M unit := fun p =>
  (Ok (),
   {| _duckersByHandle := <[h := d]> (_duckersByHandle p);
      _waveOutHooks := _waveOutHooks p;
      trace := trace p |}).

(** The number of [AudioDucker] objects made so far. *)
Definition duckers_made (p : Process) : nat :=
  length (filter (fun e => is_EvNewDucker e = true) (trace p)).

(** [audioDucking.AudioDucker()]; the object is known by its rank among
    those made so far. [enable] is [d.enable()]. *)
Definition new_AudioDucker : M nat := fun p =>
  (emit (EvNewDucker (duckers_made p));; ret (duckers_made p)) p.

Definition enable (env : OpenEnv) (n : nat) : M bool :=
  emit (EvEnable n (enable_result env));; ret (enable_result env).

(** [windll.winmm.waveOutOpen(...)] *)
Definition call_real_open (env : OpenEnv) : M (option Z) := fun p =>
  (real_waveOutOpen env, (emit EvRealOpen p).2).

(** The hook put over [waveOutOpen]. [pWaveOutHandle] is [None] for a null
    pointer and [Some h] for a pointer to a cell that holds [h] once the
    real function has run; the other arguments are only handed on. *)
Definition waveOutOpen (env : OpenEnv) (pWaveOutHandle : option Z) : M Z :=
  when (open_isDebug env)
    (log DEBUGWARNING "Ducking audio requested for SAPI5 synthdriver");;
  res ← try_exceptM
           (r ← call_real_open env; ret (or_0 r))
           isWindowsError
           (fun e => match e with
                     | WindowsError winerror => ret winerror
                     | _ => raise e
                     end);
  match (if Z.eqb res 0 then pWaveOutHandle else None) with
  | Some h =>
      n ← new_AudioDucker;
      ok ← enable env n;
      when (negb ok) (log WARNING "Ducking audio failed for SAPI5 synthdriver");;
      register h {| serial := n; enabled := ok |}
  | None =>
      log WARNING "Opening wave out failed for SAPI5 synthdriver";;
      log DEBUGWARNING "Win Error"
  end;;
  ret res.

Record CloseEnv := {
  close_isDebug : bool;
  real_waveOutClose : result (option Z)
}.

(** [windll.winmm.waveOutClose(waveOutHandle)] *)
Definition call_real_close (env : CloseEnv) (waveOutHandle : Z) : M (option Z) :=
  fun p => (real_waveOutClose env, (emit (EvRealClose waveOutHandle) p).2).

(** [_duckersByHandle.pop(waveOutHandle, None)], the value dropped *)
Definition pop_ducker (waveOutHandle : Z) : M unit := fun p =>
  (Ok (),
   {| _duckersByHandle := delete waveOutHandle (_duckersByHandle p);
      _waveOutHooks := _waveOutHooks p;
      trace := trace p |}).

(** The body of the hook put over [waveOutClose]; [waveOutHandle] is the
    number the function is called with. *)
Definition waveOutClose (env : CloseEnv) (waveOutHandle : Z) : M Z :=
  when (close_isDebug env)
    (log DEBUGWARNING "End ducking audio requested for SAPI5 synthdriver");;
  res ← try_exceptM
           (r ← call_real_close env waveOutHandle; ret (or_0 r))
           isWindowsError
           (fun e => match e with
                     | WindowsError winerror => ret winerror
                     | _ => raise e
                     end);
  (if Z.eqb res 0 && negb (Z.eqb waveOutHandle 0) then
     pop_ducker waveOutHandle
   else
     log WARNING "Closing wave out failed for SAPI5 synthdriver";;
     log DEBUGWARNING "Res");;
  ret res.

(** A C [long] of Windows: the 32 low bits, read as a signed number. *)
Definition c_long (n : Z) : Z := (n + 2 ^ 31) `mod` 2 ^ 32 - 2 ^ 31.

(** The close hook as its callers run it: [WINFUNCTYPE(c_long, c_long)]
    hands the handle to [waveOutClose] as a C long and the status back as
    one.  The open hook is declared with the types of winmm's own
    [waveOutOpen], and its handle cell holds the handle as it is. *)
Definition waveOutClose_callback (env : CloseEnv) (handle : Z) : M Z :=
  res ← waveOutClose env (c_long handle);
  ret (c_long res).

Definition process0 : Process :=
  {| _duckersByHandle := ∅; _waveOutHooks := []; trace := [] |}.

(** ** Vocabulary of the statements *)

(** The rational a number is equal to. *)
Definition value (x : number) : Q :=
  match x with
  | PyInt z => inject_Z z
  | PyFloat num scale => num # Z.to_pos (2 ^ Z.of_N scale)
  end.

(** The integer part of a rational, toward zero. *)
Definition trunc (x : Q) : Z := Z.quot (Qnum x) (Z.pos (Qden x)).

(** Half the distance from 1 to the next double, [2^-53]: the largest
    relative error of one rounding. *)
Definition unit_roundoff : Q := 1 # 9007199254740992.

(** [n] is what [int(base * multiplier)] has to be: the integer part of
    the product when the product is exact (two [int]s, or a float product
    that fits in 53 bits), and otherwise the integer part of a double that
    is away from the product by one rounding at most. *)
Definition int_of_product (base : Z) (multiplier : number) (n : Z) : Prop :=
  let x := (inject_Z base * value multiplier)%Q in
  match multiplier with
  | PyInt _ => n = trunc x
  | PyFloat num _ =>
      (Z.abs (base * num) < 2 ^ 53 → n = trunc x)
      ∧ (Z.abs base < 2 ^ 53 →
         (Qabs (inject_Z n - x) < 1 + Qabs x * unit_roundoff)%Q)
  end.

(** The double nearest to three tenths, Python's [0.3]. *)
Definition three_tenths : number := PyFloat 5404319552844595 54.

(** A driver with default settings and a US English voice. *)
Definition us_english_driver : SynthDriver :=
  {| _pitch := 50; tts_rate := 0; tts_volume := 100; voice_language := "409" |}.

(** What the [except LookupError] branch of [speak] leaves: a log record,
    and the fallback text when there is one. *)
Definition phoneme_fallback (st : SpeakState) (text : option string) : SpeakState :=
  let st' := add_log (DEBUGWARNING, "Couldn't convert character in IPA string") st in
  match text with
  | Some s => if String.eqb s "" then st' else append [Lit s] st'
  | None => st'
  end.

(** The tags in a list of pieces, in order: which are opened, which closed. *)
Inductive TagEvent :=
| Open (tag : string)
| Close (tag : string).

Definition tag_event (p : Piece) : option TagEvent :=
  match p with
  | OpenTag tag => Some (Open tag)
  | CloseTag tag => Some (Close tag)
  | _ => None
  end.

Definition tag_events (ps : list Piece) : list TagEvent := omap tag_event ps.

Definition opened_name (e : TagEvent) : option string :=
  match e with
  | Open tag => Some tag
  | Close _ => None
  end.

Definition closed_name (e : TagEvent) : option string :=
  match e with
  | Close tag => Some tag
  | Open _ => None
  end.

(** Reading the events against a stack of open tags: an open pushes, a
    close must name the tag on top and pops it. [None] when a close does
    not match. *)
Fixpoint run_stack (evs : list TagEvent) (stack : list string)
    : option (list string) :=
  match evs with
  | [] => Some stack
  | Open tag :: evs' => run_stack evs' (tag :: stack)
  | Close tag :: evs' =>
      match stack with
      | top :: stack' =>
          if String.eqb tag top then run_stack evs' stack' else None
      | [] => None
      end
  end.

(** The tags one flush opens, followed by their closes, which the next
    flush writes. *)
Definition flush_block (l : list string) : list TagEvent :=
  (Open <$> l) ++ (Close <$> reverse l).

(** The commands after which [speak] sets [tagsChanged]. *)
Definition changes_tags (item : SpeechItem) : bool :=
  match item with
  | CharacterModeCommand _ | PitchCommand _ | VolumeCommand _
  | RateCommand _ => true
  | _ => false
  end.

(** The commands that put the key [tag] into [tags]. *)
Definition sets_tag (tag : string) (item : SpeechItem) : bool :=
  match item with
  | CharacterModeCommand state => state && String.eqb tag "spell"
  | PitchCommand _ => String.eqb tag "pitch"
  | VolumeCommand multiplier => negb (is_one multiplier) && String.eqb tag "volume"
  | RateCommand multiplier => negb (is_one multiplier) && String.eqb tag "rate"
  | _ => false
  end.

(** The events so far are whole blocks, then the tags now open. *)
Definition blocks_then_open (st : SpeakState) : Prop :=
  ∃ flushes : list (list string),
    tag_events (textList st)
    = (flushes ≫= flush_block) ++ (Open <$> openedTags st).

(** From [st] to [st'], with [tag] not in [tags] at the end: nothing
    appended opens [tag], and if [tag] was not open in [st], nothing
    appended closes it and it is not open in [st']. *)
Definition absent_step (tag : string) (st st' : SpeakState) : Prop :=
  ∃ ps : list Piece,
    textList st' = textList st ++ ps
    ∧ (OpenTag tag ∉ ps)
    ∧ (tag ∉ PyDict.keys (tags st'))
    ∧ (tag ∉ openedTags st → (CloseTag tag ∉ ps) ∧ (tag ∉ openedTags st')).

(** The status a hook hands back for what the real function did: its
    return value, or the code of the [WindowsError] it raised. Any other
    exception is not caught. *)
Definition real_status (real : result (option Z)) : result Z :=
  match real with
  | Ok ret => Ok (or_0 ret)
  | Raise (WindowsError winerror) => Ok winerror
  | Raise e => Raise e
  end.

Definition is_EvLog (e : Event) : bool :=
  match e with
  | EvLog _ => true
  | _ => false
  end.

(** The calls of [dllImportTableHooks_hookSingle] in a trace. *)
Definition hookSingle_calls (tr : list Event) : list Event :=
  filter (fun e => is_EvHookSingle e = true) tr.

(** An environment in which the real open returns 0, and one in which the
    real close does. *)
Definition open_ok (enable_ok : bool) : OpenEnv :=
  {| open_isDebug := false; real_waveOutOpen := Ok (Some 0);
     enable_result := enable_ok |}.

Definition close_ok : CloseEnv :=
  {| close_isDebug := false; real_waveOutClose := Ok (Some 0) |}.

(** A platform that supports ducking and on which no hook can be set, and
    one on which only the first attempt fails. *)
Definition platform_no_hook : Platform :=
  {| isAudioDuckingSupported := true;
     sapiPath := "C:\Windows\system32\speech\common\sapi.dll";
     mbcs_encodable := fun _ => true;
     dllImportTableHooks_hookSingle := fun _ _ => 0 |}.

Definition platform_hook_later : Platform :=
  {| isAudioDuckingSupported := true;
     sapiPath := "C:\Windows\system32\speech\common\sapi.dll";
     mbcs_encodable := fun _ => true;
     dllImportTableHooks_hookSingle := fun tr _ =>
       match hookSingle_calls tr with
       | [] => 0
       | _ :: _ => 7
       end |}.

Definition platform_ok : Platform :=
  {| isAudioDuckingSupported := true;
     sapiPath := "C:\Windows\system32\speech\common\sapi.dll";
     mbcs_encodable := fun _ => true;
     dllImportTableHooks_hookSingle := fun _ _ => 7 |}.

(** A platform on which the two hooks of the driver can be set, the one
    over [waveOutClose] after the one over [waveOutOpen], and nothing
    else: no other name can be encoded, and no other call is answered
    with a hook. *)
Definition platform_picky : Platform :=
  {| isAudioDuckingSupported := true;
     sapiPath := "C:\Windows\system32\speech\common\sapi.dll";
     mbcs_encodable := fun s =>
       bool_decide (s ∈ ["C:\Windows\system32\speech\common\sapi.dll";
                         "WINMM.dll"; "waveOutOpen"; "waveOutClose"]);
     dllImportTableHooks_hookSingle := fun tr c =>
       match newFunction c, hookSingle_calls tr with
       | hook_waveOutOpen, [] => 7
       | hook_waveOutClose, [_] => 8
       | _, _ => 0
       end |}.

(** What a hook logs on entry when [audioDucking._isDebug()] holds. *)
Definition debug_log (isDebug : bool) (msg : string) : list Event :=
  if isDebug then [EvLog (DEBUGWARNING, msg)] else [].

(** [p] with [evs] added to its trace. *)
Definition traced (evs : list Event) (p : Process) : Process :=
  {| _duckersByHandle := _duckersByHandle p;
     _waveOutHooks := _waveOutHooks p;
     trace := trace p ++ evs |}.

(** [p] with another registry. *)
Definition with_duckers (m : gmap Z AudioDucker) (p : Process) : Process :=
  {| _duckersByHandle := m;
     _waveOutHooks := _waveOutHooks p;
     trace := trace p |}.

(** ** The rest of the driver's settings *)

(** [self.tts.Rate = self._percentToRate(rate)] *)
Definition _set_rate (rate : Z) (self : SynthDriver) : SynthDriver :=
  {| _pitch := _pitch self; tts_rate := _percentToRate rate;
     tts_volume := tts_volume self; voice_language := voice_language self |}.

(** [self._pitch = value] *)
Definition _set_pitch (value : Z) (self : SynthDriver) : SynthDriver :=
  {| _pitch := value; tts_rate := tts_rate self;
     tts_volume := tts_volume self; voice_language := voice_language self |}.

(** ** More vocabulary for [speak] *)

(** The names [speak] uses as keys of [tags]. *)
Definition TAG_NAMES : list string := ["pitch"; "spell"; "volume"; "rate"].

Definition is_Str (item : SpeechItem) : bool :=
  match item with
  | Str _ => true
  | _ => false
  end.

Definition is_PitchCommand (item : SpeechItem) : bool :=
  match item with
  | PitchCommand _ => true
  | _ => false
  end.

(** The items [speak] only logs. *)
Definition is_ignored (item : SpeechItem) : bool :=
  match item with
  | OtherSpeechCommand | OtherObject => true
  | _ => false
  end.

Definition lit_of (p : Piece) : option string :=
  match p with
  | Lit s => Some s
  | _ => None
  end.

(** The literal text an item should leave in the markup: a string with
    [<] escaped, or the fallback text of a phoneme command that cannot be
    converted. *)
Definition literal_of (self : SynthDriver) (item : SpeechItem) : option string :=
  match item with
  | Str s => Some (replace_lt s)
  | PhonemeCommand ipa text =>
      match _convertPhoneme self ipa, text with
      | Raise _, Some s => if String.eqb s "" then None else Some s
      | _, _ => None
      end
  | _ => None
  end.

(** Two states of [speak] that differ at most in what was logged. *)
Definition same_output (st st' : SpeakState) : Prop :=
  textList st = textList st'
  ∧ tags st = tags st'
  ∧ tagsChanged st = tagsChanged st'
  ∧ openedTags st = openedTags st'.

(** What holds of the locals of [speak] all along: [pitch] is the first
    key of [tags], no key is there twice, every key is one of the four
    names, and when [tagsChanged] is not set the open tags are the keys. *)
(** The pieces written outside a flush: text, and the elements that are
    whole in one piece. *)
Definition outside_flush (p : Piece) : bool :=
  match p with
  | Lit _ | Bookmark _ | Silence _ | Pron _ _ => true
  | CloseTag _ | OpenTag _ | Attr _ _ | OpenEnd => false
  end.

Definition in_step (st : SpeakState) : Prop :=
  (∃ v tl, tags st = ("pitch", [("absmiddle", v)]) :: tl)
  ∧ PyDict.wf (tags st)
  ∧ (∀ k, k ∈ PyDict.keys (tags st) → k ∈ TAG_NAMES)
  ∧ (tagsChanged st = false → openedTags st = PyDict.keys (tags st)).

(** ** More of the hooks *)

(** [FunctionHooker.__del__]: the hooks it hands to
    [dllImportTableHooks_unhookSingle]. *)
Definition FunctionHooker_del (h : FunctionHooker) : list Z :=
  if negb (Z.eqb (_hook h) 0) then [_hook h] else [].

(** Whether the three names of a call can be encoded. *)
Definition encodable (P : Platform) (c : HookCall) : bool :=
  mbcs_encodable P (targetDll c) && mbcs_encodable P (importDll c)
  && mbcs_encodable P (funcName c).

(** The calls that reach the module state, in any order and number. *)
Inductive HookOp :=
| OpEnsure (P : Platform)
| OpOpen (env : OpenEnv) (pWaveOutHandle : option Z)
| OpClose (env : CloseEnv) (waveOutHandle : Z).

Definition run_op (p : Process) (op : HookOp) : Process :=
  match op with
  | OpEnsure P => (ensureWaveOutHooks P p).2
  | OpOpen env pWaveOutHandle => (waveOutOpen env pWaveOutHandle p).2
  | OpClose env waveOutHandle => (waveOutClose env waveOutHandle p).2
  end.

Definition run_ops (ops : list HookOp) (p : Process) : Process :=
  foldl run_op p ops.

(** Every ducker of the registry was made by an open, and no ducker is
    stored under two handles. *)
Definition registry_ok (p : Process) : Prop :=
  ∀ h d, _duckersByHandle p !! h = Some d →
    (serial d < duckers_made p)%nat
    ∧ ∀ h' d', _duckersByHandle p !! h' = Some d' →
               serial d' = serial d → h' = h.

(** ** The voices of the engine

    A voice token is a COM object; reading it can raise. What each read
    gives is part of the token: [v[i].Id], [v[i].GetDescription()], and
    the number [int(v[i].getattribute('language').split(';')[0], 16)].
    [locale.windows_locale] is a table of the Python library and is
    taken as given. *)

Definition COMError : exn := OtherError "COMError".
Definition UnboundLocalError : exn := OtherError "UnboundLocalError".

Definition isCOMError (e : exn) : bool :=
  match e with
  | OtherError name => String.eqb name "COMError"
  | _ => false
  end.

Record VoiceToken := {
  token_Id : result string;
  token_description : result string;
  token_language : result Z
}.

(** [VoiceInfo(ID, name, language)] *)
Record VoiceInfo := {
  voice_id : string;
  displayName : string;
  language : option string
}.

(** The locals [ID], [name] and [language] of [_getAvailableVoices];
    [None] is a local not yet bound. *)
Record VoiceLocals := {
  local_ID : option string;
  local_name : option string;
  local_language : option (option string)
}.

(** The body of the outer [try]. A local keeps what was bound to it when
    a later read raises. *)
Definition read_voice (windows_locale : gmap Z string) (tok : VoiceToken)
    (loc : VoiceLocals) : result unit * VoiceLocals :=
  match token_Id tok with
  | Raise e => (Raise e, loc)
  | Ok ID =>
      let loc1 := {| local_ID := Some ID; local_name := local_name loc;
                     local_language := local_language loc |} in
      match token_description tok with
      | Raise e => (Raise e, loc1)
      | Ok name =>
          let loc2 := {| local_ID := Some ID; local_name := Some name;
                         local_language := local_language loc |} in
          let bound l := {| local_ID := Some ID; local_name := Some name;
                            local_language := Some l |} in
          match token_language tok with
          | Ok lcid =>
              (* a missing key raises KeyError, which is caught *)
              (Ok (), bound (windows_locale !! lcid))
          | Raise e =>
              if isKeyError e then (Ok (), bound None) else (Raise e, loc2)
          end
      end
  end.

(** [voices[ID] = VoiceInfo(ID, name, language)] *)
Definition add_voice (loc : VoiceLocals) (voices : PyDict.t VoiceInfo)
    : result (PyDict.t VoiceInfo) :=
  match local_ID loc, local_name loc, local_language loc with
  | Some ID, Some name, Some lang =>
      Ok (PyDict.set ID {| voice_id := ID; displayName := name;
                           language := lang |} voices)
  | _, _, _ => Raise UnboundLocalError
  end.

(** The loop of [_getAvailableVoices], with what it has logged. *)
Fixpoint _getAvailableVoices_loop (windows_locale : gmap Z string)
    (v : list VoiceToken) (loc : VoiceLocals) (voices : PyDict.t VoiceInfo)
    (logged : list LogRecord)
    : result (PyDict.t VoiceInfo) * list LogRecord :=
  match v with
  | [] => (Ok voices, logged)
  | tok :: rest =>
      let r := read_voice windows_locale tok loc in
      match r.1 with
      | Raise e =>
          if isCOMError e then
            let logged' :=
              logged ++ [(WARNING, "Could not get the voice info. Skipping...")] in
            match add_voice r.2 voices with
            | Ok voices' =>
                _getAvailableVoices_loop windows_locale rest r.2 voices' logged'
            | Raise e' => (Raise e', logged')
            end
          else (Raise e, logged)
      | Ok _ =>
          match add_voice r.2 voices with
          | Ok voices' =>
              _getAvailableVoices_loop windows_locale rest r.2 voices' logged
          | Raise e' => (Raise e', logged)
          end
      end
  end.

Definition _getAvailableVoices (windows_locale : gmap Z string)
    (v : list VoiceToken) : result (PyDict.t VoiceInfo) * list LogRecord :=
  _getAvailableVoices_loop windows_locale v
    {| local_ID := None; local_name := None; local_language := None |} [] [].

(** A token every read of which succeeds, and the entry it stands for. *)
Definition readable (tok : VoiceToken) : Prop :=
  ∃ ID name lcid,
    token_Id tok = Ok ID ∧ token_description tok = Ok name
    ∧ token_language tok = Ok lcid.

Definition voice_of (windows_locale : gmap Z string) (tok : VoiceToken)
    : option VoiceInfo :=
  match token_Id tok, token_description tok, token_language tok with
  | Ok ID, Ok name, Ok lcid =>
      Some {| voice_id := ID; displayName := name;
              language := windows_locale !! lcid |}
  | _, _, _ => None
  end.

Definition locals_of (info : VoiceInfo) : VoiceLocals :=
  {| local_ID := Some (voice_id info); local_name := Some (displayName info);
     local_language := Some (language info) |}.

(** What a readable token does to [voices] and to the locals. *)
Definition enter_voice (windows_locale : gmap Z string)
    (voices : PyDict.t VoiceInfo) (tok : VoiceToken) : PyDict.t VoiceInfo :=
  match voice_of windows_locale tok with
  | Some info => PyDict.set (voice_id info) info voices
  | None => voices
  end.

Definition locals_after (windows_locale : gmap Z string)
    (loc : VoiceLocals) (tok : VoiceToken) : VoiceLocals :=
  match voice_of windows_locale tok with
  | Some info => locals_of info
  | None => loc
  end.

Definition no_locals : VoiceLocals :=
  {| local_ID := None; local_name := None; local_language := None |}.

Definition skipping_warning : LogRecord :=
  (WARNING, "Could not get the voice info. Skipping...").

(** * Properties *)

(** ** Dictionaries *)

Section DictFacts.
Context {V : Type}.
Implicit Types (d : PyDict.t V) (k : string) (v : V).

Lemma keys_cons k v d : PyDict.keys ((k, v) :: d) = k :: PyDict.keys d.
Proof. reflexivity. Qed.

Lemma keys_set k v d j :
  j ∈ PyDict.keys (PyDict.set k v d) ↔ j = k ∨ j ∈ PyDict.keys d.
Proof.
  induction d as [|[k' v'] d IH]; simpl.
  - rewrite keys_cons, elem_of_cons. tauto.
  - destruct (String.eqb_spec k k') as [->|Hne];
      rewrite !keys_cons, !elem_of_cons; [|rewrite IH]; tauto.
Qed.

Lemma keys_remove_subseteq k d j :
  j ∈ PyDict.keys (PyDict.remove k d) → j ∈ PyDict.keys d.
Proof.
  induction d as [|[k' v'] d IH]; simpl; [done|].
  destruct (String.eqb_spec k k');
    rewrite !keys_cons, !elem_of_cons; tauto.
Qed.

Lemma get_None k d : PyDict.get k d = None ↔ k ∉ PyDict.keys d.
Proof.
  induction d as [|[k' v'] d IH]; simpl.
  - split; [intros _; apply not_elem_of_nil | done].
  - rewrite keys_cons, not_elem_of_cons.
    destruct (String.eqb_spec k k') as [->|Hne]; [|rewrite IH]; intuition congruence.
Qed.

Lemma remove_absent k d : k ∉ PyDict.keys d → PyDict.remove k d = d.
Proof.
  induction d as [|[k' v'] d IH]; simpl; [done|].
  rewrite keys_cons, not_elem_of_cons. intros [Hne Hk].
  destruct (String.eqb_spec k k'); [done|]. f_equal. by apply IH.
Qed.

Lemma keys_remove_wf k d :
  PyDict.wf d → k ∉ PyDict.keys (PyDict.remove k d).
Proof.
  unfold PyDict.wf. induction d as [|[k' v'] d IH]; simpl.
  - intros _. apply not_elem_of_nil.
  - rewrite keys_cons. intros [Hk' Hd]%NoDup_cons.
    destruct (String.eqb_spec k k') as [->|Hne]; [done|].
    rewrite keys_cons. apply not_elem_of_cons. split; [done|]. by apply IH.
Qed.

Lemma wf_set k v d : PyDict.wf d → PyDict.wf (PyDict.set k v d).
Proof.
  unfold PyDict.wf. induction d as [|[k' v'] d IH]; simpl.
  - intros _. apply NoDup_singleton.
  - rewrite keys_cons. intros [Hk' Hd]%NoDup_cons.
    destruct (String.eqb_spec k k') as [->|Hne]; rewrite keys_cons.
    + by apply NoDup_cons.
    + apply NoDup_cons. split; [|by apply IH].
      intros [->|Hin]%keys_set; [done|]. by apply Hk'.
Qed.

Lemma wf_remove k d : PyDict.wf d → PyDict.wf (PyDict.remove k d).
Proof.
  unfold PyDict.wf. induction d as [|[k' v'] d IH]; simpl; [done|].
  rewrite keys_cons. intros [Hk' Hd]%NoDup_cons.
  destruct (String.eqb_spec k k') as [->|Hne]; [done|].
  rewrite keys_cons. apply NoDup_cons. split; [|by apply IH].
  intros Hin%keys_remove_subseteq. by apply Hk'.
Qed.

Lemma get_set_eq k v d : PyDict.get k (PyDict.set k v d) = Some v.
Proof.
  induction d as [|[k' v'] d IH]; simpl.
  - by rewrite String.eqb_refl.
  - destruct (String.eqb_spec k k') as [->|Hne]; simpl.
    + by rewrite String.eqb_refl.
    + by destruct (String.eqb_spec k k').
Qed.

(** Setting a key and deleting it again gives what deleting alone gives. *)
Lemma remove_set k v d :
  PyDict.remove k (PyDict.set k v d) = PyDict.remove k d.
Proof.
  induction d as [|[k' v'] d IH]; simpl.
  - by rewrite String.eqb_refl.
  - destruct (String.eqb_spec k k') as [->|Hne]; simpl.
    + by rewrite String.eqb_refl.
    + destruct (String.eqb_spec k k'); [done|]. by f_equal.
Qed.
End DictFacts.

(** [try_del] never raises, and removes the key. *)
Lemma try_del_ok k tg : try_del k tg = Ok (PyDict.remove k tg).
Proof.
  unfold try_del, PyDict.del, try_except.
  destruct (PyDict.get k tg) eqn:Hget; [done|]. simpl.
  apply get_None in Hget. by rewrite remove_absent.
Qed.

(** ** Percent conversions *)

(** C6: [_percentToPitch(p)] is [p // 2 - 25] and [_percentToRate(p)] is
    [(p - 50) // 5] for every percent [p], the division rounding down;
    so [_percentToPitch(50) = 0], [_percentToRate(50) = 0] and
    [_percentToRate(100) = 10]. *)
Theorem percent_conversions (p : Z) :
  _percentToPitch p = p `div` 2 - 25
  ∧ _percentToRate p = (p - 50) `div` 5
  ∧ 2 * (_percentToPitch p + 25) ≤ p < 2 * (_percentToPitch p + 25) + 2
  ∧ 5 * _percentToRate p ≤ p - 50 < 5 * _percentToRate p + 5
  ∧ _percentToPitch 50 = 0
  ∧ _percentToRate 50 = 0
  ∧ _percentToRate 100 = 10.
Proof.
  unfold _percentToPitch, _percentToRate.
  repeat split; try reflexivity.
  - pose proof (Z.mul_div_le p 2). lia.
  - pose proof (Z.mul_succ_div_gt p 2). lia.
  - pose proof (Z.mul_div_le (p - 50) 5). lia.
  - pose proof (Z.mul_succ_div_gt (p - 50) 5). lia.
Qed.

(** ** Phoneme conversion *)

Lemma bind_Ok {A B} (a : A) (f : A → result B) : (Ok a ≫= f) = f a.
Proof. reflexivity. Qed.

Lemma append_assoc (a b c : string) : (a +:+ b) +:+ c = a +:+ b +:+ c.
Proof.
  induction a as [|x a IH]; [done|].
  change (String x ((a +:+ b) +:+ c) = String x (a +:+ b +:+ c)).
  by rewrite IH.
Qed.

Lemma join_snoc sep l x :
  join sep (l ++ [x]) =
    match l with
    | [] => x
    | _ :: _ => join sep l +:+ sep +:+ x
    end.
Proof.
  induction l as [|y l IH]; [done|].
  destruct l as [|z l]; [done|].
  change (join sep ((y :: z :: l) ++ [x]))
    with (y +:+ sep +:+ join sep ((z :: l) ++ [x])).
  rewrite IH.
  change (join sep (y :: z :: l)) with (y +:+ sep +:+ join sep (z :: l)).
  by rewrite !append_assoc.
Qed.

Lemma _convertPhoneme_loop_app ipa1 ipa2 out outAfter :
  _convertPhoneme_loop (ipa1 ++ ipa2) out outAfter =
    r ← _convertPhoneme_loop ipa1 out outAfter;
    _convertPhoneme_loop ipa2 r.1 r.2.
Proof.
  revert out outAfter. induction ipa1 as [|c ipa1 IH]; intros out outAfter.
  - done.
  - simpl. destruct (N.eqb c STRESS); [apply IH|].
    destruct (IPA_TO_SAPI c); [|done].
    destruct outAfter; apply IH.
Qed.

(** Stress marks at the end only set [outAfter]. *)
Lemma _convertPhoneme_loop_stress n out outAfter :
  _convertPhoneme_loop (STRESS :: replicate n STRESS) out outAfter
  = Ok (out, Some "1").
Proof.
  revert outAfter. induction n as [|n IH]; intros outAfter; [done|].
  change (_convertPhoneme_loop (STRESS :: replicate (S n) STRESS) out outAfter)
    with (_convertPhoneme_loop (STRESS :: replicate n STRESS) out (Some "1")).
  apply IH.
Qed.

(** The loop raises nothing but [KeyError]. *)
Lemma _convertPhoneme_loop_raises ipa out outAfter e :
  _convertPhoneme_loop ipa out outAfter = Raise e → e = KeyError.
Proof.
  revert out outAfter. induction ipa as [|c ipa IH]; intros out outAfter; simpl.
  - done.
  - destruct (N.eqb c STRESS); [apply IH|].
    destruct (IPA_TO_SAPI c); [|congruence].
    destruct outAfter; apply IH.
Qed.

(** A symbol that is neither the stress mark nor in the table stops it. *)
Lemma _convertPhoneme_loop_unknown ipa out outAfter c :
  c ∈ ipa → c ≠ STRESS → IPA_TO_SAPI c = None →
  _convertPhoneme_loop ipa out outAfter = Raise KeyError.
Proof.
  intros Hin Hc Hnone. revert out outAfter.
  induction ipa as [|c' ipa IH]; intros out outAfter.
  - by apply elem_of_nil in Hin.
  - simpl. destruct (N.eqb_spec c' STRESS) as [->|Hne].
    + apply IH. apply elem_of_cons in Hin as [?|?]; done.
    + destruct (IPA_TO_SAPI c') eqn:Hc'.
      * apply elem_of_cons in Hin as [->|Hin]; [congruence|].
        destruct outAfter; by apply IH.
      * done.
Qed.

Lemma _convertPhoneme_raises self ipa e :
  _convertPhoneme self ipa = Raise e → isLookupError e = true.
Proof.
  unfold _convertPhoneme, _convertPhoneme_tokens.
  destruct (negb _); simpl; [by intros [= <-]|].
  destruct (_convertPhoneme_loop ipa [] None) as [[out [a|]]|e'] eqn:Hloop;
    simpl; try done.
  intros [= <-]. by rewrite (_convertPhoneme_loop_raises _ _ _ _ Hloop).
Qed.

(** C10: a stress mark with no translatable symbol after it, as at the
    end of the IPA string, is not dropped: ["1"] is the last token of the
    converted string, separated by a space from what precedes it. *)
Theorem trailing_stress_kept (self : SynthDriver) (pre : list codepoint)
    (n : nat) (out : list string) (outAfter : option string) :
  voice_language self = "409" →
  _convertPhoneme_loop pre [] None = Ok (out, outAfter) →
  _convertPhoneme_tokens self (pre ++ STRESS :: replicate n STRESS)
    = Ok (out ++ ["1"])
  ∧ _convertPhoneme self (pre ++ STRESS :: replicate n STRESS)
    = Ok (match out with
          | [] => "1"
          | _ :: _ => join " " out +:+ " " +:+ "1"
          end).
Proof.
  intros Hlang Hpre.
  assert (_convertPhoneme_tokens self (pre ++ STRESS :: replicate n STRESS)
          = Ok (out ++ ["1"])) as Htok.
  { unfold _convertPhoneme_tokens. rewrite Hlang.
    change (negb ("409" =? "409")%string) with false. cbv iota.
    by rewrite _convertPhoneme_loop_app, Hpre, !bind_Ok,
      _convertPhoneme_loop_stress, bind_Ok. }
  split; [done|].
  unfold _convertPhoneme. by rewrite Htok, bind_Ok, join_snoc.
Qed.

Lemma trailing_stress_kept_witness :
  _convertPhoneme_tokens us_english_driver ([THETA; LATIN_S] ++ STRESS :: replicate 1 STRESS)
    = Ok (["th"; "s"] ++ ["1"])
  ∧ _convertPhoneme us_english_driver ([THETA; LATIN_S] ++ STRESS :: replicate 1 STRESS)
    = Ok "th s 1".
Proof.
  exact (trailing_stress_kept us_english_driver [THETA; LATIN_S] 1
           ["th"; "s"] None eq_refl eq_refl).
Defined.

(** ** The loop of [speak] never raises *)

Lemma speak_item_phoneme_raise self pitch rate volume st ipa text e :
  _convertPhoneme self ipa = Raise e →
  speak_item self pitch rate volume st (PhonemeCommand ipa text)
  = Ok (phoneme_fallback st text).
Proof.
  intros Hraise. unfold speak_item, try_except. rewrite Hraise.
  cbn [mbind result_bind]. rewrite (_convertPhoneme_raises _ _ _ Hraise).
  unfold phoneme_fallback, text_truthy.
  destruct text as [s|]; [|done]. simpl. by destruct (String.eqb s "").
Qed.

Lemma speak_item_phoneme_ok self pitch rate volume st ipa text sym :
  _convertPhoneme self ipa = Ok sym →
  speak_item self pitch rate volume st (PhonemeCommand ipa text)
  = Ok (append [Pron sym (default "" text)] st).
Proof. intros Hok. unfold speak_item. by rewrite Hok. Qed.

Lemma speak_item_ok self pitch rate volume st item :
  ∃ st', speak_item self pitch rate volume st item = Ok st'.
Proof.
  destruct item as [s|i|[|]|t|m|m|m|ipa text| |];
    try (simpl; eauto; fail).
  - simpl. rewrite try_del_ok. simpl. eauto.
  - simpl. destruct (is_one m); [rewrite try_del_ok|]; simpl; eauto.
  - simpl. destruct (is_one m); [rewrite try_del_ok|]; simpl; eauto.
  - destruct (_convertPhoneme self ipa) as [sym|e] eqn:Hconv.
    + erewrite speak_item_phoneme_ok; eauto.
    + erewrite speak_item_phoneme_raise; eauto.
Qed.

Lemma speak_loop_ok self speechSequence st :
  ∃ st', speak_loop self speechSequence st = Ok st'.
Proof.
  revert st. induction speechSequence as [|item rest IH]; intros st; simpl.
  - eauto.
  - destruct (speak_item_ok self (_pitch self) (_get_rate self)
                (_get_volume self) st item) as [st1 ->].
    rewrite bind_Ok. apply IH.
Qed.

Lemma speak_loop_app self seq1 seq2 st :
  speak_loop self (seq1 ++ seq2) st =
    st' ← speak_loop self seq1 st; speak_loop self seq2 st'.
Proof.
  revert st. induction seq1 as [|item seq1 IH]; intros st; simpl; [done|].
  destruct (speak_item _ _ _ _ st item); [|done]. rewrite !bind_Ok. apply IH.
Qed.

Lemma speak_ok self speechSequence :
  ∃ text, speak self speechSequence
          = Ok (text, Z.lor SpeechVoiceSpeakFlags.IsXML
                        SpeechVoiceSpeakFlags.Async).
Proof.
  unfold speak, speak_final.
  destruct (speak_loop_ok self speechSequence (speak_init self)) as [st ->].
  rewrite !bind_Ok. eauto.
Qed.

(** ** Phoneme fallback *)

(** C9, as stated, fails: the stress mark has no entry in [IPA_TO_SAPI],
    and an IPA string that holds it is still converted. *)
Lemma phoneme_stress_counterexample :
  (∃ c, c ∈ [STRESS; LATIN_S] ∧ IPA_TO_SAPI c = None)
  ∧ speak us_english_driver [PhonemeCommand [STRESS; LATIN_S] (Some "cat")]
    = Ok ("<pron sym=" +:+ DQ +:+ "s 1" +:+ DQ +:+ ">cat</pron>", 9)
  ∧ speak us_english_driver [PhonemeCommand [STRESS; LATIN_S] (Some "cat")]
    ≠ Ok ("cat", 9).
Proof.
  split; [|split].
  - exists STRESS. split; [apply list_elem_of_here | reflexivity].
  - reflexivity.
  - discriminate.
Qed.

(** C9, amended: for every phoneme command, if the language of the voice
    is not US English, or the IPA string holds a symbol other than the
    stress mark that has no entry in [IPA_TO_SAPI], [speak] does not
    raise: it appends the fallback text of the command as it is, or
    nothing when there is none. With the fallback text ["cat"], the
    markup of that command alone is ["cat"]. *)
Theorem phoneme_fallback_on_failure (self : SynthDriver)
    (pitch rate volume : Z) (st : SpeakState) (ipa : list codepoint)
    (text : option string) :
  voice_language self ≠ "409"
  ∨ (∃ c, c ∈ ipa ∧ c ≠ STRESS ∧ IPA_TO_SAPI c = None) →
  speak_item self pitch rate volume st (PhonemeCommand ipa text)
    = Ok (phoneme_fallback st text)
  ∧ textList (phoneme_fallback st text)
    = textList st ++ match text with
                     | Some s => if String.eqb s "" then [] else [Lit s]
                     | None => []
                     end
  ∧ speak self [PhonemeCommand ipa (Some "cat")] = Ok ("cat", 9)
  ∧ (∀ before after, ∃ markup,
       speak self (before ++ PhonemeCommand ipa text :: after) = Ok (markup, 9)).
Proof.
  intros Hfail.
  assert (∃ e, _convertPhoneme self ipa = Raise e) as [e Hraise].
  { unfold _convertPhoneme, _convertPhoneme_tokens.
    destruct Hfail as [Hlang|(c & Hin & Hc & Hnone)].
    - apply String.eqb_neq in Hlang. rewrite Hlang. simpl. eauto.
    - destruct (negb _); simpl; [eauto|].
      rewrite (_convertPhoneme_loop_unknown _ _ _ c Hin Hc Hnone). simpl. eauto. }
  split; [|split; [|split]].
  - by apply speak_item_phoneme_raise with e.
  - unfold phoneme_fallback. destruct text as [s|]; simpl.
    + destruct (String.eqb s ""); simpl; [by rewrite app_nil_r|done].
    + by rewrite app_nil_r.
  - unfold speak, speak_final. cbn [speak_loop].
    by rewrite (speak_item_phoneme_raise _ _ _ _ _ _ _ e Hraise).
  - intros before after. apply speak_ok.
Qed.

Lemma phoneme_fallback_on_failure_witness :
  speak_item us_english_driver 50 50 100 (speak_init us_english_driver)
    (PhonemeCommand [LATIN_S; 0x61%N] (Some "cat"))
  = Ok (phoneme_fallback (speak_init us_english_driver) (Some "cat"))
  ∧ speak us_english_driver [PhonemeCommand [LATIN_S; 0x61%N] (Some "cat")]
    = Ok ("cat", 9).
Proof.
  assert (voice_language us_english_driver ≠ "409"
          ∨ (∃ c, c ∈ [LATIN_S; 0x61%N] ∧ c ≠ STRESS ∧ IPA_TO_SAPI c = None))
    as Hfail.
  { right. exists 0x61%N. split; [|split].
    - apply list_elem_of_further, list_elem_of_here.
    - discriminate.
    - reflexivity. }
  destruct (phoneme_fallback_on_failure us_english_driver 50 50 100
              (speak_init us_english_driver) [LATIN_S; 0x61%N] (Some "cat")
              Hfail) as (H1 & _ & H2 & _).
  exact (conj H1 H2).
Defined.

(** ** Tags are balanced *)

Lemma tag_events_app ps1 ps2 :
  tag_events (ps1 ++ ps2) = tag_events ps1 ++ tag_events ps2.
Proof. apply omap_app. Qed.

Lemma tag_events_close l : tag_events (CloseTag <$> l) = Close <$> l.
Proof.
  induction l as [|x l IH]; [done|].
  change (tag_events (CloseTag <$> x :: l))
    with (Close x :: tag_events (CloseTag <$> l)).
  by rewrite IH.
Qed.

Lemma tag_events_attrs (attrs : PyDict.t Z) :
  tag_events ((fun av => Attr av.1 av.2) <$> attrs) = [].
Proof. induction attrs as [|av attrs IH]; [done|]. apply IH. Qed.

Lemma tag_events_open_pieces entry :
  tag_events (open_pieces entry) = [Open entry.1].
Proof.
  unfold open_pieces.
  change (OpenTag entry.1 :: ?l) with ([OpenTag entry.1] ++ l).
  by rewrite !tag_events_app, tag_events_attrs.
Qed.

Lemma tag_events_tags (tg : PyDict.t (PyDict.t Z)) :
  tag_events (tg ≫= open_pieces) = Open <$> PyDict.keys tg.
Proof.
  induction tg as [|entry tg IH]; [done|].
  change ((entry :: tg) ≫= open_pieces)
    with (open_pieces entry ++ (tg ≫= open_pieces)).
  rewrite tag_events_app, tag_events_open_pieces, IH. done.
Qed.

(** What a flush that runs adds to the events. *)
Lemma tag_events_outputTags st :
  tagsChanged st = true →
  tag_events (textList (outputTags st))
  = tag_events (textList st) ++ (Close <$> reverse (openedTags st))
    ++ (Open <$> PyDict.keys (tags st)).
Proof.
  intros Hdirty. unfold outputTags. rewrite Hdirty. simpl.
  by rewrite !tag_events_app, tag_events_close, tag_events_tags.
Qed.

Lemma outputTags_clean st : tagsChanged st = false → outputTags st = st.
Proof. intros Hclean. unfold outputTags. by rewrite Hclean. Qed.

Lemma bind_snoc {A B} (f : A → list B) (l : list A) (x : A) :
  (l ++ [x]) ≫= f = (l ≫= f) ++ f x.
Proof. rewrite bind_app. simpl. by rewrite app_nil_r. Qed.

Lemma blocks_outputTags st :
  blocks_then_open st → blocks_then_open (outputTags st).
Proof.
  intros [flushes Hev]. destruct (tagsChanged st) eqn:Hdirty.
  - exists (flushes ++ [openedTags st]).
    rewrite tag_events_outputTags, Hev, bind_snoc by done.
    unfold outputTags, flush_block. rewrite Hdirty. simpl.
    by rewrite <- !app_assoc.
  - rewrite outputTags_clean by done. by exists flushes.
Qed.

Lemma blocks_append ps st :
  tag_events ps = [] → blocks_then_open st → blocks_then_open (append ps st).
Proof.
  intros Hps [flushes Hev]. exists flushes. simpl.
  by rewrite tag_events_app, Hps, app_nil_r.
Qed.

Lemma blocks_phoneme_fallback st text :
  blocks_then_open st → blocks_then_open (phoneme_fallback st text).
Proof.
  intros Hst. unfold phoneme_fallback.
  destruct text as [s|]; [destruct (String.eqb s "")|]; try done.
  by apply blocks_append.
Qed.

Lemma blocks_speak_item self pitch rate volume st item st' :
  speak_item self pitch rate volume st item = Ok st' →
  blocks_then_open st → blocks_then_open st'.
Proof.
  intros Hstep Hst.
  destruct item as [s|i|[|]|t|m|m|m|ipa text| |].
  - injection Hstep as <-. by apply blocks_append, blocks_outputTags.
  - injection Hstep as <-. by apply blocks_append.
  - injection Hstep as <-. done.
  - simpl in Hstep. rewrite try_del_ok in Hstep. injection Hstep as <-. done.
  - injection Hstep as <-. by apply blocks_append.
  - injection Hstep as <-. done.
  - simpl in Hstep. destruct (is_one m); [rewrite try_del_ok in Hstep|];
      injection Hstep as <-; done.
  - simpl in Hstep. destruct (is_one m); [rewrite try_del_ok in Hstep|];
      injection Hstep as <-; done.
  - destruct (_convertPhoneme self ipa) as [sym|e] eqn:Hconv.
    + rewrite (speak_item_phoneme_ok _ _ _ _ _ _ _ _ Hconv) in Hstep.
      injection Hstep as <-. by apply blocks_append.
    + rewrite (speak_item_phoneme_raise _ _ _ _ _ _ _ _ Hconv) in Hstep.
      injection Hstep as <-. by apply blocks_phoneme_fallback.
  - injection Hstep as <-. done.
  - injection Hstep as <-. done.
Qed.

Lemma blocks_speak_loop self speechSequence st st' :
  speak_loop self speechSequence st = Ok st' →
  blocks_then_open st → blocks_then_open st'.
Proof.
  revert st. induction speechSequence as [|item rest IH]; intros st; simpl.
  - by intros [= <-].
  - destruct (speak_item _ _ _ _ st item) as [st1|] eqn:Hstep; [|done].
    rewrite bind_Ok. intros Hloop Hst.
    eapply IH; [done|]. by eapply blocks_speak_item.
Qed.

(** The closing flush leaves whole blocks and nothing open. *)
Lemma blocks_speak_close st :
  blocks_then_open st →
  openedTags (speak_close st) = []
  ∧ ∃ flushes, tag_events (textList (speak_close st)) = flushes ≫= flush_block.
Proof.
  intros [flushes Hev]. split; [done|].
  exists (flushes ++ [openedTags st]).
  unfold speak_close. rewrite tag_events_outputTags by done. simpl.
  rewrite Hev, bind_snoc. unfold flush_block.
  by rewrite app_nil_r, <- app_assoc.
Qed.

Lemma run_stack_app evs1 evs2 stack :
  run_stack (evs1 ++ evs2) stack
  = run_stack evs1 stack ≫= run_stack evs2.
Proof.
  revert stack. induction evs1 as [|[tag|tag] evs1 IH]; intros stack; simpl.
  - done.
  - apply IH.
  - destruct stack as [|top stack]; [done|].
    destruct (String.eqb tag top); [apply IH|done].
Qed.

Lemma run_stack_opens l stack :
  run_stack (Open <$> l) stack = Some (reverse l ++ stack).
Proof.
  revert stack. induction l as [|x l IH]; intros stack; [done|].
  simpl. rewrite IH, reverse_cons. by rewrite <- app_assoc.
Qed.

Lemma run_stack_closes l stack :
  run_stack (Close <$> l) (l ++ stack) = Some stack.
Proof.
  induction l as [|x l IH]; [done|].
  simpl. by rewrite String.eqb_refl.
Qed.

Lemma run_stack_block l stack : run_stack (flush_block l) stack = Some stack.
Proof.
  unfold flush_block. rewrite run_stack_app, run_stack_opens. simpl.
  apply run_stack_closes.
Qed.

Lemma run_stack_blocks flushes stack :
  run_stack (flushes ≫= flush_block) stack = Some stack.
Proof.
  induction flushes as [|l flushes IH]; [done|].
  change ((l :: flushes) ≫= flush_block)
    with (flush_block l ++ (flushes ≫= flush_block)).
  rewrite run_stack_app, run_stack_block. simpl. apply IH.
Qed.

Lemma opened_names_block l :
  omap opened_name (flush_block l) = l
  ∧ omap closed_name (flush_block l) = reverse l.
Proof.
  unfold flush_block. rewrite !omap_app.
  assert (∀ k : list string,
            omap opened_name (Open <$> k) = k
            ∧ omap closed_name (Open <$> k) = []
            ∧ omap opened_name (Close <$> k) = []
            ∧ omap closed_name (Close <$> k) = k) as Hk.
  { induction k as [|x k (IH1 & IH2 & IH3 & IH4)]; [done|].
    rewrite !fmap_cons. cbn [omap list_omap opened_name closed_name].
    by rewrite IH1, IH2, IH3, IH4. }
  destruct (Hk l) as (-> & -> & _ & _).
  destruct (Hk (reverse l)) as (_ & _ & -> & ->).
  by rewrite app_nil_r.
Qed.

Lemma opened_closed_blocks flushes :
  omap opened_name (flushes ≫= flush_block)
  ≡ₚ omap closed_name (flushes ≫= flush_block).
Proof.
  induction flushes as [|l flushes IH]; [done|].
  change ((l :: flushes) ≫= flush_block)
    with (flush_block l ++ (flushes ≫= flush_block)).
  rewrite !omap_app.
  destruct (opened_names_block l) as [-> ->].
  by rewrite IH, reverse_Permutation.
Qed.

(** In one block, a close of every opened tag comes after its open. *)
Lemma open_closed_in_block l i tag :
  flush_block l !! i = Some (Open tag) →
  ∃ j, (i < j)%nat ∧ flush_block l !! j = Some (Close tag).
Proof.
  unfold flush_block. intros Hi.
  destruct (decide (i < length (Open <$> l))%nat) as [Hlt|Hge].
  - rewrite lookup_app_l in Hi by done.
    rewrite list_lookup_fmap in Hi.
    destruct (l !! i) as [x|] eqn:Hli; [|done]. injection Hi as ->.
    assert (tag ∈ reverse l) as Hin.
    { apply elem_of_reverse, list_elem_of_lookup. eauto. }
    apply list_elem_of_lookup in Hin as [k Hk].
    exists (length (Open <$> l) + k)%nat. split; [lia|].
    rewrite lookup_app_r by lia.
    replace (length (Open <$> l) + k - length (Open <$> l))%nat with k by lia.
    by rewrite list_lookup_fmap, Hk.
  - rewrite lookup_app_r in Hi by lia.
    rewrite list_lookup_fmap in Hi.
    by destruct (reverse l !! _).
Qed.

Lemma open_closed_in_blocks flushes i tag :
  (flushes ≫= flush_block) !! i = Some (Open tag) →
  ∃ j, (i < j)%nat ∧ (flushes ≫= flush_block) !! j = Some (Close tag).
Proof.
  revert i. induction flushes as [|l flushes IH]; intros i; [done|].
  change ((l :: flushes) ≫= flush_block)
    with (flush_block l ++ (flushes ≫= flush_block)).
  intros Hi. destruct (decide (i < length (flush_block l))%nat) as [Hlt|Hge].
  - rewrite lookup_app_l in Hi by done.
    destruct (open_closed_in_block _ _ _ Hi) as (j & Hij & Hj).
    exists j. split; [done|].
    rewrite lookup_app_l; [done|]. by eapply lookup_lt_Some.
  - rewrite lookup_app_r in Hi by lia.
    destruct (IH _ Hi) as (j & Hij & Hj).
    exists (length (flush_block l) + j)%nat. split; [lia|].
    rewrite lookup_app_r by lia.
    by replace (length (flush_block l) + j - length (flush_block l))%nat
      with j by lia.
Qed.

Lemma blocks_speak_init self : blocks_then_open (speak_init self).
Proof. by exists []. Qed.

(** X18: for every speech sequence, the tags that the flushes of
    [speak] write, which are the tags of [tags], are balanced. Those
    pieces of the markup are a run of flushes, each closing the tags of
    the flush before in the reverse of the order they were opened in; so
    every close names the tag opened last and still open, every opened
    tag is closed later, as many tags of each name are closed as are
    opened, and after the flush that ends [speak] no tag is open. Text
    and the elements written outside a flush are not read here. *)
Theorem speak_tags_balanced (self : SynthDriver)
    (speechSequence : list SpeechItem) :
  ∃ st : SpeakState,
    speak_final self speechSequence = Ok st
    ∧ speak self speechSequence
      = Ok (markup (textList st),
            Z.lor SpeechVoiceSpeakFlags.IsXML SpeechVoiceSpeakFlags.Async)
    ∧ openedTags st = []
    ∧ (∃ flushes : list (list string),
         tag_events (textList st) = flushes ≫= flush_block)
    ∧ run_stack (tag_events (textList st)) [] = Some []
    ∧ omap opened_name (tag_events (textList st))
      ≡ₚ omap closed_name (tag_events (textList st))
    ∧ (∀ i tag,
         tag_events (textList st) !! i = Some (Open tag) →
         ∃ j, (i < j)%nat ∧ tag_events (textList st) !! j = Some (Close tag)).
Proof.
  destruct (speak_loop_ok self speechSequence (speak_init self)) as [st Hloop].
  pose proof (blocks_speak_loop _ _ _ _ Hloop (blocks_speak_init self)) as Hst.
  destruct (blocks_speak_close st Hst) as (Hopen & flushes & Hev).
  exists (speak_close st).
  assert (speak_final self speechSequence = Ok (speak_close st)) as Hfinal.
  { unfold speak_final. by rewrite Hloop. }
  split; [done|]. split; [unfold speak; by rewrite Hfinal|].
  split; [done|]. split; [by exists flushes|].
  rewrite Hev. split; [apply run_stack_blocks|].
  split; [apply opened_closed_blocks|].
  intros i tag. apply open_closed_in_blocks.
Qed.

(** C1: the text of a phoneme command reaches the markup as it is,
    where the text of a string item has its [<] escaped. With the
    fallback text [<b>] of a phoneme that cannot be converted, the
    markup of [speak] is the lone opening tag [<b>], or holds it between
    the texts of a [pitch] element that is closed over it; the same text
    reaches the markup inside the [pron] element of a phoneme that can
    be converted. The string item [<b>] is written [&lt;b>]. *)
Theorem speak_phoneme_text_not_escaped :
  speak us_english_driver [PhonemeCommand [0x61%N] (Some "<b>")]
  = Ok ("<b>", 9)
  ∧ speak us_english_driver
      [Str "a"; PhonemeCommand [0x61%N] (Some "<b>"); Str "c"]
    = Ok ("<pitch absmiddle=" +:+ DQ +:+ "0" +:+ DQ +:+ ">a<b>c</pitch>", 9)
  ∧ speak us_english_driver [Str "a"; PhonemeCommand [LATIN_S] (Some "<b>")]
    = Ok ("<pitch absmiddle=" +:+ DQ +:+ "0" +:+ DQ +:+ ">a<pron sym="
          +:+ DQ +:+ "s" +:+ DQ +:+ "><b></pron></pitch>", 9)
  ∧ speak us_english_driver [Str "<b>"]
    = Ok ("<pitch absmiddle=" +:+ DQ +:+ "0" +:+ DQ +:+ ">&lt;b></pitch>", 9).
Proof. repeat split; reflexivity. Qed.

(** ** Tags that are not set do not appear *)

Lemma OpenTag_in_tags tag (tg : PyDict.t (PyDict.t Z)) :
  OpenTag tag ∈ tg ≫= open_pieces → tag ∈ PyDict.keys tg.
Proof.
  intros (entry & Hin & Hentry)%list_elem_of_bind.
  unfold open_pieces in Hin.
  apply elem_of_cons in Hin as [[= ->]|Hin].
  - unfold PyDict.keys. apply list_elem_of_fmap. eauto.
  - apply elem_of_app in Hin as [Hin|Hin].
    + apply list_elem_of_fmap in Hin as (av & Hav & _). done.
    + by apply list_elem_of_singleton in Hin.
Qed.

Lemma CloseTag_in_tags tag (tg : PyDict.t (PyDict.t Z)) :
  CloseTag tag ∉ tg ≫= open_pieces.
Proof.
  intros (entry & Hin & Hentry)%list_elem_of_bind.
  unfold open_pieces in Hin.
  apply elem_of_cons in Hin as [?|Hin]; [done|].
  apply elem_of_app in Hin as [Hin|Hin].
  - apply list_elem_of_fmap in Hin as (av & Hav & _). done.
  - by apply list_elem_of_singleton in Hin.
Qed.

Lemma absent_step_intro tag st st' ps :
  textList st' = textList st ++ ps →
  OpenTag tag ∉ ps →
  tag ∉ PyDict.keys (tags st') →
  (tag ∉ openedTags st → (CloseTag tag ∉ ps) ∧ (tag ∉ openedTags st')) →
  absent_step tag st st'.
Proof. intros. exists ps. auto. Qed.

Lemma absent_step_tags tag st st' :
  absent_step tag st st' → tag ∉ PyDict.keys (tags st').
Proof. by intros (ps & _ & _ & Hk & _). Qed.

Lemma absent_step_refl tag st :
  tag ∉ PyDict.keys (tags st) → absent_step tag st st.
Proof.
  intros Hk.
  apply (absent_step_intro _ _ _ []);
    [by rewrite app_nil_r|apply not_elem_of_nil|done|].
  intros Ho. split; [apply not_elem_of_nil|done].
Qed.

Lemma absent_step_trans tag st1 st2 st3 :
  absent_step tag st1 st2 → absent_step tag st2 st3 → absent_step tag st1 st3.
Proof.
  intros (ps1 & Htl1 & Hopen1 & Hk1 & Hclose1)
         (ps2 & Htl2 & Hopen2 & Hk2 & Hclose2).
  apply (absent_step_intro _ _ _ (ps1 ++ ps2)).
  - by rewrite Htl2, Htl1, app_assoc.
  - rewrite elem_of_app. tauto.
  - done.
  - intros Ho. destruct (Hclose1 Ho) as [Hc1 Ho2].
    destruct (Hclose2 Ho2) as [Hc2 Ho3].
    split; [|done]. rewrite elem_of_app. tauto.
Qed.

Lemma absent_outputTags tag st :
  tag ∉ PyDict.keys (tags st) → absent_step tag st (outputTags st).
Proof.
  intros Hk. destruct (tagsChanged st) eqn:Hdirty.
  - unfold outputTags. rewrite Hdirty. simpl.
    eapply absent_step_intro; [reflexivity| |done|].
    + rewrite elem_of_app. intros [Hin|Hin].
      * apply list_elem_of_fmap in Hin as (x & Hx & _). done.
      * by apply OpenTag_in_tags in Hin.
    + simpl. intros Ho. split; [|done].
      rewrite elem_of_app. intros [Hin|Hin].
      * apply list_elem_of_fmap in Hin as (x & Heq & Hx).
        injection Heq as ->. apply Ho. by apply elem_of_reverse.
      * by apply CloseTag_in_tags in Hin.
  - rewrite outputTags_clean by done. by apply absent_step_refl.
Qed.

Lemma absent_append tag ps st :
  tag_events ps = [] → tag ∉ PyDict.keys (tags st) →
  absent_step tag st (append ps st).
Proof.
  intros Hps Hk.
  assert (∀ e, tag_event e = Some (Open tag) ∨ tag_event e = Some (Close tag) →
               e ∉ ps) as Hnone.
  { intros e He Hin. unfold tag_events in Hps.
    assert (is_Some (tag_event e)) as [ev Hev] by (destruct He as [->| ->]; eauto).
    assert (ev ∈ omap tag_event ps) as Hin'
      by (apply list_elem_of_omap; eauto).
    rewrite Hps in Hin'. by apply elem_of_nil in Hin'. }
  apply (absent_step_intro _ _ _ ps); [done|apply Hnone; by left|done|].
  intros Ho. split; [apply Hnone; by right|done].
Qed.

Lemma absent_set_tags tag tg st :
  tag ∉ PyDict.keys tg → absent_step tag st (set_tags tg st).
Proof.
  intros Hk.
  apply (absent_step_intro _ _ _ []);
    [by rewrite app_nil_r|apply not_elem_of_nil|done|].
  intros Ho. split; [apply not_elem_of_nil|done].
Qed.

Lemma absent_add_log tag r st :
  tag ∉ PyDict.keys (tags st) → absent_step tag st (add_log r st).
Proof.
  intros Hk.
  apply (absent_step_intro _ _ _ []);
    [by rewrite app_nil_r|apply not_elem_of_nil|done|].
  intros Ho. split; [apply not_elem_of_nil|done].
Qed.

Lemma absent_phoneme_fallback tag st text :
  tag ∉ PyDict.keys (tags st) → absent_step tag st (phoneme_fallback st text).
Proof.
  intros Hk. unfold phoneme_fallback.
  destruct text as [s|]; [destruct (String.eqb s "")|];
    try by apply absent_add_log.
  eapply absent_step_trans; [by apply absent_add_log|].
  by apply absent_append.
Qed.

Lemma not_in_keys_set (tg : PyDict.t (PyDict.t Z)) tag k v :
  String.eqb tag k = false → tag ∉ PyDict.keys tg →
  tag ∉ PyDict.keys (PyDict.set k v tg).
Proof.
  intros Hne%String.eqb_neq Hk [->|Hin]%keys_set; done.
Qed.

Lemma not_in_keys_remove (tg : PyDict.t (PyDict.t Z)) tag k :
  tag ∉ PyDict.keys tg → tag ∉ PyDict.keys (PyDict.remove k tg).
Proof. intros Hk Hin%keys_remove_subseteq. done. Qed.

Lemma absent_speak_item tag self pitch rate volume st item st' :
  sets_tag tag item = false →
  speak_item self pitch rate volume st item = Ok st' →
  tag ∉ PyDict.keys (tags st) → absent_step tag st st'.
Proof.
  intros Hsets Hstep Hk.
  destruct item as [s|i|[|]|t|m|m|m|ipa text| |].
  - injection Hstep as <-.
    eapply absent_step_trans; [by apply absent_outputTags|].
    apply absent_append; [done|].
    by apply (absent_step_tags _ st), absent_outputTags.
  - injection Hstep as <-. by apply absent_append.
  - injection Hstep as <-. apply absent_set_tags.
    by apply not_in_keys_set.
  - simpl in Hstep. rewrite try_del_ok in Hstep. injection Hstep as <-.
    by apply absent_set_tags, not_in_keys_remove.
  - injection Hstep as <-. by apply absent_append.
  - injection Hstep as <-. by apply absent_set_tags, not_in_keys_set.
  - simpl in Hstep, Hsets. destruct (is_one m).
    + rewrite try_del_ok in Hstep. injection Hstep as <-.
      by apply absent_set_tags, not_in_keys_remove.
    + injection Hstep as <-. by apply absent_set_tags, not_in_keys_set.
  - simpl in Hstep, Hsets. destruct (is_one m).
    + rewrite try_del_ok in Hstep. injection Hstep as <-.
      by apply absent_set_tags, not_in_keys_remove.
    + injection Hstep as <-. by apply absent_set_tags, not_in_keys_set.
  - destruct (_convertPhoneme self ipa) as [sym|e] eqn:Hconv.
    + rewrite (speak_item_phoneme_ok _ _ _ _ _ _ _ _ Hconv) in Hstep.
      injection Hstep as <-. by apply absent_append.
    + rewrite (speak_item_phoneme_raise _ _ _ _ _ _ _ _ Hconv) in Hstep.
      injection Hstep as <-. by apply absent_phoneme_fallback.
  - injection Hstep as <-. by apply absent_add_log.
  - injection Hstep as <-. by apply absent_add_log.
Qed.

Lemma absent_speak_loop tag self speechSequence st st' :
  Forall (fun item => sets_tag tag item = false) speechSequence →
  speak_loop self speechSequence st = Ok st' →
  tag ∉ PyDict.keys (tags st) → absent_step tag st st'.
Proof.
  intros Hall. revert st.
  induction Hall as [|item rest Hitem Hrest IH]; intros st; simpl.
  - intros [= <-]. apply absent_step_refl.
  - destruct (speak_item _ _ _ _ st item) as [st1|] eqn:Hstep; [|done].
    rewrite bind_Ok. intros Hloop Hk.
    pose proof (absent_speak_item _ _ _ _ _ _ _ _ Hitem Hstep Hk) as H1.
    eapply absent_step_trans; [done|].
    apply IH; [done|]. by apply absent_step_tags in H1.
Qed.

Lemma absent_speak_close tag st : absent_step tag st (speak_close st).
Proof.
  unfold speak_close.
  eapply absent_step_trans; [apply absent_set_tags|apply absent_outputTags];
    apply not_elem_of_nil.
Qed.

(** ** [tags] has no key twice *)

Lemma wf_speak_item self pitch rate volume st item st' :
  speak_item self pitch rate volume st item = Ok st' →
  PyDict.wf (tags st) → PyDict.wf (tags st').
Proof.
  intros Hstep Hwf.
  assert (PyDict.wf (tags (outputTags st))) as Hflush.
  { unfold outputTags. by destruct (negb (tagsChanged st)). }
  destruct item as [s|i|[|]|t|m|m|m|ipa text| |].
  - by injection Hstep as <-.
  - by injection Hstep as <-.
  - injection Hstep as <-. by apply wf_set.
  - simpl in Hstep. rewrite try_del_ok in Hstep. injection Hstep as <-.
    by apply wf_remove.
  - by injection Hstep as <-.
  - injection Hstep as <-. by apply wf_set.
  - simpl in Hstep. destruct (is_one m).
    + rewrite try_del_ok in Hstep. injection Hstep as <-. by apply wf_remove.
    + injection Hstep as <-. by apply wf_set.
  - simpl in Hstep. destruct (is_one m).
    + rewrite try_del_ok in Hstep. injection Hstep as <-. by apply wf_remove.
    + injection Hstep as <-. by apply wf_set.
  - destruct (_convertPhoneme self ipa) as [sym|e] eqn:Hconv.
    + rewrite (speak_item_phoneme_ok _ _ _ _ _ _ _ _ Hconv) in Hstep.
      by injection Hstep as <-.
    + rewrite (speak_item_phoneme_raise _ _ _ _ _ _ _ _ Hconv) in Hstep.
      injection Hstep as <-. unfold phoneme_fallback.
      by destruct text as [s|]; [destruct (String.eqb s "")|].
  - by injection Hstep as <-.
  - by injection Hstep as <-.
Qed.

Lemma wf_speak_loop self speechSequence st st' :
  speak_loop self speechSequence st = Ok st' →
  PyDict.wf (tags st) → PyDict.wf (tags st').
Proof.
  revert st. induction speechSequence as [|item rest IH]; intros st; simpl.
  - by intros [= <-].
  - destruct (speak_item _ _ _ _ st item) as [st1|] eqn:Hstep; [|done].
    rewrite bind_Ok. intros Hloop Hwf.
    eapply IH; [done|]. by eapply wf_speak_item.
Qed.

Lemma wf_speak_init self : PyDict.wf (tags (speak_init self)).
Proof. apply NoDup_singleton. Qed.

(** [speak] on a sequence in two parts. *)
Lemma speak_final_app self seq1 seq2 :
  ∃ st1 st2,
    speak_loop self seq1 (speak_init self) = Ok st1
    ∧ speak_loop self seq2 st1 = Ok st2
    ∧ speak_final self (seq1 ++ seq2) = Ok (speak_close st2).
Proof.
  destruct (speak_loop_ok self seq1 (speak_init self)) as [st1 H1].
  destruct (speak_loop_ok self seq2 st1) as [st2 H2].
  exists st1, st2. split; [done|]. split; [done|].
  unfold speak_final. by rewrite speak_loop_app, H1, bind_Ok, H2.
Qed.

(** ** Character mode *)

Lemma character_mode_on_off self pitch rate volume st :
  (st1 ← speak_item self pitch rate volume st (CharacterModeCommand true);
   speak_item self pitch rate volume st1 (CharacterModeCommand false))
  = Ok (set_tags (PyDict.remove "spell" (tags st)) st).
Proof.
  simpl. rewrite try_del_ok. simpl. unfold set_tags. simpl.
  by rewrite remove_set.
Qed.

(** C8: character mode switched on and at once off again leaves no trace
    in the markup. The two commands leave [tags] as the second alone
    does, and unchanged when there was no [spell] entry; switching
    character mode off with no [spell] entry changes nothing in [tags]
    and raises nothing; and when no other command of the sequence
    switches character mode on, the markup has no [spell] tag, opened or
    closed. *)
Theorem character_mode_on_off_noop (self : SynthDriver)
    (before after : list SpeechItem) :
  Forall (fun item => sets_tag "spell" item = false) before →
  Forall (fun item => sets_tag "spell" item = false) after →
  (∃ st,
     speak_final self
       (before ++ CharacterModeCommand true :: CharacterModeCommand false
               :: after) = Ok st
     ∧ (OpenTag "spell" ∉ textList st)
     ∧ (CloseTag "spell" ∉ textList st))
  ∧ (∀ pitch rate volume st,
       (st1 ← speak_item self pitch rate volume st (CharacterModeCommand true);
        speak_item self pitch rate volume st1 (CharacterModeCommand false))
       = speak_item self pitch rate volume st (CharacterModeCommand false))
  ∧ (∀ pitch rate volume st,
       "spell" ∉ PyDict.keys (tags st) →
       speak_item self pitch rate volume st (CharacterModeCommand false)
       = Ok (set_tags (tags st) st)
       ∧ (st1 ← speak_item self pitch rate volume st (CharacterModeCommand true);
          speak_item self pitch rate volume st1 (CharacterModeCommand false))
         = Ok (set_tags (tags st) st)).
Proof.
  intros Hbefore Hafter. split; [|split].
  - destruct (speak_final_app self before
                (CharacterModeCommand true :: CharacterModeCommand false
                   :: after)) as (st1 & st3 & H1 & H3 & Hfinal).
    exists (speak_close st3). split; [done|].
    assert ("spell" ∉ PyDict.keys (tags (speak_init self))) as Hinit.
    { intros Hin%list_elem_of_singleton. done. }
    pose proof (absent_speak_loop _ _ _ _ _ Hbefore H1 Hinit) as Hs1.
    change (speak_loop self (CharacterModeCommand true
                               :: CharacterModeCommand false :: after) st1)
      with (st2 ← (st' ← speak_item self (_pitch self) (_get_rate self)
                      (_get_volume self) st1 (CharacterModeCommand true);
                   speak_item self (_pitch self) (_get_rate self)
                      (_get_volume self) st' (CharacterModeCommand false));
            speak_loop self after st2) in H3.
    rewrite character_mode_on_off, bind_Ok in H3.
    assert (absent_step "spell" st1
              (set_tags (PyDict.remove "spell" (tags st1)) st1)) as Hs2.
    { apply absent_set_tags, not_in_keys_remove.
      by apply absent_step_tags in Hs1. }
    pose proof (absent_speak_loop _ _ _ _ _ Hafter H3
                  (absent_step_tags _ _ _ Hs2)) as Hs3.
    pose proof (absent_step_trans _ _ _ _
                  (absent_step_trans _ _ _ _
                     (absent_step_trans _ _ _ _ Hs1 Hs2) Hs3)
                  (absent_speak_close "spell" st3))
      as (ps & Htl & Hopen & _ & Hclose).
    rewrite Htl. simpl.
    destruct Hclose as [Hclose _]; [apply not_elem_of_nil|]. done.
  - intros pitch rate volume st. rewrite character_mode_on_off.
    simpl. by rewrite try_del_ok.
  - intros pitch rate volume st Habsent.
    rewrite character_mode_on_off. simpl.
    by rewrite try_del_ok, remove_absent.
Qed.

Lemma character_mode_on_off_noop_witness :
  ∃ st,
    speak_final us_english_driver
      ([Str "a"] ++ CharacterModeCommand true :: CharacterModeCommand false
                 :: [Str "b"]) = Ok st
    ∧ (OpenTag "spell" ∉ textList st)
    ∧ (CloseTag "spell" ∉ textList st).
Proof.
  refine (proj1 (character_mode_on_off_noop us_english_driver
                   [Str "a"] [Str "b"] _ _)).
  - repeat constructor.
  - repeat constructor.
Defined.

(** ** Text after text *)

(** A command that leaves [tags] alone, met with the flag down, appends
    pieces that are not tags and leaves the flag down. *)
Lemma quiet_speak_item self pitch rate volume st item st' :
  changes_tags item = false →
  speak_item self pitch rate volume st item = Ok st' →
  tagsChanged st = false →
  ∃ ps, textList st' = textList st ++ ps
        ∧ tag_events ps = []
        ∧ tags st' = tags st
        ∧ openedTags st' = openedTags st
        ∧ tagsChanged st' = false.
Proof.
  intros Hquiet Hstep Hclean.
  destruct item as [s|i|b|t|m|m|m|ipa text| |]; try done.
  - injection Hstep as <-. rewrite outputTags_clean by done.
    by exists [Lit (replace_lt s)].
  - injection Hstep as <-. by exists [Bookmark i].
  - injection Hstep as <-. by exists [Silence t].
  - destruct (_convertPhoneme self ipa) as [sym|e] eqn:Hconv.
    + rewrite (speak_item_phoneme_ok _ _ _ _ _ _ _ _ Hconv) in Hstep.
      injection Hstep as <-. by exists [Pron sym (default "" text)].
    + rewrite (speak_item_phoneme_raise _ _ _ _ _ _ _ _ Hconv) in Hstep.
      injection Hstep as <-. unfold phoneme_fallback.
      destruct text as [s|]; [destruct (String.eqb s "")|].
      * exists []. by rewrite app_nil_r.
      * by exists [Lit s].
      * exists []. by rewrite app_nil_r.
  - injection Hstep as <-. exists []. by rewrite app_nil_r.
  - injection Hstep as <-. exists []. by rewrite app_nil_r.
Qed.

Lemma quiet_speak_loop self speechSequence st st' :
  Forall (fun item => changes_tags item = false) speechSequence →
  speak_loop self speechSequence st = Ok st' →
  tagsChanged st = false →
  ∃ ps, textList st' = textList st ++ ps
        ∧ tag_events ps = []
        ∧ (speechSequence = [] → ps = [])
        ∧ tags st' = tags st
        ∧ openedTags st' = openedTags st
        ∧ tagsChanged st' = false.
Proof.
  intros Hall. revert st.
  induction Hall as [|item rest Hitem Hrest IH]; intros st; simpl.
  - intros [= <-] Hclean. exists []. by rewrite app_nil_r.
  - destruct (speak_item _ _ _ _ st item) as [st1|] eqn:Hstep; [|done].
    rewrite bind_Ok. intros Hloop Hclean.
    destruct (quiet_speak_item _ _ _ _ _ _ _ Hitem Hstep Hclean)
      as (ps1 & Htl1 & Hev1 & Htags1 & Hopen1 & Hclean1).
    destruct (IH _ Hloop Hclean1)
      as (ps2 & Htl2 & Hev2 & _ & Htags2 & Hopen2 & Hclean2).
    exists (ps1 ++ ps2). rewrite Htl2, Htl1, tag_events_app, Hev1, Hev2.
    rewrite <- app_assoc. repeat split; try done; congruence.
Qed.

(** C7: from one text to the next, with no command in between that
    changes [tags], no tag is closed or opened. The flush before a text
    does nothing when [tagsChanged] is not set, and it is not set once a
    text has been written; so between the two texts only pieces that are
    not tags are appended, and [tags] and [openedTags] stay as they were. *)
Theorem no_tags_between_texts (self : SynthDriver)
    (before between : list SpeechItem) (a b : string) :
  Forall (fun item => changes_tags item = false) between →
  (∀ st, tagsChanged st = false → outputTags st = st)
  ∧ ∃ st1 st2 ps,
      speak_loop self (before ++ [Str a]) (speak_init self) = Ok st1
      ∧ speak_loop self (before ++ [Str a] ++ between ++ [Str b])
          (speak_init self) = Ok st2
      ∧ tagsChanged st1 = false
      ∧ (∃ ps0, textList st1 = ps0 ++ [Lit (replace_lt a)])
      ∧ textList st2 = textList st1 ++ ps ++ [Lit (replace_lt b)]
      ∧ tag_events ps = []
      ∧ tag_events (ps ++ [Lit (replace_lt b)]) = []
      ∧ (between = [] → ps = [])
      ∧ tags st2 = tags st1
      ∧ openedTags st2 = openedTags st1.
Proof.
  intros Hquiet. split; [apply outputTags_clean|].
  destruct (speak_loop_ok self before (speak_init self)) as [st0 H0].
  set (st1 := append [Lit (replace_lt a)] (outputTags st0)).
  assert (speak_loop self (before ++ [Str a]) (speak_init self) = Ok st1) as H1.
  { by rewrite speak_loop_app, H0. }
  assert (tagsChanged st1 = false) as Hclean1.
  { unfold st1, outputTags. by destruct (tagsChanged st0) eqn:Hdirty. }
  assert (Forall (fun item => changes_tags item = false) (between ++ [Str b]))
    as Hquiet'.
  { apply Forall_app. split; [done|]. by repeat constructor. }
  destruct (speak_loop_ok self between st1) as [st2' H2'].
  destruct (quiet_speak_loop _ _ _ _ Hquiet H2' Hclean1)
    as (ps & Htl & Hev & Hnil & Htags & Hopen & Hclean2).
  exists st1, (append [Lit (replace_lt b)] st2'), ps.
  split; [done|]. split.
  { rewrite app_assoc, speak_loop_app, H1, bind_Ok, speak_loop_app, H2', bind_Ok.
    simpl. by rewrite outputTags_clean. }
  split; [done|]. split; [by eexists|].
  simpl. rewrite Htl, tag_events_app, Hev, <- app_assoc.
  repeat split; done.
Qed.

Lemma no_tags_between_texts_witness :
  ∃ st1 st2 ps,
    speak_loop us_english_driver
      ([VolumeCommand 2] ++ [Str "a"]) (speak_init us_english_driver) = Ok st1
    ∧ speak_loop us_english_driver
        ([VolumeCommand 2] ++ [Str "a"] ++ [IndexCommand 1] ++ [Str "b"])
        (speak_init us_english_driver) = Ok st2
    ∧ textList st2 = textList st1 ++ ps ++ [Lit (replace_lt "b")]
    ∧ tag_events ps = [].
Proof.
  assert (Forall (fun item => changes_tags item = false) [IndexCommand 1])
    as Hquiet by (by repeat constructor).
  destruct (no_tags_between_texts us_english_driver [VolumeCommand 2]
              [IndexCommand 1] "a" "b" Hquiet)
    as (_ & st1 & st2 & ps & H1 & H2 & _ & _ & Htl & Hev & _).
  exists st1, st2, ps. auto.
Defined.

(** ** Volume *)

(** *** Numbers *)

Lemma round53_small n : Z.abs n < 2 ^ 53 → round53 n = n.
Proof.
  intros Hn. unfold round53.
  destruct (Z.leb_spec (Z.log2 (Z.abs n) - 52) 0) as [|Hs]; [done|].
  exfalso.
  destruct (Z.eq_dec (Z.abs n) 0) as [H0|H0].
  - rewrite H0 in Hs. change (Z.log2 0) with 0 in Hs. lia.
  - apply Z.log2_lt_pow2 in Hn; lia.
Qed.

Lemma round53_error n : (2 ^ 53 * Z.abs (round53 n - n) ≤ Z.abs n)%Z.
Proof.
  unfold round53.
  destruct (Z.leb_spec (Z.log2 (Z.abs n) - 52) 0) as [|Hs].
  { rewrite Z.sub_diag. simpl. lia. }
  set (s := Z.log2 (Z.abs n) - 52) in *.
  assert (0 < Z.abs n) as Hpos.
  { destruct (Z.eq_dec (Z.abs n) 0) as [H0|H0]; [|lia].
    subst s. rewrite H0 in Hs. change (Z.log2 0) with 0 in Hs. lia. }
  pose proof (Z.log2_spec _ Hpos) as [Hlo _].
  replace (Z.log2 (Z.abs n)) with (52 + s) in Hlo by (subst s; lia).
  rewrite Z.pow_add_r in Hlo by lia.
  assert (2 ^ s = 2 * 2 ^ (s - 1)) as Hhalf.
  { rewrite <- Z.pow_succ_r by lia. f_equal. lia. }
  assert (0 < 2 ^ (s - 1)) as Hhpos by (apply Z.pow_pos_nonneg; lia).
  pose proof (Z.div_mod (Z.abs n) (2 ^ s) ltac:(lia)) as Hdm.
  pose proof (Z.mod_pos_bound (Z.abs n) (2 ^ s) ltac:(lia)) as Hr.
  set (q := Z.abs n `div` 2 ^ s) in *.
  set (r := Z.abs n `mod` 2 ^ s) in *.
  set (h := 2 ^ (s - 1)) in *.
  assert (∀ q', (Z.abs (q' * 2 ^ s - Z.abs n) ≤ h)%Z →
                (2 ^ 53 * Z.abs (Z.sgn n * (q' * 2 ^ s) - n) ≤ Z.abs n)%Z) as Hgen.
  { intros q' Hq'.
    assert (Z.abs (Z.sgn n * (q' * 2 ^ s) - n) = Z.abs (q' * 2 ^ s - Z.abs n))
      as ->.
    { destruct (Z.sgn_spec n) as [[? ->]|[[? ->]|[? ->]]]; lia. }
    change (2 ^ 53) with (2 * 2 ^ 52). nia. }
  apply Hgen.
  destruct (Z.ltb_spec h r); simpl.
  - nia.
  - destruct (Z.eqb_spec r h); simpl.
    + destruct (Z.odd q); nia.
    + nia.
Qed.

Lemma pow2_pos (scale : N) : 0 < 2 ^ Z.of_N scale.
Proof. apply Z.pow_pos_nonneg; lia. Qed.

Lemma Zpos_pow2 (scale : N) :
  Z.pos (Z.to_pos (2 ^ Z.of_N scale)) = 2 ^ Z.of_N scale.
Proof. apply Z2Pos.id, pow2_pos. Qed.

Lemma is_one_value m : is_one m = true ↔ (value m == 1)%Q.
Proof.
  destruct m as [z|num scale]; unfold is_one, value, Qeq; cbn [Qnum Qden inject_Z].
  - rewrite Z.eqb_eq. lia.
  - rewrite Z.eqb_eq, Zpos_pow2. lia.
Qed.

Lemma quot_bound a d : 0 < d → Z.abs (Z.quot a d * d - a) < d.
Proof.
  intros Hd.
  pose proof (Z.quot_rem' a d) as Hqr.
  pose proof (Z.rem_bound_abs a d ltac:(lia)) as Hb.
  lia.
Qed.

Lemma py_int_py_mul base multiplier :
  int_of_product base multiplier (py_int (py_mul base multiplier)).
Proof.
  destruct multiplier as [z|num scale]; unfold int_of_product, trunc;
    cbn [py_mul py_int value].
  - cbn. by rewrite Z.quot_1_r.
  - cbn [Qmult inject_Z Qnum Qden]. rewrite Pos.mul_1_l, Zpos_pow2.
    pose proof (pow2_pos scale) as HD.
    set (D := 2 ^ Z.of_N scale) in *.
    split.
    + intros Hsmall.
      destruct (Z.eq_dec num 0) as [->|Hnum].
      { rewrite !Z.mul_0_r. done. }
      rewrite (round53_small base) by nia.
      by rewrite round53_small.
    + intros Hbase. rewrite (round53_small base) by done.
      set (X := base * num).
      pose proof (round53_error X) as Herr.
      pose proof (quot_bound (round53 X) D HD) as Hq.
      set (R := round53 X) in *. set (L := Z.quot R D) in *.
      unfold Qlt, Qabs, Qminus, Qplus, Qopp, Qmult, unit_roundoff.
      cbn [Qnum Qden inject_Z]. fold X.
      rewrite ?Pos.mul_1_l, ?Pos.mul_1_r, ?Z.mul_1_l, ?Z.mul_1_r.
      rewrite !Pos2Z.inj_mul, !(Z2Pos.id D HD).
      change (Z.pos 9007199254740992) with (2 ^ 53).
      set (P := 2 ^ 53) in *.
      assert (0 < P) by done.
      replace (L * D + - X) with (L * D - X) by lia.
      nia.
Qed.

(** A number of at most 53 bits, scaled by a power of 2, is a double. *)
Lemma round53_scaled n k :
  Z.abs n < 2 ^ 53 → (0 ≤ k)%Z → round53 (n * 2 ^ k) = n * 2 ^ k.
Proof.
  intros Hn Hk.
  destruct (Z.eq_dec n 0) as [->|Hn0]; [done|].
  assert (0 < 2 ^ k) as Hpk by (apply Z.pow_pos_nonneg; lia).
  unfold round53. rewrite Z.abs_mul, (Z.abs_eq (2 ^ k)) by lia.
  rewrite Z.log2_mul_pow2 by lia.
  assert (Z.log2 (Z.abs n) < 53) as Hlog by (apply Z.log2_lt_pow2; lia).
  pose proof (Z.log2_nonneg (Z.abs n)) as Hlog0.
  destruct (Z.leb_spec (k + Z.log2 (Z.abs n) - 52) 0) as [|Hs]; [done|].
  set (s := k + Z.log2 (Z.abs n) - 52) in *.
  assert (2 ^ k = 2 ^ (k - s) * 2 ^ s) as Hsplit.
  { rewrite <- Z.pow_add_r by lia. f_equal. lia. }
  assert (0 < 2 ^ s) as Hps by (apply Z.pow_pos_nonneg; lia).
  assert (0 < 2 ^ (s - 1)) as Hph by (apply Z.pow_pos_nonneg; lia).
  assert (Z.abs n * 2 ^ k = Z.abs n * 2 ^ (k - s) * 2 ^ s) as Heq by lia.
  rewrite Heq, Z.div_mul, Z.mod_mul by lia.
  destruct (Z.ltb_spec (2 ^ (s - 1)) 0); [lia|].
  destruct (Z.eqb_spec 0 (2 ^ (s - 1))); [lia|].
  cbn [orb andb]. rewrite <- Heq, Z.sgn_mul, (Z.sgn_pos (2 ^ k)) by lia.
  pose proof (Z.abs_sgn n). lia.
Qed.

(** A multiplier equal to 1 gives the base back. *)
Lemma py_int_mul_one base multiplier :
  Z.abs base < 2 ^ 53 → is_one multiplier = true →
  py_int (py_mul base multiplier) = base.
Proof.
  intros Hbase. destruct multiplier as [z|num scale]; cbn [is_one py_mul py_int].
  - intros ->%Z.eqb_eq. lia.
  - intros ->%Z.eqb_eq. pose proof (pow2_pos scale).
    rewrite (round53_small base), round53_scaled by lia.
    apply Z.quot_mul. lia.
Qed.

Lemma speak_item_volume self pitch rate volume st multiplier :
  speak_item self pitch rate volume st (VolumeCommand multiplier)
  = Ok (set_tags
          (if is_one multiplier then PyDict.remove "volume" (tags st)
           else PyDict.set "volume"
                  [("level", py_int (py_mul volume multiplier))] (tags st))
          st).
Proof.
  simpl. destruct (is_one multiplier); [|done]. by rewrite try_del_ok.
Qed.

(** The flush opens every entry of [tags] with its attributes. *)
Lemma open_pieces_of_entry (tg : PyDict.t (PyDict.t Z)) k attrs :
  PyDict.get k tg = Some attrs →
  ∃ ps1 ps2, tg ≫= open_pieces = ps1 ++ open_pieces (k, attrs) ++ ps2.
Proof.
  induction tg as [|[k' v'] tg IH]; cbn [PyDict.get]; [done|].
  change (((k', v') :: tg) ≫= open_pieces)
    with (open_pieces (k', v') ++ (tg ≫= open_pieces)).
  destruct (String.eqb_spec k k') as [->|Hne].
  - intros [= ->]. by exists [], (tg ≫= open_pieces).
  - intros (ps1 & ps2 & ->)%IH.
    exists (open_pieces (k', v') ++ ps1), ps2. by rewrite <- app_assoc.
Qed.



(** ** The wave-out hooks *)

Lemma bindM_Ok {A B} (m : M A) (f : A → M B) p a p' :
  m p = (Ok a, p') → (m ≫= f) p = f a p'.
Proof. intros Hm. unfold mbind, M_bind, bind. by rewrite Hm. Qed.

Lemma bindM_Raise {A B} (m : M A) (f : A → M B) p e p' :
  m p = (Raise e, p') → (m ≫= f) p = (Raise e, p').
Proof. intros Hm. unfold mbind, M_bind, bind. by rewrite Hm. Qed.

Lemma FunctionHooker_init_ok P c p :
  encodable P c = true →
  dllImportTableHooks_hookSingle P (trace p) c ≠ 0 →
  FunctionHooker_init P c p
  = (Ok {| hooked := c;
           _hook := dllImportTableHooks_hookSingle P (trace p) c |},
     {| _duckersByHandle := _duckersByHandle p;
        _waveOutHooks := _waveOutHooks p;
        trace := trace p
                 ++ [EvHookSingle c (dllImportTableHooks_hookSingle P (trace p) c);
                     EvLog (DEBUG, "Hooked " +:+ funcName c)] |}).
Proof.
  intros [[Htarget Himport]%andb_true_iff Hname]%andb_true_iff Hhook%Z.eqb_neq.
  unfold FunctionHooker_init, try_exceptM, encode_mbcs, call_hookSingle,
    mbind, M_bind, bind.
  rewrite Htarget, Himport, Hname. cbn [ret emit snd fst trace]. rewrite Hhook.
  cbn [negb log emit]. unfold ret.
  cbn [_duckersByHandle _waveOutHooks trace]. by rewrite <- app_assoc.
Qed.

Lemma ensureWaveOutHooks_skip P p :
  _waveOutHooks p ≠ [] ∨ isAudioDuckingSupported P = false →
  ensureWaveOutHooks P p = (Ok (), p).
Proof.
  intros Hskip. unfold ensureWaveOutHooks.
  destruct Hskip as [Hhooks| ->].
  - by rewrite bool_decide_eq_false_2.
  - by rewrite andb_false_r.
Qed.

Lemma ensureWaveOutHooks_install P p :
  let h1 := dllImportTableHooks_hookSingle P (trace p) (open_call P) in
  let h2 := dllImportTableHooks_hookSingle P
              (trace p ++ [EvHookSingle (open_call P) h1;
                           EvLog (DEBUG, "Hooked waveOutOpen")])
              (close_call P) in
  isAudioDuckingSupported P = true →
  _waveOutHooks p = [] →
  encodable P (open_call P) = true →
  encodable P (close_call P) = true →
  h1 ≠ 0 → h2 ≠ 0 →
  ensureWaveOutHooks P p
  = (Ok (),
     {| _duckersByHandle := _duckersByHandle p;
        _waveOutHooks := [{| hooked := open_call P; _hook := h1 |};
                          {| hooked := close_call P; _hook := h2 |}];
        trace := trace p ++ [EvHookSingle (open_call P) h1;
                             EvLog (DEBUG, "Hooked waveOutOpen");
                             EvHookSingle (close_call P) h2;
                             EvLog (DEBUG, "Hooked waveOutClose")] |}).
Proof.
  intros h1 h2 Hsupp Hempty Hopen Hclose Hh1 Hh2. unfold ensureWaveOutHooks.
  rewrite Hsupp, bool_decide_eq_true_2 by done. cbn [andb].
  erewrite bindM_Ok; [|by apply FunctionHooker_init_ok].
  erewrite bindM_Ok; [|reflexivity].
  erewrite bindM_Ok; [|by apply FunctionHooker_init_ok].
  unfold append_hook. cbn [_duckersByHandle _waveOutHooks trace].
  by rewrite Hempty, <- !app_assoc.
Qed.

(** C2, as stated, fails: hooking can fail. On a platform that supports
    ducking and on which [dllImportTableHooks_hookSingle] gives a null
    hook, the first call raises and leaves no hook; and when only the
    first attempt fails, it is the second call that sets the two hooks. *)
Lemma ensureWaveOutHooks_counterexample :
  isAudioDuckingSupported platform_no_hook = true
  ∧ (ensureWaveOutHooks platform_no_hook process0).1
    = Raise (RuntimeError "Could not hook waveOutOpen")
  ∧ _waveOutHooks (ensureWaveOutHooks platform_no_hook process0).2 = []
  ∧ isAudioDuckingSupported platform_hook_later = true
  ∧ _waveOutHooks (ensureWaveOutHooks platform_hook_later process0).2 = []
  ∧ length (_waveOutHooks
              (ensureWaveOutHooks platform_hook_later
                 (ensureWaveOutHooks platform_hook_later process0).2).2)
    = 2%nat.
Proof. repeat split; reflexivity. Qed.

(** C2, amended: [ensureWaveOutHooks] is idempotent where hooking
    succeeds. On a platform that supports ducking and on which each of
    the two hooks can be set (the names of the call can be encoded and
    [dllImportTableHooks_hookSingle] answers with a hook that is not
    null), the first call sets exactly two hooks, one over [waveOutOpen]
    and one over [waveOutClose], and makes two calls of
    [dllImportTableHooks_hookSingle]; a call that finds hooks set changes
    nothing, so calling twice is calling once; and on a platform that
    does not support ducking no call, however often repeated, sets a
    hook. *)
Theorem ensureWaveOutHooks_idempotent (P : Platform) (p : Process) :
  (let h1 := dllImportTableHooks_hookSingle P (trace p) (open_call P) in
   let h2 := dllImportTableHooks_hookSingle P
               (trace p ++ [EvHookSingle (open_call P) h1;
                            EvLog (DEBUG, "Hooked waveOutOpen")])
               (close_call P) in
   isAudioDuckingSupported P = true →
   _waveOutHooks p = [] →
   encodable P (open_call P) = true →
   encodable P (close_call P) = true →
   h1 ≠ 0 → h2 ≠ 0 →
   ∃ p1,
     ensureWaveOutHooks P p = (Ok (), p1)
     ∧ _waveOutHooks p1 = [{| hooked := open_call P; _hook := h1 |};
                           {| hooked := close_call P; _hook := h2 |}]
     ∧ hookSingle_calls (trace p1)
       = hookSingle_calls (trace p)
         ++ [EvHookSingle (open_call P) h1; EvHookSingle (close_call P) h2]
     ∧ _duckersByHandle p1 = _duckersByHandle p
     ∧ ensureWaveOutHooks P p1 = (Ok (), p1)
     ∧ (ensureWaveOutHooks P;; ensureWaveOutHooks P) p
       = ensureWaveOutHooks P p)
  ∧ (_waveOutHooks p ≠ [] → ensureWaveOutHooks P p = (Ok (), p))
  ∧ (isAudioDuckingSupported P = false →
     ensureWaveOutHooks P p = (Ok (), p)
     ∧ ∀ n, Nat.iter n (fun q => (ensureWaveOutHooks P q).2) p = p).
Proof.
  split; [|split].
  - intros h1 h2 Hsupp Hempty Hopen Hclose Hh1 Hh2.
    pose proof (ensureWaveOutHooks_install P p Hsupp Hempty Hopen Hclose
                  Hh1 Hh2) as Hinstall.
    fold h1 h2 in Hinstall.
    eexists. split; [exact Hinstall|].
    split; [done|]. split.
    { unfold hookSingle_calls. cbn [trace]. by rewrite filter_app. }
    split; [done|].
    assert (∀ p1, ensureWaveOutHooks P p = (Ok (), p1) →
                  _waveOutHooks p1 ≠ [] →
                  ensureWaveOutHooks P p1 = (Ok (), p1)
                  ∧ (ensureWaveOutHooks P;; ensureWaveOutHooks P) p
                    = ensureWaveOutHooks P p) as Hagain.
    { intros p1 Hp1 Hset.
      assert (ensureWaveOutHooks P p1 = (Ok (), p1)) as H1
        by (apply ensureWaveOutHooks_skip; by left).
      split; [done|]. by rewrite (bindM_Ok _ _ _ _ _ Hp1), Hp1. }
    by apply Hagain.
  - intros Hset. apply ensureWaveOutHooks_skip. by left.
  - intros Hsupp.
    assert (ensureWaveOutHooks P p = (Ok (), p)) as Hskip
      by (apply ensureWaveOutHooks_skip; by right).
    split; [done|].
    induction n as [|n IH]; [done|].
    rewrite Nat.iter_succ, IH. by rewrite Hskip.
Qed.

Lemma ensureWaveOutHooks_idempotent_witness :
  ∃ p1,
    ensureWaveOutHooks platform_picky process0 = (Ok (), p1)
    ∧ _waveOutHooks p1
      = [{| hooked := open_call platform_picky; _hook := 7 |};
         {| hooked := close_call platform_picky; _hook := 8 |}]
    ∧ ensureWaveOutHooks platform_picky p1 = (Ok (), p1).
Proof.
  destruct (proj1 (ensureWaveOutHooks_idempotent platform_picky process0)
              eq_refl eq_refl eq_refl eq_refl
              ltac:(discriminate) ltac:(discriminate))
    as (p1 & H1 & H2 & _ & _ & H3 & _).
  exists p1. auto.
Defined.

(** *** The open hook *)

Lemma emit_traced e p : emit e p = (Ok (), traced [e] p).
Proof. reflexivity. Qed.

Lemma traced_traced evs1 evs2 p :
  traced evs2 (traced evs1 p) = traced (evs1 ++ evs2) p.
Proof. unfold traced. simpl. by rewrite app_assoc. Qed.

Lemma traced_nil p : traced [] p = p.
Proof. destruct p. unfold traced. simpl. by rewrite app_nil_r. Qed.

Lemma when_log b level msg p :
  when b (log level msg) p
  = (Ok (), traced (if b then [EvLog (level, msg)] else []) p).
Proof. destruct b; [done|]. by rewrite traced_nil. Qed.

Lemma duckers_made_traced evs p :
  Forall (fun e => is_EvNewDucker e = false) evs →
  duckers_made (traced evs p) = duckers_made p.
Proof.
  intros Hevs. unfold duckers_made. cbn [traced trace].
  rewrite filter_app, length_app.
  assert (filter (fun e => is_EvNewDucker e = true) evs = []) as ->.
  { induction Hevs as [|e evs He Hevs IH]; [done|].
    rewrite filter_cons_False; [done|]. by rewrite He. }
  simpl. lia.
Qed.

(** The hook up to the test of [res]: the real function has been called,
    and [res] is its status. *)
Lemma call_real_open_status env p :
  try_exceptM (r ← call_real_open env; ret (or_0 r)) isWindowsError
    (fun e => match e with
              | WindowsError winerror => ret winerror
              | _ => raise e
              end) p
  = (real_status (real_waveOutOpen env), traced [EvRealOpen] p).
Proof.
  unfold try_exceptM, call_real_open, mbind, M_bind, bind.
  destruct (real_waveOutOpen env) as [ret|[]]; reflexivity.
Qed.

Lemma waveOutOpen_raises env pWaveOutHandle p e :
  real_status (real_waveOutOpen env) = Raise e →
  waveOutOpen env pWaveOutHandle p
  = (Raise e,
     traced (debug_log (open_isDebug env)
               "Ducking audio requested for SAPI5 synthdriver"
             ++ [EvRealOpen]) p).
Proof.
  intros Hstatus. unfold waveOutOpen.
  erewrite bindM_Ok; [|apply when_log].
  erewrite bindM_Raise; [|by rewrite call_real_open_status, Hstatus].
  by rewrite traced_traced.
Qed.

Lemma waveOutOpen_registers env h p :
  real_status (real_waveOutOpen env) = Ok 0 →
  waveOutOpen env (Some h) p
  = (Ok 0,
     with_duckers
       (<[h := {| serial := duckers_made p; enabled := enable_result env |}]>
          (_duckersByHandle p))
       (traced (debug_log (open_isDebug env)
                  "Ducking audio requested for SAPI5 synthdriver"
                ++ [EvRealOpen; EvNewDucker (duckers_made p);
                    EvEnable (duckers_made p) (enable_result env)]
                ++ (if enable_result env then []
                    else [EvLog (WARNING,
                                 "Ducking audio failed for SAPI5 synthdriver")]))
          p)).
Proof.
  intros Hstatus. unfold waveOutOpen.
  erewrite bindM_Ok; [|apply when_log].
  erewrite bindM_Ok; [|by rewrite call_real_open_status, Hstatus].
  rewrite traced_traced. cbn [Z.eqb].
  set (p1 := traced _ p).
  assert (duckers_made p1 = duckers_made p) as Hmade.
  { apply duckers_made_traced, Forall_app. split; [|by repeat constructor].
    unfold debug_log. destruct (open_isDebug env); by repeat constructor. }
  unfold new_AudioDucker, enable, register, mbind, M_bind, bind.
  rewrite Hmade. subst p1.
  unfold with_duckers, traced, ret, debug_log, when, log, emit.
  destruct (enable_result env), (open_isDebug env);
    cbn [negb _duckersByHandle _waveOutHooks trace ret];
    rewrite <- ?app_assoc; reflexivity.
Qed.

Lemma waveOutOpen_fails env pWaveOutHandle p res :
  real_status (real_waveOutOpen env) = Ok res →
  res ≠ 0 ∨ pWaveOutHandle = None →
  waveOutOpen env pWaveOutHandle p
  = (Ok res,
     traced (debug_log (open_isDebug env)
               "Ducking audio requested for SAPI5 synthdriver"
             ++ [EvRealOpen;
                 EvLog (WARNING, "Opening wave out failed for SAPI5 synthdriver");
                 EvLog (DEBUGWARNING, "Win Error")]) p).
Proof.
  intros Hstatus Hfail. unfold waveOutOpen.
  erewrite bindM_Ok; [|apply when_log].
  erewrite bindM_Ok; [|by rewrite call_real_open_status, Hstatus].
  rewrite traced_traced.
  assert ((if Z.eqb res 0 then pWaveOutHandle else None) = None) as ->.
  { destruct Hfail as [Hres%Z.eqb_neq| ->]; [by rewrite Hres|].
    by destruct (Z.eqb res 0). }
  unfold log, mbind, M_bind, bind. rewrite !emit_traced, !traced_traced.
  unfold ret. by rewrite <- app_assoc.
Qed.

Lemma debug_log_is_log isDebug msg :
  Forall (fun e => is_EvLog e = true) (debug_log isDebug msg).
Proof. unfold debug_log. destruct isDebug; by repeat constructor. Qed.

Lemma waveOutOpen_keeps_hooks env pWaveOutHandle p :
  _waveOutHooks (waveOutOpen env pWaveOutHandle p).2 = _waveOutHooks p.
Proof.
  destruct (real_status (real_waveOutOpen env)) as [res|e] eqn:Hreal.
  - destruct (decide (res = 0)) as [->|Hres].
    + destruct pWaveOutHandle as [h|].
      * by rewrite waveOutOpen_registers.
      * erewrite waveOutOpen_fails; [done..|by right].
    + erewrite waveOutOpen_fails; [done..|by left].
  - by erewrite waveOutOpen_raises.
Qed.

(** C3: the open hook calls the real open before anything else but its
    debug log, and once. Its status is what the real open returned, or
    the code of the [WindowsError] it raised, whatever [enable()]
    answers; so a system error never leaves the hook as an exception.
    When the status is 0 and the handle pointer is not null, a ducker is
    made, [enable()] is called on it, and it is stored under the handle
    whether or not [enable()] succeeded. *)
Theorem waveOutOpen_hook (env : OpenEnv) (pWaveOutHandle : option Z)
    (p : Process) :
  (waveOutOpen env pWaveOutHandle p).1 = real_status (real_waveOutOpen env)
  ∧ (∃ logs rest,
       trace (waveOutOpen env pWaveOutHandle p).2
       = trace p ++ logs ++ EvRealOpen :: rest
       ∧ Forall (fun e => is_EvLog e = true) logs
       ∧ (EvRealOpen ∉ rest))
  ∧ _waveOutHooks (waveOutOpen env pWaveOutHandle p).2 = _waveOutHooks p
  ∧ (∀ h,
       real_status (real_waveOutOpen env) = Ok 0 →
       pWaveOutHandle = Some h →
       (waveOutOpen env pWaveOutHandle p).1 = Ok 0
       ∧ _duckersByHandle (waveOutOpen env pWaveOutHandle p).2
         = <[h := {| serial := duckers_made p;
                     enabled := enable_result env |}]> (_duckersByHandle p)
       ∧ ∃ tr1 tr2,
           trace (waveOutOpen env pWaveOutHandle p).2
           = tr1 ++ [EvRealOpen; EvNewDucker (duckers_made p);
                     EvEnable (duckers_made p) (enable_result env)] ++ tr2)
  ∧ (∀ winerror,
       real_waveOutOpen env = Raise (WindowsError winerror) →
       (waveOutOpen env pWaveOutHandle p).1 = Ok winerror)
  ∧ (∀ env',
       real_waveOutOpen env' = real_waveOutOpen env →
       (waveOutOpen env' pWaveOutHandle p).1
       = (waveOutOpen env pWaveOutHandle p).1).
Proof.
  assert (∀ env0,
            (waveOutOpen env0 pWaveOutHandle p).1
            = real_status (real_waveOutOpen env0)) as Hstatus.
  { intros env0.
    destruct (real_status (real_waveOutOpen env0)) as [res|e] eqn:Hreal.
    - destruct (decide (res = 0)) as [->|Hres].
      + destruct pWaveOutHandle as [h|].
        * by rewrite waveOutOpen_registers.
        * erewrite waveOutOpen_fails; [done..|by right].
      + erewrite waveOutOpen_fails; [done..|by left].
    - by erewrite waveOutOpen_raises. }
  split; [apply Hstatus|]. split; [|split; [|split; [|split]]].
  - exists (debug_log (open_isDebug env)
              "Ducking audio requested for SAPI5 synthdriver").
    destruct (real_status (real_waveOutOpen env)) as [res|e] eqn:Hreal.
    + destruct (decide (res = 0 ∧ is_Some pWaveOutHandle))
        as [[-> [h ->]]|Hfail].
      * eexists. rewrite waveOutOpen_registers by done.
        cbn [snd with_duckers traced trace].
        split; [reflexivity|]. split; [apply debug_log_is_log|].
        intros Hin. simpl in Hin.
        destruct (enable_result env);
          repeat (apply elem_of_cons in Hin as [?|Hin]; [done|]);
          by apply elem_of_nil in Hin.
      * eexists. erewrite waveOutOpen_fails; [|done|].
        -- cbn [snd traced trace]. split; [reflexivity|].
           split; [apply debug_log_is_log|].
           intros Hin. simpl in Hin.
           repeat (apply elem_of_cons in Hin as [?|Hin]; [done|]).
           by apply elem_of_nil in Hin.
        -- destruct (decide (res = 0)) as [->|?]; [|by left].
           right. destruct pWaveOutHandle; [|done].
           destruct Hfail. split; [done|by eexists].
    + exists []. erewrite waveOutOpen_raises by done.
      cbn [snd traced trace]. split; [reflexivity|].
      split; [apply debug_log_is_log|apply not_elem_of_nil].
  - destruct (real_status (real_waveOutOpen env)) as [res|e] eqn:Hreal.
    + destruct (decide (res = 0)) as [->|Hres].
      * destruct pWaveOutHandle as [h|].
        -- by rewrite waveOutOpen_registers.
        -- erewrite waveOutOpen_fails; [done..|by right].
      * erewrite waveOutOpen_fails; [done..|by left].
    + by erewrite waveOutOpen_raises.
  - intros h Hreal ->. rewrite waveOutOpen_registers by done.
    split; [done|]. split; [done|].
    cbn [snd with_duckers traced trace].
    eexists (trace p ++ debug_log _ _), _. by rewrite <- app_assoc.
  - intros winerror Hraise. by rewrite Hstatus, Hraise.
  - intros env' Hsame. by rewrite !Hstatus, Hsame.
Qed.

Lemma waveOutOpen_hook_witness :
  (waveOutOpen (open_ok false) (Some 5) process0).1 = Ok 0
  ∧ _duckersByHandle (waveOutOpen (open_ok false) (Some 5) process0).2
    = <[5 := {| serial := duckers_made process0; enabled := false |}]>
        (_duckersByHandle process0).
Proof.
  destruct (waveOutOpen_hook (open_ok false) (Some 5) process0)
    as (_ & _ & _ & Hreg & _).
  destruct (Hreg 5 eq_refl eq_refl) as (H1 & H2 & _).
  exact (conj H1 H2).
Defined.

(** *** The close hook *)

Lemma call_real_close_status env waveOutHandle p :
  try_exceptM (r ← call_real_close env waveOutHandle; ret (or_0 r))
    isWindowsError
    (fun e => match e with
              | WindowsError winerror => ret winerror
              | _ => raise e
              end) p
  = (real_status (real_waveOutClose env), traced [EvRealClose waveOutHandle] p).
Proof.
  unfold try_exceptM, call_real_close, mbind, M_bind, bind.
  destruct (real_waveOutClose env) as [ret|[]]; reflexivity.
Qed.

Lemma waveOutClose_raises env waveOutHandle p e :
  real_status (real_waveOutClose env) = Raise e →
  waveOutClose env waveOutHandle p
  = (Raise e,
     traced (debug_log (close_isDebug env)
               "End ducking audio requested for SAPI5 synthdriver"
             ++ [EvRealClose waveOutHandle]) p).
Proof.
  intros Hstatus. unfold waveOutClose.
  erewrite bindM_Ok; [|apply when_log].
  erewrite bindM_Raise; [|by rewrite call_real_close_status, Hstatus].
  by rewrite traced_traced.
Qed.

Lemma waveOutClose_pops env waveOutHandle p :
  real_status (real_waveOutClose env) = Ok 0 →
  waveOutHandle ≠ 0 →
  waveOutClose env waveOutHandle p
  = (Ok 0,
     with_duckers (delete waveOutHandle (_duckersByHandle p))
       (traced (debug_log (close_isDebug env)
                  "End ducking audio requested for SAPI5 synthdriver"
                ++ [EvRealClose waveOutHandle]) p)).
Proof.
  intros Hstatus Hhandle%Z.eqb_neq. unfold waveOutClose.
  erewrite bindM_Ok; [|apply when_log].
  erewrite bindM_Ok; [|by rewrite call_real_close_status, Hstatus].
  rewrite traced_traced, Hhandle. reflexivity.
Qed.

Lemma waveOutClose_fails env waveOutHandle p res :
  real_status (real_waveOutClose env) = Ok res →
  res ≠ 0 ∨ waveOutHandle = 0 →
  waveOutClose env waveOutHandle p
  = (Ok res,
     traced (debug_log (close_isDebug env)
               "End ducking audio requested for SAPI5 synthdriver"
             ++ [EvRealClose waveOutHandle;
                 EvLog (WARNING, "Closing wave out failed for SAPI5 synthdriver");
                 EvLog (DEBUGWARNING, "Res")]) p).
Proof.
  intros Hstatus Hfail. unfold waveOutClose.
  erewrite bindM_Ok; [|apply when_log].
  erewrite bindM_Ok; [|by rewrite call_real_close_status, Hstatus].
  rewrite traced_traced.
  assert (Z.eqb res 0 && negb (Z.eqb waveOutHandle 0) = false) as ->.
  { destruct Hfail as [Hres%Z.eqb_neq| ->]; [by rewrite Hres|].
    apply andb_false_r. }
  unfold log, mbind, M_bind, bind. rewrite !emit_traced, !traced_traced.
  unfold ret. by rewrite <- app_assoc.
Qed.

Lemma waveOutClose_cases env waveOutHandle p :
  (waveOutClose env waveOutHandle p).1 = real_status (real_waveOutClose env)
  ∧ _waveOutHooks (waveOutClose env waveOutHandle p).2 = _waveOutHooks p
  ∧ (_duckersByHandle (waveOutClose env waveOutHandle p).2
     = _duckersByHandle p
     ∨ _duckersByHandle (waveOutClose env waveOutHandle p).2
       = delete waveOutHandle (_duckersByHandle p))
  ∧ ∃ rest,
      trace (waveOutClose env waveOutHandle p).2
      = trace p ++ debug_log (close_isDebug env)
                     "End ducking audio requested for SAPI5 synthdriver"
        ++ EvRealClose waveOutHandle :: rest
      ∧ Forall (fun e => is_EvLog e = true) rest.
Proof.
  destruct (real_status (real_waveOutClose env)) as [res|e] eqn:Hreal.
  - destruct (decide (res = 0 ∧ waveOutHandle ≠ 0)) as [[-> Hh]|Hfail].
    + rewrite waveOutClose_pops by done.
      repeat split; [by right|]. exists []. by split.
    + erewrite waveOutClose_fails; [|done|].
      * repeat split; [by left|]. eexists. split; [reflexivity|].
        by repeat constructor.
      * destruct (decide (res = 0)) as [->|?]; [|by left].
        right. destruct (decide (waveOutHandle = 0)); [done|].
        by destruct Hfail.
  - erewrite waveOutClose_raises by done.
    repeat split; [by left|]. exists []. by split.
Qed.

Lemma c_long_small n : 0 ≤ n < 2 ^ 31 → c_long n = n.
Proof.
  intros Hn. unfold c_long. rewrite Z.mod_small; lia.
Qed.

Lemma waveOutClose_callback_run env handle p :
  waveOutClose_callback env handle p
  = (match (waveOutClose env (c_long handle) p).1 with
     | Ok res => Ok (c_long res)
     | Raise e => Raise e
     end,
     (waveOutClose env (c_long handle) p).2).
Proof.
  unfold waveOutClose_callback, mbind, M_bind, bind.
  by destruct (waveOutClose env (c_long handle) p) as [[res|e] p'].
Qed.

(** C4: the close hook receives the handle as a C long, the open hook
    stores it as it is. A handle with bit 31 set, here 0x80000005, is
    stored under 2147483653 and looked for under -2147483643: after the
    open and the close of that handle, both real calls succeeding, the
    hook has handed back status 0 and the session is still in the
    registry, which is not empty. So it is with a handle of more than
    32 bits, here 0x1E200001230, which is looked for under 0x1230. The
    same calls with the handle 5 leave no session. *)
Theorem waveOutClose_high_handle_stays :
  let h := 2147483653 in
  let p1 := (waveOutOpen (open_ok true) (Some h) process0).2 in
  let p2 := (waveOutClose_callback close_ok h p1).2 in
  let w := 2070174241328 in
  let r1 := (waveOutOpen (open_ok true) (Some w) process0).2 in
  let r2 := (waveOutClose_callback close_ok w r1).2 in
  let q1 := (waveOutOpen (open_ok true) (Some 5) process0).2 in
  let q2 := (waveOutClose_callback close_ok 5 q1).2 in
  _duckersByHandle p1 !! h = Some {| serial := 0; enabled := true |}
  ∧ c_long h = -2147483643
  ∧ (waveOutClose_callback close_ok h p1).1 = Ok 0
  ∧ EvRealClose (-2147483643) ∈ trace p2
  ∧ _duckersByHandle p2 !! h = Some {| serial := 0; enabled := true |}
  ∧ _duckersByHandle p2 ≠ ∅
  ∧ c_long w = 4656
  ∧ (waveOutClose_callback close_ok w r1).1 = Ok 0
  ∧ _duckersByHandle r2 !! w = Some {| serial := 0; enabled := true |}
  ∧ _duckersByHandle q1 !! 5 = Some {| serial := 0; enabled := true |}
  ∧ (waveOutClose_callback close_ok 5 q1).1 = Ok 0
  ∧ _duckersByHandle q2 !! 5 = None.
Proof.
  cbv zeta.
  assert (_duckersByHandle
            (waveOutClose_callback close_ok 2147483653
               (waveOutOpen (open_ok true) (Some 2147483653) process0).2).2
          !! 2147483653 = Some {| serial := 0; enabled := true |}) as H2
    by reflexivity.
  repeat split; try reflexivity; try exact H2.
  - vm_compute. repeat (apply list_elem_of_here || apply list_elem_of_further).
  - intros Hempty. rewrite Hempty in H2. by rewrite lookup_empty in H2.
Qed.

(** X19: the close hook on a handle that is the same number as a C
    long. The hook calls the real close before anything else but its
    debug log and hands back its status. When that status is 0 and the
    handle is between 1 and [2^31 - 1], the session stored under the
    handle is taken out of the registry; when there is none, the registry is left
    as it is and nothing is raised, so a second close of the same handle
    gives status 0 again and changes nothing. After opening two such
    handles from an empty registry and closing them in reverse order,
    all four real calls succeeding, the registry is empty. *)
Theorem waveOutClose_hook (env : CloseEnv) (handle : Z) (p : Process) :
  (∀ res, real_status (real_waveOutClose env) = Ok res →
          (waveOutClose_callback env handle p).1 = Ok (c_long res))
  ∧ (∀ e, real_status (real_waveOutClose env) = Raise e →
          (waveOutClose_callback env handle p).1 = Raise e)
  ∧ (∃ logs rest,
       trace (waveOutClose_callback env handle p).2
       = trace p ++ logs ++ EvRealClose (c_long handle) :: rest
       ∧ Forall (fun e => is_EvLog e = true) logs
       ∧ Forall (fun e => is_EvLog e = true) rest)
  ∧ (real_status (real_waveOutClose env) = Ok 0 →
     0 < handle < 2 ^ 31 →
     _duckersByHandle (waveOutClose_callback env handle p).2
     = delete handle (_duckersByHandle p)
     ∧ _duckersByHandle (waveOutClose_callback env handle p).2 !! handle
       = None)
  ∧ (_duckersByHandle p !! c_long handle = None →
     _duckersByHandle (waveOutClose_callback env handle p).2
     = _duckersByHandle p)
  ∧ (∀ env',
       real_status (real_waveOutClose env) = Ok 0 →
       real_status (real_waveOutClose env') = Ok 0 →
       0 < handle < 2 ^ 31 →
       let p1 := (waveOutClose_callback env handle p).2 in
       (waveOutClose_callback env' handle p1).1 = Ok 0
       ∧ _duckersByHandle (waveOutClose_callback env' handle p1).2
         = _duckersByHandle p1)
  ∧ (∀ open1 open2 close2 h2,
       _duckersByHandle p = ∅ →
       0 < handle < 2 ^ 31 → 0 < h2 < 2 ^ 31 → handle ≠ h2 →
       real_status (real_waveOutOpen open1) = Ok 0 →
       real_status (real_waveOutOpen open2) = Ok 0 →
       real_status (real_waveOutClose close2) = Ok 0 →
       real_status (real_waveOutClose env) = Ok 0 →
       let p1 := (waveOutOpen open1 (Some handle) p).2 in
       let p2 := (waveOutOpen open2 (Some h2) p1).2 in
       let p3 := (waveOutClose_callback close2 h2 p2).2 in
       is_Some (_duckersByHandle p2 !! handle)
       ∧ is_Some (_duckersByHandle p2 !! h2)
       ∧ (waveOutClose_callback env handle p3).1 = Ok 0
       ∧ _duckersByHandle (waveOutClose_callback env handle p3).2 = ∅).
Proof.
  destruct (waveOutClose_cases env (c_long handle) p)
    as (Hstatus & _ & Hreg & rest & Htrace & Hrest).
  split; [|split; [|split; [|split; [|split; [|split]]]]].
  - intros res Hres. rewrite waveOutClose_callback_run. cbn [fst].
    by rewrite Hstatus, Hres.
  - intros e He. rewrite waveOutClose_callback_run. cbn [fst].
    by rewrite Hstatus, He.
  - rewrite waveOutClose_callback_run. cbn [snd].
    exists (debug_log (close_isDebug env)
              "End ducking audio requested for SAPI5 synthdriver"), rest.
    split; [done|]. split; [apply debug_log_is_log|done].
  - intros Hok Hh. rewrite waveOutClose_callback_run. cbn [snd].
    rewrite c_long_small by lia.
    rewrite waveOutClose_pops by (done || lia).
    split; [done|]. apply lookup_delete_eq.
  - intros Hnone. rewrite waveOutClose_callback_run. cbn [snd].
    destruct Hreg as [->| ->]; [done|].
    by apply delete_id.
  - intros env' Hok Hok' Hh. cbv zeta.
    rewrite !waveOutClose_callback_run. cbn [fst snd].
    rewrite c_long_small by lia.
    rewrite (waveOutClose_pops env') by (done || lia).
    split; [done|]. rewrite waveOutClose_pops by (done || lia).
    cbn [snd with_duckers traced _duckersByHandle].
    apply delete_id, lookup_delete_eq.
  - intros open1 open2 close2 h2 Hempty Hh1 Hh2 Hne Ho1 Ho2 Hc2 Hc1.
    cbv zeta.
    rewrite !waveOutClose_callback_run. cbn [fst snd].
    rewrite !c_long_small by lia.
    rewrite (waveOutClose_pops env) by (done || lia).
    rewrite (waveOutClose_pops close2) by (done || lia).
    rewrite !waveOutOpen_registers by done.
    cbn [fst snd with_duckers traced _duckersByHandle]. rewrite Hempty.
    split; [|split; [|split; [done|]]].
    + rewrite lookup_insert_ne, lookup_insert_eq by done. by eexists.
    + rewrite lookup_insert_eq. by eexists.
    + apply map_eq. intros i. rewrite lookup_empty.
      destruct (decide (i = handle)) as [->|Hi1];
        [by rewrite lookup_delete_eq|].
      rewrite lookup_delete_ne by done.
      destruct (decide (i = h2)) as [->|Hi2];
        [by rewrite lookup_delete_eq|].
      rewrite lookup_delete_ne by done.
      by rewrite !lookup_insert_ne, lookup_empty by done.
Qed.

Lemma waveOutClose_hook_witness :
  let p1 := (waveOutOpen (open_ok true) (Some 3) process0).2 in
  let p2 := (waveOutOpen (open_ok false) (Some 5) p1).2 in
  let p3 := (waveOutClose_callback close_ok 5 p2).2 in
  (waveOutClose_callback close_ok 3 p3).1 = Ok 0
  ∧ _duckersByHandle (waveOutClose_callback close_ok 3 p3).2 = ∅.
Proof.
  destruct (waveOutClose_hook close_ok 3 process0)
    as (_ & _ & _ & _ & _ & _ & Htwo).
  destruct (Htwo (open_ok true) (open_ok false) close_ok 5 eq_refl
              ltac:(lia) ltac:(lia) ltac:(discriminate)
              eq_refl eq_refl eq_refl eq_refl) as (_ & _ & H1 & H2).
  exact (conj H1 H2).
Defined.


(** * Further properties *)

(** ** Escaping of text *)

Lemma replace_lt_cons c s :
  replace_lt (String c s)
  = if Ascii.eqb c LT_CHAR then "&lt;" +:+ replace_lt s
    else String c (replace_lt s).
Proof. reflexivity. Qed.

(** X1: the text [speak] writes for a string has no [<] left in it, is
    the string itself when that has no [<], and is made piece by piece:
    escaping a concatenation is concatenating the escapes. *)
Theorem replace_lt_escapes (s : string) :
  (LT_CHAR ∉ String.list_ascii_of_string (replace_lt s))
  ∧ (LT_CHAR ∉ String.list_ascii_of_string s → replace_lt s = s)
  ∧ (∀ s2, replace_lt (s +:+ s2) = replace_lt s +:+ replace_lt s2).
Proof.
  induction s as [|c s (IH1 & IH2 & IH3)].
  - split; [apply not_elem_of_nil|]. split; done.
  - rewrite replace_lt_cons. split; [|split].
    + destruct (Ascii.eqb_spec c LT_CHAR) as [->|Hne].
      * change (String.list_ascii_of_string ("&lt;" +:+ replace_lt s))
          with (String.list_ascii_of_string "&lt;"
                ++ String.list_ascii_of_string (replace_lt s)).
        rewrite elem_of_app. intros [Hin|Hin]; [|done].
        vm_compute in Hin.
        repeat (apply elem_of_cons in Hin as [Hin|Hin]; [discriminate|]).
        by apply elem_of_nil in Hin.
      * cbn [String.list_ascii_of_string]. rewrite not_elem_of_cons.
        split; [congruence|done].
    + cbn [String.list_ascii_of_string]. rewrite not_elem_of_cons.
      intros [Hne Hs]. destruct (Ascii.eqb_spec c LT_CHAR); [congruence|].
      by rewrite IH2.
    + intros s2.
      change (String c s +:+ s2) with (String c (s +:+ s2)).
      rewrite replace_lt_cons, IH3.
      destruct (Ascii.eqb c LT_CHAR); [by rewrite append_assoc|done].
Qed.

Lemma replace_lt_escapes_witness : replace_lt "a > b" = "a > b".
Proof.
  refine (proj1 (proj2 (replace_lt_escapes "a > b")) _).
  intros Hin. vm_compute in Hin.
  repeat (apply elem_of_cons in Hin as [Hin|Hin]; [discriminate|]).
  by apply elem_of_nil in Hin.
Defined.

(** ** Text is written under the tags of [tags] *)

Lemma in_step_init self : in_step (speak_init self).
Proof.
  split; [by eexists _, _|]. split; [apply wf_speak_init|].
  split; [|done].
  intros k ->%list_elem_of_singleton. apply list_elem_of_here.
Qed.

Lemma in_step_outputTags st : in_step st → in_step (outputTags st).
Proof.
  intros Hst. unfold outputTags.
  destruct (tagsChanged st) eqn:Hdirty; [|done].
  destruct Hst as (Hpitch & Hwf & Hnames & Hsync). by repeat split.
Qed.

Lemma in_step_append ps st : in_step st → in_step (append ps st).
Proof. by intros (Hpitch & Hwf & Hnames & Hsync). Qed.

Lemma in_step_add_log r st : in_step st → in_step (add_log r st).
Proof. by intros (Hpitch & Hwf & Hnames & Hsync). Qed.

Lemma in_step_phoneme_fallback st text :
  in_step st → in_step (phoneme_fallback st text).
Proof.
  intros Hst. unfold phoneme_fallback.
  destruct text as [s|]; [destruct (String.eqb s "")|];
    auto using in_step_append, in_step_add_log.
Qed.

(** Setting one of the four keys keeps the invariant. *)
Lemma in_step_set k v st :
  k ∈ TAG_NAMES →
  (k = "pitch" → ∃ x, v = [("absmiddle", x)]) →
  in_step st → in_step (set_tags (PyDict.set k v (tags st)) st).
Proof.
  intros Hk Hv ((x & tl & Htags) & Hwf & Hnames & Hsync).
  split; [|split; [by apply wf_set|split; [|done]]].
  - cbn [set_tags tags]. rewrite Htags. cbn [PyDict.set].
    destruct (String.eqb_spec k "pitch") as [->|Hne].
    + destruct (Hv eq_refl) as [y ->]. by eexists _, _.
    + by eexists _, _.
  - intros j [->|Hj]%keys_set; [done|]. by apply Hnames.
Qed.

(** So does deleting a key other than [pitch]. *)
Lemma in_step_remove k st :
  k ≠ "pitch" →
  in_step st → in_step (set_tags (PyDict.remove k (tags st)) st).
Proof.
  intros Hk ((x & tl & Htags) & Hwf & Hnames & Hsync).
  split; [|split; [by apply wf_remove|split; [|done]]].
  - cbn [set_tags tags]. rewrite Htags. cbn [PyDict.remove].
    destruct (String.eqb_spec k "pitch"); [done|]. by eexists _, _.
  - intros j Hj%keys_remove_subseteq. by apply Hnames.
Qed.

Lemma TAG_NAMES_elem k :
  k = "pitch" ∨ k = "spell" ∨ k = "volume" ∨ k = "rate" → k ∈ TAG_NAMES.
Proof.
  unfold TAG_NAMES. rewrite !elem_of_cons. tauto.
Qed.

Lemma in_step_speak_item self pitch rate volume st item st' :
  speak_item self pitch rate volume st item = Ok st' →
  in_step st → in_step st'.
Proof.
  intros Hstep Hst.
  destruct item as [s|i|[|]|t|m|m|m|ipa text| |].
  - injection Hstep as <-. by apply in_step_append, in_step_outputTags.
  - injection Hstep as <-. by apply in_step_append.
  - injection Hstep as <-.
    apply in_step_set; [apply TAG_NAMES_elem; tauto|done|done].
  - simpl in Hstep. rewrite try_del_ok in Hstep. injection Hstep as <-.
    by apply in_step_remove.
  - injection Hstep as <-. by apply in_step_append.
  - injection Hstep as <-.
    apply in_step_set; [apply TAG_NAMES_elem; tauto|by eexists|done].
  - rewrite speak_item_volume in Hstep. injection Hstep as <-.
    destruct (is_one m).
    + by apply in_step_remove.
    + apply in_step_set; [apply TAG_NAMES_elem; tauto|done|done].
  - simpl in Hstep. destruct (is_one m).
    + rewrite try_del_ok in Hstep. injection Hstep as <-.
      by apply in_step_remove.
    + injection Hstep as <-.
      apply in_step_set; [apply TAG_NAMES_elem; tauto|done|done].
  - destruct (_convertPhoneme self ipa) as [sym|e] eqn:Hconv.
    + rewrite (speak_item_phoneme_ok _ _ _ _ _ _ _ _ Hconv) in Hstep.
      injection Hstep as <-. by apply in_step_append.
    + rewrite (speak_item_phoneme_raise _ _ _ _ _ _ _ _ Hconv) in Hstep.
      injection Hstep as <-. by apply in_step_phoneme_fallback.
  - injection Hstep as <-. by apply in_step_add_log.
  - injection Hstep as <-. by apply in_step_add_log.
Qed.

Lemma in_step_speak_loop self speechSequence st st' :
  speak_loop self speechSequence st = Ok st' → in_step st → in_step st'.
Proof.
  revert st. induction speechSequence as [|item rest IH]; intros st; simpl.
  - by intros [= <-].
  - destruct (speak_item _ _ _ _ st item) as [st1|] eqn:Hstep; [|done].
    rewrite bind_Ok. intros Hloop Hst.
    eapply IH; [done|]. by eapply in_step_speak_item.
Qed.

Lemma phoneme_keeps_open_tags self pitch rate volume st ipa text st' :
  speak_item self pitch rate volume st (PhonemeCommand ipa text) = Ok st' →
  openedTags st' = openedTags st
  ∧ tagsChanged st' = tagsChanged st
  ∧ tags st' = tags st.
Proof.
  intros Hstep.
  destruct (_convertPhoneme self ipa) as [sym|e] eqn:Hconv.
  - rewrite (speak_item_phoneme_ok _ _ _ _ _ _ _ _ Hconv) in Hstep.
    by injection Hstep as <-.
  - rewrite (speak_item_phoneme_raise _ _ _ _ _ _ _ _ Hconv) in Hstep.
    injection Hstep as <-. unfold phoneme_fallback.
    by destruct text as [s|]; [destruct (String.eqb s "")|].
Qed.

(** X2: every string item is written with exactly the tags of [tags]
    open. When [speak] has appended the text of a string item, the open
    tags are the keys of [tags] in their order, [pitch] is the first and
    so the outermost, no tag is open twice, each is one of [pitch],
    [spell], [volume] and [rate], so at most four are open, and the text
    is the last piece. The text of a phoneme command is not: it is
    appended with no flush, under the tags that were open before it,
    which at the start of a sequence are none. *)
Theorem text_under_current_tags (self : SynthDriver)
    (before : list SpeechItem) (s : string) :
  (∃ st,
     speak_loop self (before ++ [Str s]) (speak_init self) = Ok st
     ∧ openedTags st = PyDict.keys (tags st)
     ∧ (∃ rest, openedTags st = "pitch" :: rest)
     ∧ NoDup (openedTags st)
     ∧ (∀ k, k ∈ openedTags st → k ∈ TAG_NAMES)
     ∧ (length (openedTags st) ≤ 4)%nat
     ∧ ∃ ps, textList st = ps ++ [Lit (replace_lt s)])
  ∧ (∀ ipa text, ∃ st0 st1,
       speak_loop self before (speak_init self) = Ok st0
       ∧ speak_loop self (before ++ [PhonemeCommand ipa text])
           (speak_init self) = Ok st1
       ∧ openedTags st1 = openedTags st0
       ∧ tagsChanged st1 = tagsChanged st0
       ∧ tags st1 = tags st0
       ∧ (before = [] →
          openedTags st1 = [] ∧ PyDict.keys (tags st1) = ["pitch"])).
Proof.
  destruct (speak_loop_ok self before (speak_init self)) as [st0 H0].
  pose proof (in_step_speak_loop _ _ _ _ H0 (in_step_init self)) as Hst0.
  split.
  - exists (append [Lit (replace_lt s)] (outputTags st0)).
    split; [by rewrite speak_loop_app, H0|].
    destruct (in_step_append [Lit (replace_lt s)] _
                (in_step_outputTags _ Hst0))
      as ((v & tl & Htags) & Hwf & Hnames & Hsync).
    assert (tagsChanged (append [Lit (replace_lt s)] (outputTags st0)) = false)
      as Hclean.
    { unfold outputTags. by destruct (tagsChanged st0) eqn:Hdirty. }
    rewrite (Hsync Hclean).
    split; [done|]. split; [rewrite Htags; by eexists|].
    split; [done|]. split; [done|]. split; [|by eexists].
    change 4%nat with (length TAG_NAMES).
    apply submseteq_length, NoDup_submseteq; done.
  - intros ipa text.
    destruct (speak_item_ok self (_pitch self) (_get_rate self)
                (_get_volume self) st0 (PhonemeCommand ipa text))
      as [st1 H1].
    exists st0, st1. split; [done|].
    split; [by rewrite speak_loop_app, H0, bind_Ok; cbn [speak_loop];
            rewrite H1|].
    destruct (phoneme_keeps_open_tags _ _ _ _ _ _ _ _ H1)
      as (Hopen & Hdirty & Htags).
    split; [done|]. split; [done|]. split; [done|].
    intros ->. injection H0 as <-. by rewrite Hopen, Htags.
Qed.

Lemma text_under_current_tags_witness :
  ∃ st1,
    speak_loop us_english_driver ([] ++ [PhonemeCommand [0x61%N] (Some "cat")])
      (speak_init us_english_driver) = Ok st1
    ∧ openedTags st1 = []
    ∧ PyDict.keys (tags st1) = ["pitch"].
Proof.
  destruct (proj2 (text_under_current_tags us_english_driver [] "")
              [0x61%N] (Some "cat"))
    as (st0 & st1 & _ & H1 & _ & _ & _ & Hstart).
  exists st1. split; [exact H1|exact (Hstart eq_refl)].
Defined.

(** ** A sequence without text *)

Lemma textless_speak_item self pitch rate volume st item st' :
  is_Str item = false →
  speak_item self pitch rate volume st item = Ok st' →
  (∃ ps, textList st' = textList st ++ ps ∧ tag_events ps = [])
  ∧ openedTags st' = openedTags st.
Proof.
  intros Hitem Hstep.
  destruct item as [s|i|[|]|t|m|m|m|ipa text| |]; try done.
  - injection Hstep as <-. split; [by exists [Bookmark i]|done].
  - injection Hstep as <-. split; [|done]. exists []. by rewrite app_nil_r.
  - simpl in Hstep. rewrite try_del_ok in Hstep. injection Hstep as <-.
    split; [|done]. exists []. by rewrite app_nil_r.
  - injection Hstep as <-. split; [by exists [Silence t]|done].
  - injection Hstep as <-. split; [|done]. exists []. by rewrite app_nil_r.
  - rewrite speak_item_volume in Hstep. injection Hstep as <-.
    split; [|done]. exists []. by rewrite app_nil_r.
  - simpl in Hstep. destruct (is_one m);
      [rewrite try_del_ok in Hstep|]; injection Hstep as <-;
      (split; [|done]); exists []; by rewrite app_nil_r.
  - destruct (_convertPhoneme self ipa) as [sym|e] eqn:Hconv.
    + rewrite (speak_item_phoneme_ok _ _ _ _ _ _ _ _ Hconv) in Hstep.
      injection Hstep as <-. split; [by eexists [_]|done].
    + rewrite (speak_item_phoneme_raise _ _ _ _ _ _ _ _ Hconv) in Hstep.
      injection Hstep as <-. unfold phoneme_fallback.
      destruct text as [s|]; [destruct (String.eqb s "")|].
      * split; [|done]. exists []. by rewrite app_nil_r.
      * split; [by exists [Lit s]|done].
      * split; [|done]. exists []. by rewrite app_nil_r.
  - injection Hstep as <-. split; [|done]. exists []. by rewrite app_nil_r.
  - injection Hstep as <-. split; [|done]. exists []. by rewrite app_nil_r.
Qed.

Lemma textless_speak_loop self speechSequence st st' :
  Forall (fun item => is_Str item = false) speechSequence →
  speak_loop self speechSequence st = Ok st' →
  tag_events (textList st') = tag_events (textList st)
  ∧ openedTags st' = openedTags st.
Proof.
  intros Hall. revert st.
  induction Hall as [|item rest Hitem Hrest IH]; intros st; simpl.
  - by intros [= <-].
  - destruct (speak_item _ _ _ _ st item) as [st1|] eqn:Hstep; [|done].
    rewrite bind_Ok. intros Hloop.
    destruct (textless_speak_item _ _ _ _ _ _ _ Hitem Hstep)
      as ((ps & Htl & Hev) & Hopen).
    destruct (IH _ Hloop) as [Hev' Hopen'].
    rewrite Hev', Hopen', Htl, tag_events_app, Hev, app_nil_r. done.
Qed.

Lemma textless_pieces_speak_item self pitch rate volume st item st' :
  is_Str item = false →
  speak_item self pitch rate volume st item = Ok st' →
  ∃ ps, textList st' = textList st ++ ps
        ∧ Forall (fun p => outside_flush p = true) ps.
Proof.
  intros Hitem Hstep.
  destruct item as [s|i|[|]|t|m|m|m|ipa text| |]; try done.
  - injection Hstep as <-. exists [Bookmark i]. by repeat constructor.
  - injection Hstep as <-. exists []. by rewrite app_nil_r.
  - simpl in Hstep. rewrite try_del_ok in Hstep. injection Hstep as <-.
    exists []. by rewrite app_nil_r.
  - injection Hstep as <-. exists [Silence t]. by repeat constructor.
  - injection Hstep as <-. exists []. by rewrite app_nil_r.
  - rewrite speak_item_volume in Hstep. injection Hstep as <-.
    exists []. by rewrite app_nil_r.
  - simpl in Hstep. destruct (is_one m);
      [rewrite try_del_ok in Hstep|]; injection Hstep as <-;
      exists []; by rewrite app_nil_r.
  - destruct (_convertPhoneme self ipa) as [sym|e] eqn:Hconv.
    + rewrite (speak_item_phoneme_ok _ _ _ _ _ _ _ _ Hconv) in Hstep.
      injection Hstep as <-. eexists [_]. by repeat constructor.
    + rewrite (speak_item_phoneme_raise _ _ _ _ _ _ _ _ Hconv) in Hstep.
      injection Hstep as <-. unfold phoneme_fallback.
      destruct text as [s|]; [destruct (String.eqb s "")|].
      * exists []. by rewrite app_nil_r.
      * exists [Lit s]. by repeat constructor.
      * exists []. by rewrite app_nil_r.
  - injection Hstep as <-. exists []. by rewrite app_nil_r.
  - injection Hstep as <-. exists []. by rewrite app_nil_r.
Qed.

Lemma textless_pieces_speak_loop self speechSequence st st' :
  Forall (fun item => is_Str item = false) speechSequence →
  speak_loop self speechSequence st = Ok st' →
  Forall (fun p => outside_flush p = true) (textList st) →
  Forall (fun p => outside_flush p = true) (textList st').
Proof.
  intros Hall. revert st.
  induction Hall as [|item rest Hitem Hrest IH]; intros st; simpl.
  - by intros [= <-].
  - destruct (speak_item _ _ _ _ st item) as [st1|] eqn:Hstep; [|done].
    rewrite bind_Ok. intros Hloop Hst. apply (IH _ Hloop).
    destruct (textless_pieces_speak_item _ _ _ _ _ _ _ Hitem Hstep)
      as (ps & -> & Hps).
    by apply Forall_app.
Qed.

(** X3: a sequence that holds no string gives markup in which no tag of
    [tags] is opened or closed, not even the [pitch] tag, whatever
    commands it holds: a flush is run only before the text of a string
    item and at the end, where nothing is open. The markup is made of
    the pieces written outside a flush only: bookmarks, silences, [pron]
    elements and the fallback texts of phoneme commands. *)
Theorem no_text_no_tags (self : SynthDriver)
    (speechSequence : list SpeechItem) :
  Forall (fun item => is_Str item = false) speechSequence →
  ∃ st,
    speak_final self speechSequence = Ok st
    ∧ tag_events (textList st) = []
    ∧ (∀ tag, (OpenTag tag ∉ textList st) ∧ (CloseTag tag ∉ textList st))
    ∧ Forall (fun p => outside_flush p = true) (textList st)
    ∧ openedTags st = [].
Proof.
  intros Hall.
  destruct (speak_loop_ok self speechSequence (speak_init self)) as [st Hloop].
  destruct (textless_speak_loop _ _ _ _ Hall Hloop) as [Hev Hopen].
  exists (speak_close st). split; [unfold speak_final; by rewrite Hloop|].
  assert (tag_events (textList (speak_close st)) = []) as Hnone.
  { unfold speak_close. rewrite tag_events_outputTags by done.
    cbn [set_tags textList openedTags tags]. by rewrite Hev, Hopen. }
  split; [done|].
  assert (∀ p ev, tag_event p = Some ev → p ∉ textList (speak_close st))
    as Hnot.
  { intros p ev Hp Hin.
    assert (ev ∈ tag_events (textList (speak_close st))) as Hin'
      by (apply list_elem_of_omap; eauto).
    rewrite Hnone in Hin'. by apply elem_of_nil in Hin'. }
  split; [intros tag; split; by eapply Hnot|].
  unfold speak_close, outputTags.
  cbn [set_tags tagsChanged negb textList openedTags tags].
  rewrite Hopen. cbn [speak_init openedTags reverse fmap mbind].
  split; [|done].
  apply Forall_app. split; [|by constructor].
  by apply (textless_pieces_speak_loop _ _ _ _ Hall Hloop).
Qed.

Lemma no_text_no_tags_witness :
  ∃ st,
    speak_final us_english_driver
      [PitchCommand 2; IndexCommand 1; CharacterModeCommand true] = Ok st
    ∧ tag_events (textList st) = []
    ∧ Forall (fun p => outside_flush p = true) (textList st).
Proof.
  destruct (no_text_no_tags us_english_driver
              [PitchCommand 2; IndexCommand 1; CharacterModeCommand true]
              ltac:(repeat constructor)) as (st & H1 & H2 & _ & H3 & _).
  exists st. auto.
Defined.

(** ** Items that are only logged *)

Lemma same_output_refl st : same_output st st.
Proof. by repeat split. Qed.

Lemma same_output_outputTags st1 st2 :
  same_output st1 st2 → same_output (outputTags st1) (outputTags st2).
Proof.
  intros (Htl & Htags & Hdirty & Hopen). unfold outputTags.
  rewrite Hdirty. destruct (tagsChanged st2) eqn:Hdirty2; simpl;
    repeat split; simpl; congruence.
Qed.

Lemma same_output_speak_item self pitch rate volume st1 st2 item st1' :
  same_output st1 st2 →
  speak_item self pitch rate volume st1 item = Ok st1' →
  ∃ st2', speak_item self pitch rate volume st2 item = Ok st2'
          ∧ same_output st1' st2'.
Proof.
  intros Hsame Hstep.
  pose proof Hsame as (Htl & Htags & Hdirty & Hopen).
  destruct item as [s|i|[|]|t|m|m|m|ipa text| |].
  - injection Hstep as <-. eexists. split; [done|].
    destruct (same_output_outputTags _ _ Hsame) as (H1 & H2 & H3 & H4).
    repeat split; simpl; rewrite ?Htags; congruence.
  - injection Hstep as <-. eexists. split; [done|].
    repeat split; simpl; rewrite ?Htags; congruence.
  - injection Hstep as <-. eexists. split; [done|].
    repeat split; simpl; rewrite ?Htags; congruence.
  - simpl in Hstep. rewrite try_del_ok in Hstep. injection Hstep as <-.
    eexists. split; [simpl; by rewrite try_del_ok|].
    repeat split; simpl; rewrite ?Htags; congruence.
  - injection Hstep as <-. eexists. split; [done|].
    repeat split; simpl; rewrite ?Htags; congruence.
  - injection Hstep as <-. eexists. split; [done|].
    repeat split; simpl; rewrite ?Htags; congruence.
  - rewrite speak_item_volume in Hstep. injection Hstep as <-.
    eexists. split; [apply speak_item_volume|].
    repeat split; simpl; rewrite ?Htags; congruence.
  - simpl in Hstep. simpl. destruct (is_one m).
    + rewrite try_del_ok in Hstep. injection Hstep as <-. rewrite try_del_ok.
      eexists. split; [done|]. repeat split; simpl; rewrite ?Htags; congruence.
    + injection Hstep as <-. eexists. split; [done|].
      repeat split; simpl; rewrite ?Htags; congruence.
  - destruct (_convertPhoneme self ipa) as [sym|e] eqn:Hconv.
    + rewrite (speak_item_phoneme_ok _ _ _ _ _ _ _ _ Hconv) in Hstep.
      injection Hstep as <-.
      rewrite (speak_item_phoneme_ok _ _ _ _ _ _ _ _ Hconv).
      eexists. split; [done|]. repeat split; simpl; rewrite ?Htags; congruence.
    + rewrite (speak_item_phoneme_raise _ _ _ _ _ _ _ _ Hconv) in Hstep.
      injection Hstep as <-.
      rewrite (speak_item_phoneme_raise _ _ _ _ _ _ _ _ Hconv).
      eexists. split; [done|]. unfold phoneme_fallback.
      destruct text as [s|]; [destruct (String.eqb s "")|];
        repeat split; simpl; rewrite ?Htags; congruence.
  - injection Hstep as <-. eexists. split; [done|].
    repeat split; simpl; rewrite ?Htags; congruence.
  - injection Hstep as <-. eexists. split; [done|].
    repeat split; simpl; rewrite ?Htags; congruence.
Qed.

Lemma same_output_ignored self pitch rate volume st item st' :
  is_ignored item = true →
  speak_item self pitch rate volume st item = Ok st' →
  same_output st st'.
Proof.
  intros Hitem Hstep. destruct item; try done;
    injection Hstep as <-; by repeat split.
Qed.

Lemma same_output_trans st1 st2 st3 :
  same_output st1 st2 → same_output st2 st3 → same_output st1 st3.
Proof.
  intros (? & ? & ? & ?) (? & ? & ? & ?). repeat split; congruence.
Qed.

Lemma same_output_sym st1 st2 : same_output st1 st2 → same_output st2 st1.
Proof. intros (? & ? & ? & ?). by repeat split. Qed.

Lemma same_output_speak_loop self speechSequence st1 st2 st1' st2' :
  same_output st1 st2 →
  speak_loop self speechSequence st1 = Ok st1' →
  speak_loop self
    (filter (fun item => is_ignored item = false) speechSequence) st2
    = Ok st2' →
  same_output st1' st2'.
Proof.
  revert st1 st2.
  induction speechSequence as [|item rest IH]; intros st1 st2 Hsame; simpl.
  - intros [= <-] [= <-]. done.
  - destruct (speak_item _ _ _ _ st1 item) as [st1a|] eqn:Hstep; [|done].
    rewrite bind_Ok. intros Hloop1.
    destruct (is_ignored item) eqn:Hitem.
    + rewrite filter_cons_False by (by rewrite Hitem).
      apply (IH st1a st2); [|done].
      eapply same_output_trans; [|done].
      by eapply same_output_sym, same_output_ignored.
    + rewrite filter_cons_True by done. cbn [speak_loop].
      destruct (same_output_speak_item _ _ _ _ _ _ _ _ Hsame Hstep)
        as (st2a & -> & Hsame'). rewrite bind_Ok.
      by apply (IH st1a st2a).
Qed.

(** X4: the items [speak] does not know, commands or other objects, are
    logged and skipped: the markup and the flags are those of the
    sequence without them. *)
Theorem ignored_items_leave_no_trace (self : SynthDriver)
    (speechSequence : list SpeechItem) :
  speak self speechSequence
  = speak self (filter (fun item => is_ignored item = false) speechSequence).
Proof.
  unfold speak, speak_final.
  destruct (speak_loop_ok self speechSequence (speak_init self)) as [st1 H1].
  destruct (speak_loop_ok self
              (filter (fun item => is_ignored item = false) speechSequence)
              (speak_init self)) as [st2 H2].
  rewrite H1, H2, !bind_Ok.
  pose proof (same_output_speak_loop _ _ _ _ _ _
                (same_output_refl _) H1 H2) as (Htl & _ & _ & Hopen).
  unfold speak_close, outputTags.
  cbn [set_tags tagsChanged negb textList openedTags tags].
  by rewrite Htl, Hopen.
Qed.

(** ** The text of the markup *)

Lemma lits_closes l : omap lit_of (CloseTag <$> l) = [].
Proof. induction l as [|x l IH]; [done|]. by rewrite fmap_cons. Qed.

Lemma lits_open_pieces (tg : PyDict.t (PyDict.t Z)) :
  omap lit_of (tg ≫= open_pieces) = [].
Proof.
  induction tg as [|[k attrs] tg IH]; [done|].
  change (((k, attrs) :: tg) ≫= open_pieces)
    with (open_pieces (k, attrs) ++ (tg ≫= open_pieces)).
  rewrite omap_app, IH, app_nil_r. unfold open_pieces.
  cbn [omap list_omap lit_of fst snd]. rewrite omap_app.
  assert (omap lit_of ((fun av : string * Z => Attr av.1 av.2) <$> attrs) = [])
    as ->; [|done].
  induction attrs as [|av attrs IHa]; [done|]. by rewrite fmap_cons.
Qed.

Lemma lits_outputTags st :
  omap lit_of (textList (outputTags st)) = omap lit_of (textList st).
Proof.
  unfold outputTags. destruct (tagsChanged st); [|done]. simpl.
  by rewrite !omap_app, lits_closes, lits_open_pieces, !app_nil_r.
Qed.

Lemma lits_speak_item self pitch rate volume st item st' :
  speak_item self pitch rate volume st item = Ok st' →
  omap lit_of (textList st')
  = omap lit_of (textList st) ++ option_list (literal_of self item).
Proof.
  intros Hstep.
  destruct item as [s|i|[|]|t|m|m|m|ipa text| |].
  - injection Hstep as <-. simpl. by rewrite omap_app, lits_outputTags.
  - injection Hstep as <-. simpl. by rewrite omap_app.
  - injection Hstep as <-. simpl. by rewrite app_nil_r.
  - simpl in Hstep. rewrite try_del_ok in Hstep. injection Hstep as <-.
    simpl. by rewrite app_nil_r.
  - injection Hstep as <-. simpl. by rewrite omap_app.
  - injection Hstep as <-. simpl. by rewrite app_nil_r.
  - rewrite speak_item_volume in Hstep. injection Hstep as <-.
    simpl. by rewrite app_nil_r.
  - simpl in Hstep. destruct (is_one m);
      [rewrite try_del_ok in Hstep|]; injection Hstep as <-;
      simpl; by rewrite app_nil_r.
  - cbn [literal_of].
    destruct (_convertPhoneme self ipa) as [sym|e] eqn:Hconv.
    + rewrite (speak_item_phoneme_ok _ _ _ _ _ _ _ _ Hconv) in Hstep.
      injection Hstep as <-. simpl. by rewrite omap_app.
    + rewrite (speak_item_phoneme_raise _ _ _ _ _ _ _ _ Hconv) in Hstep.
      injection Hstep as <-. unfold phoneme_fallback.
      destruct text as [s|]; [destruct (String.eqb s "")|]; simpl;
        by rewrite ?omap_app, ?app_nil_r.
  - injection Hstep as <-. simpl. by rewrite app_nil_r.
  - injection Hstep as <-. simpl. by rewrite app_nil_r.
Qed.

Lemma lits_speak_loop self speechSequence st st' :
  speak_loop self speechSequence st = Ok st' →
  omap lit_of (textList st')
  = omap lit_of (textList st) ++ omap (literal_of self) speechSequence.
Proof.
  revert st. induction speechSequence as [|item rest IH]; intros st; simpl.
  - intros [= <-]. by rewrite app_nil_r.
  - destruct (speak_item _ _ _ _ st item) as [st1|] eqn:Hstep; [|done].
    rewrite bind_Ok. intros Hloop.
    rewrite (IH _ Hloop), (lits_speak_item _ _ _ _ _ _ _ Hstep).
    rewrite <- app_assoc. by destruct (literal_of self item).
Qed.

(** X5: no text is lost, added or moved. The literal pieces of the
    markup are, in the order of the sequence, the strings with [<]
    escaped and the fallback texts of the phoneme commands that could not
    be converted; tags, bookmarks and silences never stand for text. *)
Theorem texts_in_order (self : SynthDriver)
    (speechSequence : list SpeechItem) :
  ∃ st,
    speak_final self speechSequence = Ok st
    ∧ omap lit_of (textList st) = omap (literal_of self) speechSequence.
Proof.
  destruct (speak_loop_ok self speechSequence (speak_init self)) as [st Hloop].
  exists (speak_close st). split; [unfold speak_final; by rewrite Hloop|].
  unfold speak_close. rewrite lits_outputTags. cbn [set_tags textList].
  by rewrite (lits_speak_loop _ _ _ _ Hloop).
Qed.

(** ** Pitch and rate *)

Lemma get_set_ne {V} (d : PyDict.t V) k k' v :
  k ≠ k' → PyDict.get k (PyDict.set k' v d) = PyDict.get k d.
Proof.
  intros Hne. induction d as [|[j w] d IH]; simpl.
  - by destruct (String.eqb_spec k k').
  - destruct (String.eqb_spec k' j) as [->|Hj]; simpl.
    + by destruct (String.eqb_spec k j).
    + by rewrite IH.
Qed.

Lemma get_remove_ne {V} (d : PyDict.t V) k k' :
  k ≠ k' → PyDict.get k (PyDict.remove k' d) = PyDict.get k d.
Proof.
  intros Hne. induction d as [|[j w] d IH]; simpl; [done|].
  destruct (String.eqb_spec k' j) as [->|Hj]; simpl.
  - by destruct (String.eqb_spec k j).
  - by rewrite IH.
Qed.

Lemma pitch_kept self pitch rate volume st item st' :
  is_PitchCommand item = false →
  speak_item self pitch rate volume st item = Ok st' →
  PyDict.get "pitch" (tags st') = PyDict.get "pitch" (tags st).
Proof.
  intros Hitem Hstep.
  destruct item as [s|i|[|]|t|m|m|m|ipa text| |]; try done.
  - injection Hstep as <-. simpl. unfold outputTags.
    by destruct (tagsChanged st).
  - by injection Hstep as <-.
  - injection Hstep as <-. by apply get_set_ne.
  - simpl in Hstep. rewrite try_del_ok in Hstep. injection Hstep as <-.
    by apply get_remove_ne.
  - by injection Hstep as <-.
  - rewrite speak_item_volume in Hstep. injection Hstep as <-.
    cbn [set_tags tags].
    destruct (is_one m); [by apply get_remove_ne|by apply get_set_ne].
  - simpl in Hstep. destruct (is_one m).
    + rewrite try_del_ok in Hstep. injection Hstep as <-.
      by apply get_remove_ne.
    + injection Hstep as <-. by apply get_set_ne.
  - destruct (_convertPhoneme self ipa) as [sym|e] eqn:Hconv.
    + rewrite (speak_item_phoneme_ok _ _ _ _ _ _ _ _ Hconv) in Hstep.
      by injection Hstep as <-.
    + rewrite (speak_item_phoneme_raise _ _ _ _ _ _ _ _ Hconv) in Hstep.
      injection Hstep as <-. unfold phoneme_fallback.
      by destruct text as [s|]; [destruct (String.eqb s "")|].
  - by injection Hstep as <-.
  - by injection Hstep as <-.
Qed.

Lemma pitch_kept_loop self speechSequence st st' :
  Forall (fun item => is_PitchCommand item = false) speechSequence →
  speak_loop self speechSequence st = Ok st' →
  PyDict.get "pitch" (tags st') = PyDict.get "pitch" (tags st).
Proof.
  intros Hall. revert st.
  induction Hall as [|item rest Hitem Hrest IH]; intros st; simpl.
  - by intros [= <-].
  - destruct (speak_item _ _ _ _ st item) as [st1|] eqn:Hstep; [|done].
    rewrite bind_Ok. intros Hloop.
    by rewrite (IH _ Hloop), (pitch_kept _ _ _ _ _ _ _ Hitem Hstep).
Qed.

(** X6: the pitch of the markup is always counted from the pitch
    setting of the driver, never from the pitch before. With no pitch
    command it is [_percentToPitch(self._pitch)]; after a pitch command
    with multiplier [m], whatever came before and until the next pitch
    command, it is [_percentToPitch(int(self._pitch * m))], the product
    being exact or rounded as a float product is; and a multiplier equal
    to 1 gives the setting of the driver back. *)
Theorem pitch_from_setting (self : SynthDriver)
    (before between : list SpeechItem) (multiplier : number) :
  Forall (fun item => is_PitchCommand item = false) between →
  (∃ st,
     speak_loop self between (speak_init self) = Ok st
     ∧ PyDict.get "pitch" (tags st)
       = Some [("absmiddle", _percentToPitch (_pitch self))])
  ∧ (∃ st,
       speak_loop self (before ++ PitchCommand multiplier :: between)
         (speak_init self) = Ok st
       ∧ (let percent := py_int (py_mul (_pitch self) multiplier) in
          PyDict.get "pitch" (tags st)
          = Some [("absmiddle", _percentToPitch percent)]
          ∧ int_of_product (_pitch self) multiplier percent)
       ∧ ((value multiplier == 1)%Q → Z.abs (_pitch self) < 2 ^ 53 →
          PyDict.get "pitch" (tags st)
          = Some [("absmiddle", _percentToPitch (_pitch self))])).
Proof.
  intros Hbetween. split.
  - destruct (speak_loop_ok self between (speak_init self)) as [st Hloop].
    exists st. split; [done|].
    by rewrite (pitch_kept_loop _ _ _ _ Hbetween Hloop).
  - destruct (speak_loop_ok self before (speak_init self)) as [st0 H0].
    set (st1 := set_tags
                  (PyDict.set "pitch"
                     [("absmiddle",
                       _percentToPitch (py_int (py_mul (_pitch self) multiplier)))]
                     (tags st0)) st0).
    destruct (speak_loop_ok self between st1) as [st Hloop].
    exists st.
    assert (PyDict.get "pitch" (tags st)
            = Some [("absmiddle",
                     _percentToPitch (py_int (py_mul (_pitch self) multiplier)))])
      as Hget.
    { rewrite (pitch_kept_loop _ _ _ _ Hbetween Hloop). apply get_set_eq. }
    split; [by rewrite speak_loop_app, H0|].
    split; [split; [done|apply py_int_py_mul]|].
    intros Hone%is_one_value Hsmall. by rewrite Hget, py_int_mul_one.
Qed.

Lemma pitch_from_setting_witness :
  ∃ st,
    speak_loop (_set_pitch 100 us_english_driver)
      ([PitchCommand 2] ++ PitchCommand three_tenths :: [Str "a"])
      (speak_init (_set_pitch 100 us_english_driver)) = Ok st
    ∧ PyDict.get "pitch" (tags st) = Some [("absmiddle", -10)].
Proof.
  destruct (proj2 (pitch_from_setting (_set_pitch 100 us_english_driver)
                     [PitchCommand 2] [Str "a"] three_tenths
                     ltac:(repeat constructor)))
    as (st & H1 & H2 & _).
  exists st. split; [exact H1|exact (proj1 H2)].
Defined.

(** X7: the rate the driver reports and the rate of the engine
    convert into each other: [_percentToRate] of the reported rate is
    [tts.rate]. Setting a rate in percent and reading it back gives the
    multiple of 5 at or below it, less than 5 away, so a multiple of 5
    is read back as it is and setting what was read changes nothing. *)
Theorem rate_round_trip (self : SynthDriver) (rate : Z) :
  _percentToRate (_get_rate self) = tts_rate self
  ∧ _get_rate (_set_rate rate self) ≤ rate < _get_rate (_set_rate rate self) + 5
  ∧ _get_rate (_set_rate rate self) `mod` 5 = 0
  ∧ (rate `mod` 5 = 0 → _get_rate (_set_rate rate self) = rate)
  ∧ _set_rate (_get_rate (_set_rate rate self)) self = _set_rate rate self.
Proof.
  assert (∀ r, _percentToRate (r * 5 + 50) = r) as Hinv.
  { intros r. unfold _percentToRate.
    replace (r * 5 + 50 - 50) with (r * 5) by lia. by apply Z.div_mul. }
  unfold _get_rate. cbn [_set_rate tts_rate].
  split; [apply Hinv|].
  unfold _percentToRate at 1 2 3 4.
  pose proof (Z.div_mod (rate - 50) 5 ltac:(lia)) as Hdm.
  pose proof (Z.mod_pos_bound (rate - 50) 5 ltac:(lia)) as Hb.
  split; [lia|]. split.
  { replace ((rate - 50) `div` 5 * 5 + 50)
      with (((rate - 50) `div` 5 + 10) * 5) by lia.
    apply Z.mod_mul. lia. }
  split.
  { intros Hmod.
    assert ((rate - 50) `mod` 5 = 0) as Hmod'.
    { replace (rate - 50) with (rate + (-10) * 5) by lia.
      by rewrite Z.mod_add by lia. }
    lia. }
  unfold _set_rate. by rewrite Hinv.
Qed.

Lemma rate_round_trip_witness :
  _get_rate (_set_rate 65 us_english_driver) = 65.
Proof.
  exact (proj1 (proj2 (proj2 (proj2 (rate_round_trip us_english_driver 65))))
           eq_refl).
Defined.

(** X8: both conversions keep the order of percents, and a percent
    between 0 and 100 becomes an engine rate between -10 and 10 and an
    engine pitch between -25 and 25. *)
Theorem percent_conversions_range (p q : Z) :
  (p ≤ q)%Z →
  (_percentToRate p ≤ _percentToRate q)%Z
  ∧ (_percentToPitch p ≤ _percentToPitch q)%Z
  ∧ ((0 ≤ p)%Z → (q ≤ 100)%Z →
     (-10 ≤ _percentToRate p)%Z ∧ (_percentToRate q ≤ 10)%Z
     ∧ (-25 ≤ _percentToPitch p)%Z ∧ (_percentToPitch q ≤ 25)%Z).
Proof.
  intros Hpq. unfold _percentToRate, _percentToPitch.
  pose proof (Z.div_le_mono (p - 50) (q - 50) 5 ltac:(lia) ltac:(lia)) as Hr.
  pose proof (Z.div_le_mono p q 2 ltac:(lia) ltac:(lia)) as Hp.
  split; [done|]. split; [lia|].
  intros H0 H100.
  pose proof (Z.div_le_mono (-50) (p - 50) 5 ltac:(lia) ltac:(lia)) as Hr0.
  pose proof (Z.div_le_mono (q - 50) 50 5 ltac:(lia) ltac:(lia)) as Hr1.
  pose proof (Z.div_le_mono 0 p 2 ltac:(lia) ltac:(lia)) as Hp0.
  pose proof (Z.div_le_mono q 100 2 ltac:(lia) ltac:(lia)) as Hp1.
  change ((-50) `div` 5) with (-10) in Hr0. change (50 `div` 5) with 10 in Hr1.
  change (0 `div` 2) with 0 in Hp0. change (100 `div` 2) with 50 in Hp1.
  lia.
Qed.

Lemma percent_conversions_range_witness :
  (_percentToRate 0 ≤ _percentToRate 100)%Z
  ∧ (_percentToPitch 0 ≤ _percentToPitch 100)%Z.
Proof.
  destruct (percent_conversions_range 0 100 ltac:(lia)) as (H1 & H2 & _).
  exact (conj H1 H2).
Defined.

Lemma speak_item_rate self pitch rate volume st multiplier :
  speak_item self pitch rate volume st (RateCommand multiplier)
  = Ok (set_tags
          (if is_one multiplier then PyDict.remove "rate" (tags st)
           else PyDict.set "rate"
                  [("absspeed", _percentToRate (py_int (py_mul rate multiplier)))]
                  (tags st))
          st).
Proof.
  simpl. destruct (is_one multiplier); [|done]. by rewrite try_del_ok.
Qed.

(** X9: a rate command whose multiplier is equal to 1 takes the [rate]
    entry out of [tags], and no flush after it opens a [rate] tag as long
    as no later command sets the rate. With any other multiplier the
    entry becomes [absspeed = _percentToRate(int(rate * multiplier))],
    [rate] being the rate the driver reports, [tts.rate * 5 + 50], and
    the product being exact or rounded as a float product is; the next
    text is preceded by a [rate] tag with that speed. *)
Theorem rate_command_speed (self : SynthDriver)
    (before after : list SpeechItem) (multiplier : number) :
  ∃ st1 st,
    speak_loop self (before ++ [RateCommand multiplier]) (speak_init self)
      = Ok st1
    ∧ speak_final self (before ++ RateCommand multiplier :: after) = Ok st
    ∧ ((value multiplier == 1)%Q →
        PyDict.get "rate" (tags st1) = None
        ∧ (Forall (fun item => sets_tag "rate" item = false) after →
           ∃ ps, textList st = textList st1 ++ ps ∧ (OpenTag "rate" ∉ ps)))
    ∧ (¬ (value multiplier == 1)%Q →
        let percent := py_int (py_mul (tts_rate self * 5 + 50) multiplier) in
        let speed := _percentToRate percent in
        PyDict.get "rate" (tags st1) = Some [("absspeed", speed)]
        ∧ int_of_product (tts_rate self * 5 + 50) multiplier percent
        ∧ ∀ s, ∃ st2 ps1 ps2,
            speak_item self (_pitch self) (_get_rate self) (_get_volume self)
              st1 (Str s) = Ok st2
            ∧ textList st2
              = textList st1 ++ ps1
                ++ [OpenTag "rate"; Attr "absspeed" speed; OpenEnd]
                ++ ps2 ++ [Lit (replace_lt s)]).
Proof.
  destruct (speak_final_app self (before ++ [RateCommand multiplier]) after)
    as (st1 & st2 & H1 & H2 & Hfinal).
  rewrite <- app_assoc in Hfinal. simpl in Hfinal.
  exists st1, (speak_close st2). split; [done|]. split; [done|].
  pose proof H1 as H1'. rewrite speak_loop_app in H1'.
  destruct (speak_loop_ok self before (speak_init self)) as [st0 H0].
  rewrite H0, bind_Ok in H1'. cbn [speak_loop] in H1'.
  rewrite speak_item_rate, bind_Ok in H1'. injection H1' as Hst1.
  pose proof (wf_speak_loop _ _ _ _ H0 (wf_speak_init self)) as Hwf0.
  split.
  - intros Hone%is_one_value. rewrite Hone in Hst1.
    assert ("rate" ∉ PyDict.keys (tags st1)) as Habsent.
    { rewrite <- Hst1. simpl. by apply keys_remove_wf. }
    split; [by apply get_None|].
    intros Hafter.
    pose proof (absent_step_trans _ _ _ _
                  (absent_speak_loop _ _ _ _ _ Hafter H2 Habsent)
                  (absent_speak_close "rate" st2))
      as (ps & Htl & Hopen & _).
    by exists ps.
  - intros Hne.
    assert (is_one multiplier = false) as Hone.
    { destruct (is_one multiplier) eqn:Hone; [|done].
      by apply is_one_value in Hone. }
    rewrite Hone in Hst1.
    assert (PyDict.get "rate" (tags st1)
            = Some [("absspeed",
                     _percentToRate
                       (py_int (py_mul (tts_rate self * 5 + 50) multiplier)))])
      as Hget.
    { rewrite <- Hst1. apply get_set_eq. }
    split; [done|].
    split; [apply py_int_py_mul|].
    intros s. destruct (open_pieces_of_entry _ _ _ Hget) as (ps1 & ps2 & Hps).
    exists (append [Lit (replace_lt s)] (outputTags st1)),
      ((CloseTag <$> reverse (openedTags st1)) ++ ps1), ps2.
    split; [done|].
    assert (tagsChanged st1 = true) as Hdirty by (by rewrite <- Hst1).
    unfold outputTags. rewrite Hdirty. cbn [negb append textList].
    rewrite Hps. by rewrite <- !app_assoc.
Qed.

Lemma rate_command_speed_witness :
  ∃ st1,
    speak_loop (_set_rate 100 us_english_driver)
      ([RateCommand 2] ++ [RateCommand three_tenths])
      (speak_init (_set_rate 100 us_english_driver)) = Ok st1
    ∧ PyDict.get "rate" (tags st1) = Some [("absspeed", -4)].
Proof.
  destruct (rate_command_speed (_set_rate 100 us_english_driver)
              [RateCommand 2] [Str "a"] three_tenths)
    as (st1 & st & H1 & _ & _ & Hother).
  exists st1. split; [exact H1|].
  assert (¬ (value three_tenths == 1)%Q) as Hne.
  { intros Heq. vm_compute in Heq. discriminate Heq. }
  exact (proj1 (Hother Hne)).
Defined.

(** ** What [_convertPhoneme] accepts *)

Lemma _convertPhoneme_loop_known ipa out outAfter :
  Forall (fun c => c = STRESS ∨ is_Some (IPA_TO_SAPI c)) ipa ↔
  ∃ r, _convertPhoneme_loop ipa out outAfter = Ok r.
Proof.
  revert out outAfter. induction ipa as [|c ipa IH]; intros out outAfter.
  - split; [by eexists|by constructor].
  - rewrite Forall_cons. cbn [_convertPhoneme_loop].
    destruct (N.eqb_spec c STRESS) as [->|Hne].
    + rewrite (IH out (Some "1")). split; [by intros [_ ?]|]. by split; [left|].
    + destruct (IPA_TO_SAPI c) as [sapi|] eqn:Hc.
      * destruct outAfter as [a|].
        -- rewrite (IH (out ++ [sapi; a]) None).
           split; [by intros [_ ?]|]. split; [right; by eexists|done].
        -- rewrite (IH (out ++ [sapi]) None).
           split; [by intros [_ ?]|]. split; [right; by eexists|done].
      * split; [|by intros [r ?]].
        intros [[?|[? ?]] _]; done.
Qed.

Lemma _convertPhoneme_loop_tokens ipa out outAfter r :
  Forall (fun t => t = "th" ∨ t = "s" ∨ t = "1") out →
  outAfter = None ∨ outAfter = Some "1" →
  _convertPhoneme_loop ipa out outAfter = Ok r →
  Forall (fun t => t = "th" ∨ t = "s" ∨ t = "1") r.1
  ∧ (r.2 = None ∨ r.2 = Some "1").
Proof.
  revert out outAfter. induction ipa as [|c ipa IH]; intros out outAfter Hout Hoa.
  - by intros [= <-].
  - cbn [_convertPhoneme_loop].
    destruct (N.eqb c STRESS); [apply IH; auto|].
    unfold IPA_TO_SAPI.
    destruct (N.eqb c THETA); [|destruct (N.eqb c LATIN_S); [|done]];
      destruct Hoa as [-> | ->]; apply IH; auto;
      apply Forall_app; split; auto; repeat constructor; auto.
Qed.

(** X10: what [_convertPhoneme] accepts and gives. It returns a string
    exactly when the language of the voice is 409 and every symbol is the
    stress mark or has an entry in [IPA_TO_SAPI]; the language is
    looked at first. The tokens it joins are only [th], [s] and [1], so
    the [sym] attribute holds no quote and no [<]; and a stress mark
    written twice counts once. *)
Theorem _convertPhoneme_domain (self : SynthDriver) (ipa : list codepoint) :
  ((∃ sym, _convertPhoneme self ipa = Ok sym) ↔
   voice_language self = "409"
   ∧ Forall (fun c => c = STRESS ∨ is_Some (IPA_TO_SAPI c)) ipa)
  ∧ (voice_language self ≠ "409" →
     _convertPhoneme self ipa = Raise (LookupError "No data for this language"))
  ∧ (∀ out, _convertPhoneme_tokens self ipa = Ok out →
            Forall (fun t => t = "th" ∨ t = "s" ∨ t = "1") out)
  ∧ (∀ pre post,
       ipa = pre ++ STRESS :: STRESS :: post →
       _convertPhoneme self ipa = _convertPhoneme self (pre ++ STRESS :: post)).
Proof.
  split; [|split; [|split]].
  - unfold _convertPhoneme, _convertPhoneme_tokens.
    destruct (String.eqb_spec (voice_language self) "409") as [Hlang|Hlang];
      cbn [negb].
    + rewrite (_convertPhoneme_loop_known ipa [] None). split.
      * intros [sym Hsym]. split; [done|].
        destruct (_convertPhoneme_loop ipa [] None) as [r|e]; [by eexists|done].
      * intros [_ [r ->]]. rewrite bind_Ok.
        destruct r.2; rewrite bind_Ok; by eexists.
    + split; [intros [sym Hsym]; discriminate Hsym|by intros [? _]].
  - intros Hlang%String.eqb_neq.
    unfold _convertPhoneme, _convertPhoneme_tokens. rewrite Hlang.
    reflexivity.
  - intros out. unfold _convertPhoneme_tokens.
    destruct (negb _); [done|].
    destruct (_convertPhoneme_loop ipa [] None) as [r|e] eqn:Hloop; [|done].
    rewrite bind_Ok.
    destruct (_convertPhoneme_loop_tokens _ _ _ _ (Forall_nil_2 _)
                (or_introl eq_refl) Hloop) as [Hout Hoa].
    destruct Hoa as [-> | ->]; intros [= <-]; [done|].
    apply Forall_app. split; [done|]. apply Forall_singleton. auto.
  - intros pre post ->.
    unfold _convertPhoneme, _convertPhoneme_tokens.
    destruct (negb _); [done|].
    rewrite !_convertPhoneme_loop_app.
    by destruct (_convertPhoneme_loop pre [] None).
Qed.

Lemma _convertPhoneme_domain_witness :
  ∃ sym, _convertPhoneme us_english_driver [STRESS; THETA; LATIN_S] = Ok sym.
Proof.
  apply (proj2 (proj1 (_convertPhoneme_domain us_english_driver
                         [STRESS; THETA; LATIN_S]))).
  split; [reflexivity|].
  apply Forall_cons_2; [by left|].
  apply Forall_cons_2; [right; by eexists|].
  apply Forall_cons_2; [right; by eexists|].
  apply Forall_nil_2.
Defined.


(** ** Setting and removing hooks *)

(** [FunctionHooker.__init__] in every case. *)
Lemma FunctionHooker_init_cases P c p :
  ∃ evs,
    (FunctionHooker_init P c p).2 = traced evs p
    ∧ Forall (fun e => is_EvNewDucker e = false) evs
    ∧ (encodable P c = false → hookSingle_calls evs = [])
    ∧ (FunctionHooker_init P c p).1
      = if encodable P c
           && negb (Z.eqb (dllImportTableHooks_hookSingle P (trace p) c) 0)
        then Ok {| hooked := c;
                   _hook := dllImportTableHooks_hookSingle P (trace p) c |}
        else Raise (RuntimeError ("Could not hook " +:+ funcName c)).
Proof.
  unfold encodable, FunctionHooker_init, try_exceptM, encode_mbcs,
    call_hookSingle, mbind, M_bind, bind.
  destruct (mbcs_encodable P (targetDll c));
    [destruct (mbcs_encodable P (importDll c));
       [destruct (mbcs_encodable P (funcName c))|]|];
    cbn [ret raise emit log fst snd trace isUnicodeEncodeError andb].
  - destruct (Z.eqb (dllImportTableHooks_hookSingle P (trace p) c) 0);
      cbn [negb emit log ret raise];
      (eexists [_; _]; split; [unfold traced; cbn; by rewrite <- app_assoc|]);
      (split; [by repeat constructor|]); split; done.
  - eexists [_; _]. split; [unfold traced; cbn; by rewrite <- app_assoc|].
    split; [by repeat constructor|]. split; done.
  - eexists [_; _]. split; [unfold traced; cbn; by rewrite <- app_assoc|].
    split; [by repeat constructor|]. split; done.
  - eexists [_; _]. split; [unfold traced; cbn; by rewrite <- app_assoc|].
    split; [by repeat constructor|]. split; done.
Qed.

(** X11: [FunctionHooker] is made only with a hook that is set. The
    constructor returns an object exactly when the three names can be
    encoded and [dllImportTableHooks_hookSingle] gives a hook that is not
    null; otherwise it raises [RuntimeError], never
    [UnicodeEncodeError], and when a name cannot be encoded the hooking
    function is not called at all. It touches neither the registry nor
    the list of hooks, and an object it returned unhooks its hook when
    it is destroyed. *)
Theorem FunctionHooker_init_errors (P : Platform) (c : HookCall)
    (p : Process) :
  (FunctionHooker_init P c p).1
  = (if encodable P c
        && negb (Z.eqb (dllImportTableHooks_hookSingle P (trace p) c) 0)
     then Ok {| hooked := c;
                _hook := dllImportTableHooks_hookSingle P (trace p) c |}
     else Raise (RuntimeError ("Could not hook " +:+ funcName c)))
  ∧ (encodable P c = false →
     hookSingle_calls (trace (FunctionHooker_init P c p).2)
     = hookSingle_calls (trace p))
  ∧ _duckersByHandle (FunctionHooker_init P c p).2 = _duckersByHandle p
  ∧ _waveOutHooks (FunctionHooker_init P c p).2 = _waveOutHooks p
  ∧ (∀ h, (FunctionHooker_init P c p).1 = Ok h →
          _hook h ≠ 0 ∧ FunctionHooker_del h = [_hook h]).
Proof.
  destruct (FunctionHooker_init_cases P c p)
    as (evs & Hstate & _ & Hcalls & Hres).
  split; [done|]. rewrite Hstate. split; [|split; [done|split; [done|]]].
  - intros Henc. unfold hookSingle_calls in *. cbn [traced trace].
    rewrite filter_app, (Hcalls Henc). by rewrite app_nil_r.
  - intros h. rewrite Hres.
    destruct (encodable P c); [|done].
    destruct (Z.eqb_spec (dllImportTableHooks_hookSingle P (trace p) c) 0)
      as [Hz|Hnz]; [done|].
    intros [= <-]. split; [done|].
    unfold FunctionHooker_del. cbn [_hook].
    by destruct (Z.eqb_spec (dllImportTableHooks_hookSingle P (trace p) c) 0).
Qed.

Lemma FunctionHooker_init_errors_witness :
  hookSingle_calls
    (trace (FunctionHooker_init
              {| isAudioDuckingSupported := true; sapiPath := "sapi.dll";
                 mbcs_encodable := fun _ => false;
                 dllImportTableHooks_hookSingle := fun _ _ => 7 |}
              (open_call platform_ok) process0).2)
  = hookSingle_calls (trace process0).
Proof.
  exact (proj1 (proj2 (FunctionHooker_init_errors
                         {| isAudioDuckingSupported := true;
                            sapiPath := "sapi.dll";
                            mbcs_encodable := fun _ => false;
                            dllImportTableHooks_hookSingle := fun _ _ => 7 |}
                         (open_call platform_ok) process0)) eq_refl).
Defined.

Lemma FunctionHooker_init_raises P c p :
  encodable P c && negb (Z.eqb (dllImportTableHooks_hookSingle P (trace p) c) 0)
  = false →
  ∃ evs,
    FunctionHooker_init P c p
    = (Raise (RuntimeError ("Could not hook " +:+ funcName c)), traced evs p).
Proof.
  intros Hfail.
  destruct (FunctionHooker_init_cases P c p) as (evs & Hstate & _ & _ & Hres).
  exists evs. rewrite Hfail in Hres.
  destruct (FunctionHooker_init P c p) as [r p']. simpl in *. congruence.
Qed.

(** X12: when the hook over [waveOutOpen] is set and the one over
    [waveOutClose] cannot be, because its name cannot be encoded or
    because the hooking function answers with a null hook,
    [ensureWaveOutHooks] raises [RuntimeError] and keeps the first hook
    in [_waveOutHooks]; from then on every call returns at once, whatever
    the platform would answer, so the second hook is never set. *)
Theorem ensureWaveOutHooks_half_installed (P : Platform) (p : Process) :
  let h1 := dllImportTableHooks_hookSingle P (trace p) (open_call P) in
  let h2 := dllImportTableHooks_hookSingle P
              (trace p ++ [EvHookSingle (open_call P) h1;
                           EvLog (DEBUG, "Hooked waveOutOpen")])
              (close_call P) in
  isAudioDuckingSupported P = true →
  _waveOutHooks p = [] →
  encodable P (open_call P) = true →
  h1 ≠ 0 →
  encodable P (close_call P) = false ∨ h2 = 0 →
  (ensureWaveOutHooks P p).1
  = Raise (RuntimeError "Could not hook waveOutClose")
  ∧ _waveOutHooks (ensureWaveOutHooks P p).2
    = [{| hooked := open_call P; _hook := h1 |}]
  ∧ _duckersByHandle (ensureWaveOutHooks P p).2 = _duckersByHandle p
  ∧ ∀ P', ensureWaveOutHooks P' (ensureWaveOutHooks P p).2
          = (Ok (), (ensureWaveOutHooks P p).2).
Proof.
  intros h1 h2 Hsupp Hempty Henc Hopen Hclose.
  assert (∃ p1,
            ensureWaveOutHooks P p
            = (Raise (RuntimeError "Could not hook waveOutClose"), p1)
            ∧ _waveOutHooks p1 = [{| hooked := open_call P; _hook := h1 |}]
            ∧ _duckersByHandle p1 = _duckersByHandle p)
    as (p1 & Hrun & Hhooks & Hreg).
  { unfold ensureWaveOutHooks.
    rewrite Hsupp, bool_decide_eq_true_2 by done. cbn [andb].
    erewrite bindM_Ok; [|by apply FunctionHooker_init_ok].
    erewrite bindM_Ok; [|reflexivity].
    edestruct (FunctionHooker_init_raises P (close_call P)) as [evs Hraise];
      [|erewrite bindM_Raise; [|exact Hraise]].
    - cbn [append_hook snd trace].
      change ("Hooked " +:+ funcName (open_call P)) with "Hooked waveOutOpen".
      fold h1 h2. destruct Hclose as [->| ->]; [done|apply andb_false_r].
    - eexists. split; [reflexivity|].
      cbn [traced _waveOutHooks _duckersByHandle]. by rewrite Hempty. }
  rewrite Hrun. cbn [fst snd]. split; [done|]. split; [done|].
  split; [done|].
  intros P'. apply ensureWaveOutHooks_skip. left. by rewrite Hhooks.
Qed.

Lemma ensureWaveOutHooks_half_installed_witness :
  let P := {| isAudioDuckingSupported := true; sapiPath := "sapi.dll";
              mbcs_encodable := fun s => negb (String.eqb s "waveOutClose");
              dllImportTableHooks_hookSingle := fun _ _ => 7 |} in
  (ensureWaveOutHooks P process0).1
  = Raise (RuntimeError "Could not hook waveOutClose")
  ∧ length (_waveOutHooks (ensureWaveOutHooks P process0).2) = 1%nat.
Proof.
  intros P.
  destruct (ensureWaveOutHooks_half_installed P process0 eq_refl eq_refl
              eq_refl ltac:(discriminate) (or_introl eq_refl))
    as (H1 & H2 & _).
  split; [exact H1|]. by rewrite H2.
Defined.

(** ** The registry *)

Lemma waveOutOpen_fails_frame env pWaveOutHandle p :
  real_status (real_waveOutOpen env) ≠ Ok 0 ∨ pWaveOutHandle = None →
  _duckersByHandle (waveOutOpen env pWaveOutHandle p).2 = _duckersByHandle p
  ∧ duckers_made (waveOutOpen env pWaveOutHandle p).2 = duckers_made p.
Proof.
  intros Hfail.
  assert (Forall (fun e => is_EvNewDucker e = false)
            (debug_log (open_isDebug env)
               "Ducking audio requested for SAPI5 synthdriver")) as Hdebug.
  { unfold debug_log. destruct (open_isDebug env); by repeat constructor. }
  destruct (real_status (real_waveOutOpen env)) as [res|e] eqn:Hreal.
  - erewrite waveOutOpen_fails; [|done|].
    + split; [done|]. apply duckers_made_traced, Forall_app.
      split; [done|]. by repeat constructor.
    + destruct Hfail as [Hne| ->]; [|by right]. left. congruence.
  - erewrite waveOutOpen_raises by done.
    split; [done|]. apply duckers_made_traced, Forall_app.
    split; [done|]. by repeat constructor.
Qed.

Lemma waveOutOpen_duckers_made env h p :
  real_status (real_waveOutOpen env) = Ok 0 →
  duckers_made (waveOutOpen env (Some h) p).2 = S (duckers_made p).
Proof.
  intros Hok. rewrite waveOutOpen_registers by done.
  unfold duckers_made. cbn [snd with_duckers traced trace].
  rewrite !filter_app, !length_app.
  assert (∀ b msg,
            filter (fun e => is_EvNewDucker e = true) (debug_log b msg) = [])
    as Hdebug by (by intros [] msg).
  rewrite Hdebug.
  generalize (length (filter (fun e => is_EvNewDucker e = true) (trace p))).
  intros n. by destruct (enable_result env); vm_compute; rewrite ?Nat.add_1_r.
Qed.

(** X13: a real call that fails changes nothing in the registry. When
    the real open gives a status other than 0, raises, or is given a
    null handle pointer, the open hook makes no ducker and leaves the
    registry as it is; when the real close gives a status other than 0
    or raises, the session of the handle stays. An exception other than
    [WindowsError] leaves the hook. *)
Theorem failed_call_keeps_registry (p : Process) :
  (∀ env pWaveOutHandle,
     real_status (real_waveOutOpen env) ≠ Ok 0 ∨ pWaveOutHandle = None →
     _duckersByHandle (waveOutOpen env pWaveOutHandle p).2 = _duckersByHandle p
     ∧ duckers_made (waveOutOpen env pWaveOutHandle p).2 = duckers_made p)
  ∧ (∀ env waveOutHandle,
       real_status (real_waveOutClose env) ≠ Ok 0 →
       _duckersByHandle (waveOutClose env waveOutHandle p).2
       = _duckersByHandle p)
  ∧ (∀ env pWaveOutHandle e,
       real_waveOutOpen env = Raise e → isWindowsError e = false →
       (waveOutOpen env pWaveOutHandle p).1 = Raise e)
  ∧ (∀ env waveOutHandle e,
       real_waveOutClose env = Raise e → isWindowsError e = false →
       (waveOutClose env waveOutHandle p).1 = Raise e).
Proof.
  split; [|split; [|split]].
  - intros env pW Hfail.
    assert (Forall (fun e => is_EvNewDucker e = false)
              (debug_log (open_isDebug env)
                 "Ducking audio requested for SAPI5 synthdriver")) as Hdebug.
    { unfold debug_log. destruct (open_isDebug env); by repeat constructor. }
    destruct (real_status (real_waveOutOpen env)) as [res|e] eqn:Hreal.
    + erewrite waveOutOpen_fails; [|done|].
      * split; [done|]. apply duckers_made_traced, Forall_app.
        split; [done|]. by repeat constructor.
      * destruct Hfail as [Hne| ->]; [|by right]. left. congruence.
    + erewrite waveOutOpen_raises by done.
      split; [done|]. apply duckers_made_traced, Forall_app.
      split; [done|]. by repeat constructor.
  - intros env h Hfail.
    destruct (real_status (real_waveOutClose env)) as [res|e] eqn:Hreal.
    + erewrite waveOutClose_fails; [done|done|]. left. congruence.
    + by erewrite waveOutClose_raises.
  - intros env pW e Hraise Hother.
    erewrite waveOutOpen_raises; [done|]. rewrite Hraise.
    by destruct e.
  - intros env h e Hraise Hother.
    erewrite waveOutClose_raises; [done|]. rewrite Hraise.
    by destruct e.
Qed.

Lemma failed_call_keeps_registry_witness :
  let p := (waveOutOpen (open_ok true) (Some 5) process0).2 in
  _duckersByHandle
    (waveOutClose {| close_isDebug := false;
                     real_waveOutClose := Ok (Some 5) |} 5 p).2
  = _duckersByHandle p.
Proof.
  intros p.
  apply (proj1 (proj2 (failed_call_keeps_registry p))). discriminate.
Defined.

(** X14: a successful open stores a new ducker under the handle and
    touches no other handle. A session already stored under that handle
    is replaced, the registry keeping its size; otherwise the registry
    grows by one. The new ducker is none of those stored before. *)
Theorem waveOutOpen_stores_new_ducker (env : OpenEnv) (h : Z) (p : Process) :
  real_status (real_waveOutOpen env) = Ok 0 →
  let p' := (waveOutOpen env (Some h) p).2 in
  _duckersByHandle p' !! h
  = Some {| serial := duckers_made p; enabled := enable_result env |}
  ∧ (∀ h', h' ≠ h → _duckersByHandle p' !! h' = _duckersByHandle p !! h')
  ∧ duckers_made p' = S (duckers_made p)
  ∧ (is_Some (_duckersByHandle p !! h) →
     size (_duckersByHandle p') = size (_duckersByHandle p))
  ∧ (_duckersByHandle p !! h = None →
     size (_duckersByHandle p') = S (size (_duckersByHandle p))).
Proof.
  intros Hok p'. unfold p'. rewrite waveOutOpen_registers by done.
  cbn [snd with_duckers _duckersByHandle].
  split; [apply lookup_insert_eq|]. split; [|split; [|split]].
  - intros h' Hne. by apply lookup_insert_ne.
  - unfold duckers_made. cbn [with_duckers traced trace].
    rewrite !filter_app, !length_app.
    assert (∀ b msg,
              filter (fun e => is_EvNewDucker e = true) (debug_log b msg) = [])
      as Hdebug by (by intros [] msg).
    rewrite Hdebug.
    generalize (length (filter (fun e => is_EvNewDucker e = true) (trace p))).
    intros n. by destruct (enable_result env); vm_compute; rewrite ?Nat.add_1_r.
  - intros [d Hd].
    rewrite <- (insert_delete_id _ _ _ Hd) at 2.
    rewrite <- insert_delete_eq.
    by rewrite !map_size_insert_None by apply lookup_delete_eq.
  - intros Hnone. by apply map_size_insert_None.
Qed.

Lemma waveOutOpen_stores_new_ducker_witness :
  let p := (waveOutOpen (open_ok true) (Some 5) process0).2 in
  _duckersByHandle (waveOutOpen (open_ok false) (Some 5) p).2 !! 5
  = Some {| serial := duckers_made p; enabled := false |}.
Proof.
  intros p.
  exact (proj1 (waveOutOpen_stores_new_ducker (open_ok false) 5 p eq_refl)).
Defined.

(** ** What holds of the module state after any calls *)

Lemma duckers_made_trace p p' evs :
  trace p' = trace p ++ evs →
  Forall (fun e => is_EvNewDucker e = false) evs →
  duckers_made p' = duckers_made p.
Proof.
  intros Htrace Hevs.
  rewrite <- (duckers_made_traced evs p Hevs).
  unfold duckers_made. by rewrite Htrace.
Qed.

Lemma is_EvLog_not_ducker evs :
  Forall (fun e => is_EvLog e = true) evs →
  Forall (fun e => is_EvNewDucker e = false) evs.
Proof. intros Hlogs. eapply Forall_impl; [exact Hlogs|]. by intros []. Qed.

(** [ensureWaveOutHooks] in every case: it adds at most two hooks, and
    none when there are hooks; it leaves the registry alone. *)
Lemma ensureWaveOutHooks_frame P p :
  ∃ evs hs,
    (ensureWaveOutHooks P p).2
    = {| _duckersByHandle := _duckersByHandle p;
         _waveOutHooks := _waveOutHooks p ++ hs;
         trace := trace p ++ evs |}
    ∧ Forall (fun e => is_EvNewDucker e = false) evs
    ∧ (_waveOutHooks p ≠ [] → hs = [])
    ∧ (length hs ≤ 2)%nat.
Proof.
  destruct (decide (_waveOutHooks p = [] ∧ isAudioDuckingSupported P = true))
    as [[Hempty Hsupp]|Hskip].
  - unfold ensureWaveOutHooks.
    rewrite Hsupp, bool_decide_eq_true_2 by done. cbn [andb].
    destruct (FunctionHooker_init_cases P (open_call P) p)
      as (evs1 & Hstate1 & Hevs1 & _ & Hres1).
    destruct (FunctionHooker_init P (open_call P) p) as [[h1|e1] p1] eqn:Hinit1;
      cbn [fst snd] in *; subst p1.
    + erewrite bindM_Ok; [|exact Hinit1].
      erewrite bindM_Ok; [|reflexivity].
      set (p2 := {| _duckersByHandle := _duckersByHandle (traced evs1 p);
                    _waveOutHooks := _waveOutHooks (traced evs1 p) ++ [h1];
                    trace := trace (traced evs1 p) |}).
      destruct (FunctionHooker_init_cases P (close_call P) p2)
        as (evs2 & Hstate2 & Hevs2 & _ & Hres2).
      destruct (FunctionHooker_init P (close_call P) p2)
        as [[h2|e2] p3] eqn:Hinit2; cbn [fst snd] in *; subst p3.
      * erewrite bindM_Ok; [|exact Hinit2].
        exists (evs1 ++ evs2), [h1; h2]. split.
        { unfold append_hook, p2, traced.
          cbn [snd _duckersByHandle _waveOutHooks trace].
          by rewrite <- !app_assoc. }
        split; [by apply Forall_app|]. split; [done|]. simpl. lia.
      * erewrite bindM_Raise; [|exact Hinit2].
        exists (evs1 ++ evs2), [h1]. split.
        { unfold append_hook, p2, traced.
          cbn [snd _duckersByHandle _waveOutHooks trace].
          by rewrite <- !app_assoc. }
        split; [by apply Forall_app|]. split; [done|]. simpl. lia.
    + erewrite bindM_Raise; [|exact Hinit1].
      exists evs1, []. split; [unfold traced; cbn [snd]; by rewrite app_nil_r|].
      split; [done|]. split; [done|]. simpl. lia.
  - rewrite ensureWaveOutHooks_skip.
    + exists [], []. split; [destruct p; cbn; by rewrite !app_nil_r|].
      split; [done|]. split; [done|]. simpl. lia.
    + destruct (decide (_waveOutHooks p = [])); [|by left].
      right. destruct (isAudioDuckingSupported P); [|done].
      by destruct Hskip.
Qed.

Lemma registry_ok_same p p' :
  _duckersByHandle p' = _duckersByHandle p →
  duckers_made p' = duckers_made p →
  registry_ok p → registry_ok p'.
Proof. unfold registry_ok. intros -> ->. done. Qed.

Lemma registry_ok_delete p p' h :
  _duckersByHandle p' = delete h (_duckersByHandle p) →
  duckers_made p' = duckers_made p →
  registry_ok p → registry_ok p'.
Proof.
  unfold registry_ok. intros -> -> Hok h0 d0 [Hne Hd0]%lookup_delete_Some.
  destruct (Hok h0 d0 Hd0) as [Hlt Huniq]. split; [done|].
  intros h' d' [_ Hd']%lookup_delete_Some. by apply Huniq.
Qed.

Lemma registry_ok_insert p p' h b :
  _duckersByHandle p'
  = <[h := {| serial := duckers_made p; enabled := b |}]> (_duckersByHandle p) →
  duckers_made p' = S (duckers_made p) →
  registry_ok p → registry_ok p'.
Proof.
  unfold registry_ok. intros -> -> Hok h0 d0 Hd0.
  assert (∀ h1 d1,
            <[h := {| serial := duckers_made p; enabled := b |}]>
              (_duckersByHandle p) !! h1 = Some d1 →
            (h1 = h ∧ serial d1 = duckers_made p)
            ∨ (h1 ≠ h ∧ (serial d1 < duckers_made p)%nat
               ∧ _duckersByHandle p !! h1 = Some d1)) as Hcases.
  { intros h1 d1 Hd1. destruct (decide (h1 = h)) as [->|Hne].
    - rewrite lookup_insert_eq in Hd1. injection Hd1 as <-. by left.
    - rewrite lookup_insert_ne in Hd1 by done. right.
      split; [done|]. split; [|done]. by destruct (Hok h1 d1 Hd1). }
  split.
  - destruct (Hcases h0 d0 Hd0) as [[_ ->]|(_ & Hlt & _)]; lia.
  - intros h' d' Hd' Hserial.
    destruct (Hcases h0 d0 Hd0) as [[-> H0]|(Hne0 & Hlt0 & Hold0)];
      destruct (Hcases h' d' Hd') as [[-> H1]|(Hne1 & Hlt1 & Hold1)];
      try done; try lia.
    destruct (Hok h0 d0 Hold0) as [_ Huniq]. by apply (Huniq h' d').
Qed.

Lemma run_op_keeps_registry_ok p op :
  registry_ok p → registry_ok (run_op p op).
Proof.
  intros Hok. destruct op as [P|env pW|env h]; cbn [run_op].
  - destruct (ensureWaveOutHooks_frame P p) as (evs & hs & -> & Hevs & _).
    apply (registry_ok_same p); [done| |done].
    by apply (duckers_made_trace p _ evs).
  - assert ((real_status (real_waveOutOpen env) = Ok 0 ∧ is_Some pW)
            ∨ (real_status (real_waveOutOpen env) ≠ Ok 0 ∨ pW = None))
      as [[Hreal [h ->]]|Hfail].
    { destruct pW as [h|]; [|right; by right].
      destruct (real_status (real_waveOutOpen env)) as [res|e];
        [|right; by left].
      destruct (decide (res = 0)) as [->|Hres].
      - left. split; [done|by eexists].
      - right. left. congruence. }
    + pose proof (waveOutOpen_duckers_made env h p Hreal) as Hmade.
      eapply registry_ok_insert; [|exact Hmade|done].
      by rewrite waveOutOpen_registers.
    + destruct (waveOutOpen_fails_frame env pW p Hfail) as [Hreg Hmade].
      by apply (registry_ok_same p).
  - destruct (waveOutClose_cases env h p)
      as (_ & _ & Hreg & rest & Htrace & Hrest).
    assert (duckers_made (waveOutClose env h p).2 = duckers_made p) as Hmade.
    { eapply duckers_made_trace; [exact Htrace|].
      apply Forall_app. split.
      - apply is_EvLog_not_ducker, debug_log_is_log.
      - apply Forall_cons. split; [done|]. by apply is_EvLog_not_ducker. }
    destruct Hreg as [Hreg|Hreg].
    + by apply (registry_ok_same p).
    + by apply (registry_ok_delete p _ h).
Qed.

Lemma run_op_hooks p op :
  (length (_waveOutHooks p) ≤ 2)%nat →
  (length (_waveOutHooks (run_op p op)) ≤ 2)%nat
  ∧ match op with
    | OpEnsure _ => _duckersByHandle (run_op p op) = _duckersByHandle p
    | _ => _waveOutHooks (run_op p op) = _waveOutHooks p
    end.
Proof.
  intros Hlen. destruct op as [P|env pW|env h]; cbn [run_op].
  - destruct (ensureWaveOutHooks_frame P p)
      as (evs & hs & -> & _ & Hnone & Hhs).
    cbn [_waveOutHooks _duckersByHandle]. split; [|done].
    destruct (decide (_waveOutHooks p = [])) as [->|Hne]; [done|].
    by rewrite (Hnone Hne), app_nil_r.
  - by rewrite waveOutOpen_keeps_hooks.
  - destruct (waveOutClose_cases env h p) as (_ & -> & _). done.
Qed.

(** X15: whatever calls reach the hooks, in whatever order and with
    whatever answers of the system, no ducker is ever stored under two
    handles and every stored ducker was made by an open; the list of
    hooks never holds more than two; the open and close hooks do not
    touch the list of hooks, and [ensureWaveOutHooks] does not touch the
    registry. *)
Theorem hooks_state_invariant (ops : list HookOp) :
  registry_ok (run_ops ops process0)
  ∧ (length (_waveOutHooks (run_ops ops process0)) ≤ 2)%nat
  ∧ ∀ op,
      match op with
      | OpEnsure _ =>
          _duckersByHandle (run_op (run_ops ops process0) op)
          = _duckersByHandle (run_ops ops process0)
      | _ =>
          _waveOutHooks (run_op (run_ops ops process0) op)
          = _waveOutHooks (run_ops ops process0)
      end.
Proof.
  assert (registry_ok (run_ops ops process0)
          ∧ (length (_waveOutHooks (run_ops ops process0)) ≤ 2)%nat)
    as [Hok Hlen].
  { unfold run_ops. induction ops as [|op ops IH] using rev_ind.
    - split; [|simpl; lia]. intros h d Hd.
      cbn [foldl process0 _duckersByHandle] in Hd.
      by rewrite lookup_empty in Hd.
    - rewrite foldl_snoc. destruct IH as [Hok Hlen].
      split; [by apply run_op_keeps_registry_ok|].
      by apply run_op_hooks. }
  split; [done|]. split; [done|].
  intros op. by apply run_op_hooks.
Qed.


(** ** The voices of the engine *)

Lemma readable_voice_of windows_locale tok :
  readable tok →
  ∃ info, voice_of windows_locale tok = Some info
          ∧ token_Id tok = Ok (voice_id info)
          ∧ read_voice windows_locale tok
            = fun loc => (Ok (), locals_of info).
Proof.
  intros (ID & name & lcid & HID & Hname & Hlang).
  unfold voice_of, read_voice. rewrite HID, Hname, Hlang.
  by eexists.
Qed.

Lemma add_voice_locals_of info voices :
  add_voice (locals_of info) voices
  = Ok (PyDict.set (voice_id info) info voices).
Proof. by destruct info. Qed.

(** On readable tokens the loop enters one voice after the other. *)
Lemma _getAvailableVoices_loop_readable windows_locale before rest loc voices
    logged :
  Forall readable before →
  _getAvailableVoices_loop windows_locale (before ++ rest) loc voices logged
  = _getAvailableVoices_loop windows_locale rest
      (foldl (locals_after windows_locale) loc before)
      (foldl (enter_voice windows_locale) voices before) logged.
Proof.
  intros Hall. revert loc voices.
  induction Hall as [|tok before Htok Hbefore IH]; intros loc voices; [done|].
  destruct (readable_voice_of windows_locale tok Htok)
    as (info & Hinfo & _ & Hread).
  cbn [app _getAvailableVoices_loop foldl]. rewrite Hread. cbn [fst snd].
  rewrite add_voice_locals_of, IH.
  unfold locals_after, enter_voice. by rewrite Hinfo.
Qed.

Lemma keys_enter_voices windows_locale toks voices ID :
  ID ∈ PyDict.keys (foldl (enter_voice windows_locale) voices toks) ↔
  ID ∈ PyDict.keys voices
  ∨ ∃ tok info, tok ∈ toks ∧ voice_of windows_locale tok = Some info
                ∧ voice_id info = ID.
Proof.
  revert voices. induction toks as [|tok toks IH]; intros voices.
  - cbn [foldl]. split; [by left|]. intros [?|(tok & info & Hin & _)]; [done|].
    by apply elem_of_nil in Hin.
  - cbn [foldl]. rewrite IH. unfold enter_voice.
    destruct (voice_of windows_locale tok) as [info|] eqn:Hinfo.
    + rewrite keys_set. split.
      * intros [[->|?]|(t & i & Hin & Hi & <-)].
        -- right. exists tok, info. split; [apply list_elem_of_here|done].
        -- by left.
        -- right. exists t, i. split; [by apply list_elem_of_further|done].
      * intros [?|(t & i & Hin & Hi & <-)]; [left; by right|].
        apply elem_of_cons in Hin as [->|Hin].
        -- left. left. congruence.
        -- right. by exists t, i.
    + split.
      * intros [?|(t & i & Hin & Hi & <-)]; [by left|].
        right. exists t, i. split; [by apply list_elem_of_further|done].
      * intros [?|(t & i & Hin & Hi & <-)]; [by left|].
        apply elem_of_cons in Hin as [->|Hin]; [congruence|].
        right. by exists t, i.
Qed.

Lemma wf_enter_voices windows_locale toks voices :
  PyDict.wf voices →
  PyDict.wf (foldl (enter_voice windows_locale) voices toks).
Proof.
  revert voices. induction toks as [|tok toks IH]; intros voices Hwf; [done|].
  cbn [foldl]. apply IH. unfold enter_voice.
  destruct (voice_of windows_locale tok); [by apply wf_set|done].
Qed.

Lemma get_enter_voices_other windows_locale toks voices ID :
  (∀ tok info, tok ∈ toks → voice_of windows_locale tok = Some info →
               voice_id info ≠ ID) →
  PyDict.get ID (foldl (enter_voice windows_locale) voices toks)
  = PyDict.get ID voices.
Proof.
  revert voices. induction toks as [|tok toks IH]; intros voices Hother; [done|].
  cbn [foldl]. rewrite IH.
  - unfold enter_voice.
    destruct (voice_of windows_locale tok) as [info|] eqn:Hinfo; [|done].
    apply get_set_ne. intros ->.
    by apply (Hother tok info (list_elem_of_here _ _)).
  - intros t i Hin. apply Hother. by apply list_elem_of_further.
Qed.

(** X16: when every token can be read, [_getAvailableVoices] returns a
    dictionary with one entry for each token Id, in the order in which
    the Ids first occur, and logs nothing. The entry of an Id is that of
    the last token with this Id: its description, and the locale of its
    language number, or no language when [locale.windows_locale] does
    not know the number. *)
Theorem voices_of_readable_tokens (windows_locale : gmap Z string)
    (v : list VoiceToken) :
  Forall readable v →
  ∃ voices,
    _getAvailableVoices windows_locale v = (Ok voices, [])
    ∧ NoDup (PyDict.keys voices)
    ∧ (∀ ID, ID ∈ PyDict.keys voices ↔ ∃ tok, tok ∈ v ∧ token_Id tok = Ok ID)
    ∧ (∀ before tok after ID name lcid,
         v = before ++ tok :: after →
         token_Id tok = Ok ID →
         token_description tok = Ok name →
         token_language tok = Ok lcid →
         (∀ t, t ∈ after → token_Id t ≠ Ok ID) →
         PyDict.get ID voices
         = Some {| voice_id := ID; displayName := name;
                   language := windows_locale !! lcid |}).
Proof.
  intros Hall.
  exists (foldl (enter_voice windows_locale) [] v).
  split; [|split; [|split]].
  - unfold _getAvailableVoices.
    rewrite <- (app_nil_r v) at 1.
    by rewrite _getAvailableVoices_loop_readable.
  - apply wf_enter_voices, NoDup_nil_2.
  - intros ID. rewrite keys_enter_voices. split.
    + intros [Hin|(tok & info & Hin & Hinfo & <-)];
        [by apply elem_of_nil in Hin|].
      exists tok. split; [done|].
      rewrite Forall_forall in Hall.
      destruct (readable_voice_of windows_locale tok (Hall tok Hin))
        as (info' & Hinfo' & HID & _). congruence.
    + intros (tok & Hin & HID). right.
      rewrite Forall_forall in Hall.
      destruct (readable_voice_of windows_locale tok (Hall tok Hin))
        as (info & Hinfo & HID' & _).
      exists tok, info. split; [done|]. split; [done|]. congruence.
  - intros before tok after ID name lcid -> HID Hname Hlang Hafter.
    rewrite foldl_app. cbn [foldl].
    rewrite get_enter_voices_other.
    + unfold enter_voice at 1, voice_of. rewrite HID, Hname, Hlang.
      apply get_set_eq.
    + intros t info Hin Hinfo <-. apply (Hafter t Hin).
      apply Forall_app in Hall as [_ Hall].
      apply Forall_cons in Hall as [_ Hall].
      rewrite Forall_forall in Hall.
      destruct (readable_voice_of windows_locale t (Hall t Hin))
        as (info' & Hinfo' & HID' & _). congruence.
Qed.

Lemma voices_of_readable_tokens_witness :
  let tok ID name :=
    {| token_Id := Ok ID; token_description := Ok name;
       token_language := Ok 1033 |} in
  ∃ voices,
    _getAvailableVoices {[1033 := "en_US"]} [tok "a" "Anna"; tok "b" "Bob"]
    = (Ok voices, [])
    ∧ PyDict.get "b" voices
      = Some {| voice_id := "b"; displayName := "Bob";
                language := Some "en_US" |}.
Proof.
  intros tok.
  destruct (voices_of_readable_tokens {[1033 := "en_US"]}
              [tok "a" "Anna"; tok "b" "Bob"]) as (voices & H1 & _ & _ & H2).
  { repeat constructor; by eexists _, _, _. }
  exists voices. split; [exact H1|].
  apply (H2 [tok "a" "Anna"] (tok "b" "Bob") [] "b" "Bob" 1033);
    try reflexivity.
  intros t Hin. by apply elem_of_nil in Hin.
Defined.

Lemma _getAvailableVoices_loop_logged windows_locale v loc voices l1 l2 :
  (_getAvailableVoices_loop windows_locale v loc voices l1).1
  = (_getAvailableVoices_loop windows_locale v loc voices l2).1.
Proof.
  revert loc voices l1 l2.
  induction v as [|tok v IH]; intros loc voices l1 l2; [done|].
  cbn [_getAvailableVoices_loop].
  destruct (read_voice windows_locale tok loc).1 as [[]|e].
  - destruct (add_voice _ voices); [apply IH|done].
  - destruct (isCOMError e); [|done].
    destruct (add_voice _ voices); [apply IH|done].
Qed.

Lemma set_same {V} (d : PyDict.t V) k v :
  PyDict.get k d = Some v → PyDict.set k v d = d.
Proof.
  induction d as [|[j w] d IH]; simpl; [done|].
  destruct (String.eqb_spec k j) as [->|Hne].
  - by intros [= ->].
  - intros Hget. by rewrite IH.
Qed.

(** After a readable token the locals are its entry, and the entry is in
    [voices]. *)
Lemma after_readable windows_locale before prev loc voices :
  readable prev →
  ∃ info,
    voice_of windows_locale prev = Some info
    ∧ foldl (locals_after windows_locale) loc (before ++ [prev])
      = locals_of info
    ∧ PyDict.get (voice_id info)
        (foldl (enter_voice windows_locale) voices (before ++ [prev]))
      = Some info.
Proof.
  intros Hprev.
  destruct (readable_voice_of windows_locale prev Hprev)
    as (info & Hinfo & _ & _).
  exists info. rewrite !foldl_snoc. unfold locals_after, enter_voice.
  rewrite Hinfo. split; [done|]. split; [done|]. apply get_set_eq.
Qed.

Lemma read_voice_Id_raises windows_locale tok loc e :
  token_Id tok = Raise e → read_voice windows_locale tok loc = (Raise e, loc).
Proof. intros HID. unfold read_voice. by rewrite HID. Qed.

Lemma read_voice_description_raises windows_locale tok loc ID e :
  token_Id tok = Ok ID → token_description tok = Raise e →
  read_voice windows_locale tok loc
  = (Raise e, {| local_ID := Some ID; local_name := local_name loc;
                 local_language := local_language loc |}).
Proof. intros HID Hdesc. unfold read_voice. by rewrite HID, Hdesc. Qed.

(** X17: a token that cannot be read is not skipped, though the log
    says so. When a read of the first token raises [COMError], the
    function raises [UnboundLocalError]. After a readable token, a token
    whose Id cannot be read writes the entry of the token before once
    more, which changes nothing; and a token whose description cannot be
    read is entered under its own Id with the name and the language of
    the token before. *)
Theorem unreadable_token_not_skipped (windows_locale : gmap Z string)
    (before : list VoiceToken) (prev tok : VoiceToken)
    (rest : list VoiceToken) (e : exn) :
  isCOMError e = true →
  ((read_voice windows_locale tok no_locals).1 = Raise e →
   _getAvailableVoices windows_locale (tok :: rest)
   = (Raise UnboundLocalError, [skipping_warning]))
  ∧ (Forall readable (before ++ [prev]) →
     token_Id tok = Raise e →
     (_getAvailableVoices windows_locale ((before ++ [prev]) ++ tok :: rest)).1
     = (_getAvailableVoices windows_locale ((before ++ [prev]) ++ rest)).1)
  ∧ (Forall readable (before ++ [prev]) →
     ∀ ID pinfo,
       voice_of windows_locale prev = Some pinfo →
       token_Id tok = Ok ID →
       token_description tok = Raise e →
       _getAvailableVoices windows_locale ((before ++ [prev]) ++ [tok])
       = (Ok (PyDict.set ID
                {| voice_id := ID; displayName := displayName pinfo;
                   language := language pinfo |}
                (foldl (enter_voice windows_locale) [] (before ++ [prev]))),
          [skipping_warning])).
Proof.
  intros HCOM.
  assert (isKeyError e = false) as Hkey by (by destruct e).
  split; [|split].
  - intros Hraise. unfold _getAvailableVoices.
    change {| local_ID := None; local_name := None; local_language := None |}
      with no_locals.
    cbn [_getAvailableVoices_loop]. rewrite Hraise, HCOM.
    assert (local_language (read_voice windows_locale tok no_locals).2 = None)
      as Hunbound.
    { revert Hraise. unfold read_voice.
      destruct (token_Id tok); [|done].
      destruct (token_description tok); [|done].
      destruct (token_language tok) as [lcid|e']; [done|].
      by destruct (isKeyError e'). }
    unfold add_voice. rewrite Hunbound.
    by destruct (local_ID (read_voice windows_locale tok no_locals).2),
      (local_name (read_voice windows_locale tok no_locals).2).
  - intros Hall HID.
    assert (readable prev) as Hprev.
    { apply Forall_app in Hall as [_ Hall]. by apply Forall_cons in Hall as [? _]. }
    unfold _getAvailableVoices.
    rewrite !_getAvailableVoices_loop_readable by done.
    destruct (after_readable windows_locale before prev
                {| local_ID := None; local_name := None;
                   local_language := None |} [] Hprev)
      as (info & _ & -> & Hget).
    cbn [_getAvailableVoices_loop].
    rewrite (read_voice_Id_raises _ _ _ _ HID).
    cbn [fst snd]. rewrite HCOM, add_voice_locals_of, (set_same _ _ _ Hget).
    apply _getAvailableVoices_loop_logged.
  - intros Hall ID pinfo Hpinfo HID Hdesc.
    assert (readable prev) as Hprev.
    { apply Forall_app in Hall as [_ Hall]. by apply Forall_cons in Hall as [? _]. }
    unfold _getAvailableVoices.
    rewrite !_getAvailableVoices_loop_readable by done.
    destruct (after_readable windows_locale before prev
                {| local_ID := None; local_name := None;
                   local_language := None |} [] Hprev)
      as (info & Hinfo & -> & _).
    assert (info = pinfo) as -> by congruence.
    cbn [_getAvailableVoices_loop].
    rewrite (read_voice_description_raises _ _ _ _ _ HID Hdesc).
    cbn [fst snd]. rewrite HCOM.
    by destruct pinfo.
Qed.

Lemma unreadable_token_not_skipped_witness :
  _getAvailableVoices ∅
    ({| token_Id := Raise COMError; token_description := Ok "Anna";
        token_language := Ok 1033 |} :: [])
  = (Raise UnboundLocalError, [skipping_warning]).
Proof.
  exact (proj1 (unreadable_token_not_skipped ∅ []
                  {| token_Id := Ok "a"; token_description := Ok "Anna";
                     token_language := Ok 1033 |}
                  {| token_Id := Raise COMError; token_description := Ok "Anna";
                     token_language := Ok 1033 |} [] COMError eq_refl)
           eq_refl).
Defined.
